(** * Mallard image gateway: storage orchestration and metadata queries

    A shallow embedding of
      - [mallard/gateway/backends/metadata/sql/sql_image_metadata_store.py]
        (the SQL metadata store and its query translation), and
      - [mallard/gateway/routers/images/endpoints.py]
        (the create / delete / read / query endpoints),
    followed by the properties stated about them.

    Conventions.  A Python exception is a value of [exn]; a call that may
    raise returns [result A].  Numbers stored as floats are modelled by
    rationals (only comparisons are ever performed on them), dates by their
    ordinal.  A text is the sequence of its characters, as a Python [str]
    is: each element of a [string] stands for one character, not for a byte
    of an encoding.

    The store hands the [Select] values it builds to a database it does not
    choose.  The evaluation of a [Select] over the table follows SQL; what
    SQL leaves to the database (the collation of texts, the place of NULLs
    in an ordering, the order of rows that the ordering does not tell
    apart) is a parameter, [Engine.t]: the store sets none of it. *)

From Stdlib Require Import ZArith QArith String Ascii List Bool Lia OrderedTypeEx.
From stdpp Require Import base option list gmap strings sorting.

Close Scope Q_scope.
Local Open Scope string_scope.
Local Open Scope Z_scope.
Local Open Scope list_scope.

(** ** Exceptions *)

Inductive exn : Type :=
| KeyError
| NotImplementedError
| MetadataOperationError
| ObjectOperationError
| IntegrityError
| MultipleResultsFound
| RequestValidationError
| ArgumentError
| HTTPException (status_code : Z).

Definition result (A : Type) : Type := (exn + A)%type.

Definition bind {A B : Type} (r : result A) (k : A -> result B) : result B :=
  match r with
  | inl e => inl e
  | inr a => k a
  end.

Notation "'let*' x ':=' r 'in' k" := (bind r (fun x => k))
  (at level 10, x name, r at level 100, k at level 200).

#[global] Instance exn_eq_dec : EqDecision exn.
Proof. solve_decision. Defined.

(** ** Data model *)

Module ObjectRef.
Record t : Type := mk { bucket : string; name : string }.

#[global] Instance eq_dec : EqDecision t.
Proof. solve_decision. Defined.

#[global] Instance countable : Countable t.
Proof.
  refine (inj_countable' (fun r => (bucket r, name r))
                         (fun p => mk (fst p) (snd p)) _).
  intros []; reflexivity.
Defined.
End ObjectRef.

Inductive ImageFormat : Type := GIF | TIFF | JPEG | BMP | PNG.

#[global] Instance ImageFormat_eq_dec : EqDecision ImageFormat.
Proof. solve_decision. Defined.

(** A point in decimal degrees; either coordinate may be missing. *)
Module GeoPoint.
Record t : Type := mk { latitude_deg : option Q; longitude_deg : option Q }.
End GeoPoint.

(** Modelled from the spec: the schemas module is not part of the sources;
    the attributes are those of section 3 and of the column list used by
    [__update_image_query].  Every attribute may be missing ([None]), and a
    platform type is represented by the name of the enumeration member. *)
Module UavImageMetadata.
Record t : Type := mk {
  name : option string;
  format : option ImageFormat;
  platform_type : option string;
  notes : option string;
  camera : option string;
  session_number : option Z;
  sequence_number : option Z;
  capture_date : option Z;
  location_description : option string;
  location : GeoPoint.t;
  altitude_meters : option Q;
  gsd_cm_px : option Q
}.

(** [metadata.copy(update=dict(location=...))] *)
Definition copy_update_location (m : t) (l : GeoPoint.t) : t :=
  mk (name m) (format m) (platform_type m) (notes m) (camera m)
     (session_number m) (sequence_number m) (capture_date m)
     (location_description m) l (altitude_meters m) (gsd_cm_px m).
End UavImageMetadata.

(** Modelled from the spec: the ORM model [Image] is not part of the
    sources; it has one row per (bucket, key), a column for every metadata
    attribute, and the location split in two columns (section 6). *)
Module Image.
Record t : Type := mk {
  bucket : string;
  key : string;
  name : option string;
  format : option ImageFormat;
  platform_type : option string;
  notes : option string;
  camera : option string;
  session_number : option Z;
  sequence_number : option Z;
  capture_date : option Z;
  location_description : option string;
  location_lat : option Q;
  location_lon : option Q;
  altitude_meters : option Q;
  gsd_cm_px : option Q
}.
End Image.

(** ** The SQL expression language built by the store *)

Inductive sql_value : Type :=
| SqlNull
| SqlInt (z : Z)
| SqlFloat (q : Q)
| SqlDate (ordinal : Z)
| SqlText (s : string)
| SqlEnum (member : string).

Definition sql_of {A : Type} (inj : A -> sql_value) (o : option A) : sql_value :=
  match o with
  | Some a => inj a
  | None => SqlNull
  end.

(** The columns of [Image] that the store filters or orders on. *)
Module Col.
Inductive t : Type :=
| platform_type | name | notes | camera | session_number | sequence_number
| capture_date | location_description | altitude_meters | gsd_cm_px
| location_lat | location_lon.

#[global] Instance eq_dec : EqDecision t.
Proof. solve_decision. Defined.

Definition value (c : t) (row : Image.t) : sql_value :=
  match c with
  | platform_type => sql_of SqlEnum (Image.platform_type row)
  | name => sql_of SqlText (Image.name row)
  | notes => sql_of SqlText (Image.notes row)
  | camera => sql_of SqlText (Image.camera row)
  | session_number => sql_of SqlInt (Image.session_number row)
  | sequence_number => sql_of SqlInt (Image.sequence_number row)
  | capture_date => sql_of SqlDate (Image.capture_date row)
  | location_description => sql_of SqlText (Image.location_description row)
  | altitude_meters => sql_of SqlFloat (Image.altitude_meters row)
  | gsd_cm_px => sql_of SqlFloat (Image.gsd_cm_px row)
  | location_lat => sql_of SqlFloat (Image.location_lat row)
  | location_lon => sql_of SqlFloat (Image.location_lon row)
  end.
End Col.

(** Boolean column expressions.  The store only ever builds the first four;
    [SqlOr] and [SqlNot] are the compositions the expression language also
    offers. *)
Inductive clause : Type :=
| SqlEq (c : Col.t) (v : sql_value)
| SqlLike (c : Col.t) (pattern : string)
| SqlGe (c : Col.t) (v : sql_value)
| SqlLe (c : Col.t) (v : sql_value)
| SqlOr (a b : clause)
| SqlNot (a : clause).

Inductive order_clause : Type :=
| Asc (c : Col.t)
| Desc (c : Col.t).

(** A [Select] over the [Image] table.  [where_] and [order_by] are
    generative: each call adds to what is already there, and the criteria
    of all [where] calls are joined by AND. *)
Module Select.
Record t : Type := mk {
  whereclause : list clause;
  order_by_clauses : list order_clause;
  offset_clause : option Z;
  limit_clause : option Z
}.

Definition where_ (q : t) (cs : list clause) : t :=
  mk (whereclause q ++ cs) (order_by_clauses q) (offset_clause q) (limit_clause q).

Definition order_by (q : t) (o : order_clause) : t :=
  mk (whereclause q) (order_by_clauses q ++ [o]) (offset_clause q) (limit_clause q).

Definition offset (q : t) (n : Z) : t :=
  mk (whereclause q) (order_by_clauses q) (Some n) (limit_clause q).

Definition limit (q : t) (n : Z) : t :=
  mk (whereclause q) (order_by_clauses q) (offset_clause q) (Some n).
End Select.

(** [select(Image)] *)
Definition select_Image : Select.t := Select.mk [] [] None None.

(** ** The database engine *)

(** What the database decides.
    - [collate a b]: the characters [a] and [b] are the same under the
      collation that [LIKE] uses on a text column (for instance up to the
      case of a letter); a character is the same as itself.
    - [text_compare]: the order of two texts under the collation that
      [ORDER BY] uses; it is an order, up to the texts that it holds
      equal.
    - [nulls_first]: NULL comes before every value in ascending order
      (after every value otherwise).
    - [store_order s rows]: the order in which the rows selected by [s]
      come out before [ORDER BY] sorts them.  Rows that the ordering does
      not tell apart, and all rows when there is no ordering, stay in that
      order.  It may differ from one selection to the next, window
      included. *)
Module Engine.
Record t : Type := mk {
  collate : ascii -> ascii -> bool;
  collate_refl : forall c, collate c c = true;
  text_compare : string -> string -> comparison;
  text_compare_antisym : forall a b, text_compare b a = CompOpp (text_compare a b);
  text_compare_trans :
    forall a b c, text_compare a b = Lt -> text_compare b c = Lt -> text_compare a c = Lt;
  text_compare_eq :
    forall a b c, text_compare a b = Eq -> text_compare a c = text_compare b c;
  nulls_first : bool;
  store_order : Select.t -> list Image.t -> list Image.t;
  store_order_Permutation : forall s rows, store_order s rows ≡ₚ rows
}.
End Engine.

(** ** Evaluation of a [Select] by the engine *)

(** SQL [LIKE]: [%] matches any run of characters, [_] matches exactly one
    character, every other character matches the characters that are the
    same under the collation. *)
Fixpoint like_chars (eqc : ascii -> ascii -> bool) (p : list ascii) : list ascii -> bool :=
  match p with
  | [] => fun s => match s with [] => true | _ :: _ => false end
  | c :: p' =>
      if Ascii.eqb c "%" then
        fix star (s : list ascii) : bool :=
          like_chars eqc p' s || match s with [] => false | _ :: s' => star s' end
      else if Ascii.eqb c "_" then
        fun s => match s with [] => false | _ :: s' => like_chars eqc p' s' end
      else
        fun s => match s with [] => false | d :: s' => eqc c d && like_chars eqc p' s' end
  end.

Definition like (E : Engine.t) (pattern s : string) : bool :=
  like_chars (Engine.collate E) (list_ascii_of_string pattern) (list_ascii_of_string s).

(** Comparison of a column with a bound value; [None] is SQL's unknown
    (a NULL operand, or operands of different types). *)
Definition sql_compare (E : Engine.t) (a b : sql_value) : option comparison :=
  match a, b with
  | SqlInt x, SqlInt y => Some (x ?= y)
  | SqlFloat x, SqlFloat y => Some (x ?= y)%Q
  | SqlDate x, SqlDate y => Some (x ?= y)
  | SqlText x, SqlText y => Some (Engine.text_compare E x y)
  | SqlEnum x, SqlEnum y => Some (String.compare x y)
  | _, _ => None
  end.

Definition is_eq (c : comparison) : bool := match c with Eq => true | _ => false end.
Definition is_ge (c : comparison) : bool := match c with Lt => false | _ => true end.
Definition is_le (c : comparison) : bool := match c with Gt => false | _ => true end.

(** Three-valued truth of a clause on a row. *)
Fixpoint eval_clause (E : Engine.t) (cl : clause) (row : Image.t) : option bool :=
  match cl with
  | SqlEq c v => is_eq <$> sql_compare E (Col.value c row) v
  | SqlGe c v => is_ge <$> sql_compare E (Col.value c row) v
  | SqlLe c v => is_le <$> sql_compare E (Col.value c row) v
  | SqlLike c pattern =>
      match Col.value c row with
      | SqlText s => Some (like E pattern s)
      | _ => None
      end
  | SqlOr a b =>
      match eval_clause E a row, eval_clause E b row with
      | Some true, _ | _, Some true => Some true
      | Some false, Some false => Some false
      | _, _ => None
      end
  | SqlNot a => negb <$> eval_clause E a row
  end.

(** A clause keeps a row when it is true on it (unknown drops the row). *)
Definition holds (E : Engine.t) (cl : clause) (row : Image.t) : bool :=
  match eval_clause E cl row with
  | Some true => true
  | _ => false
  end.

(** The WHERE stage: the criteria are joined by AND. *)
Definition satisfies (E : Engine.t) (cs : list clause) (row : Image.t) : bool :=
  forallb (fun cl => holds E cl row) cs.

(** The ORDER BY stage.  The first clause is the primary key, later ones
    break ties; rows that all clauses leave tied keep the order they came
    in. *)
Definition sql_order (E : Engine.t) (a b : sql_value) : comparison :=
  match a, b with
  | SqlNull, SqlNull => Eq
  | SqlNull, _ => if Engine.nulls_first E then Lt else Gt
  | _, SqlNull => if Engine.nulls_first E then Gt else Lt
  | _, _ => default Eq (sql_compare E a b)
  end.

Definition order_key (E : Engine.t) (o : order_clause) (r1 r2 : Image.t) : comparison :=
  match o with
  | Asc c => sql_order E (Col.value c r1) (Col.value c r2)
  | Desc c => CompOpp (sql_order E (Col.value c r1) (Col.value c r2))
  end.

Fixpoint row_compare (E : Engine.t) (os : list order_clause) (r1 r2 : Image.t) : comparison :=
  match os with
  | [] => Eq
  | o :: os' =>
      match order_key E o r1 r2 with
      | Eq => row_compare E os' r1 r2
      | c => c
      end
  end.

Definition row_le (E : Engine.t) (os : list order_clause) (r1 r2 : Image.t) : Prop :=
  row_compare E os r1 r2 <> Gt.

#[global] Instance row_le_dec E os r1 r2 : Decision (row_le E os r1 r2).
Proof. unfold row_le. apply _. Defined.

Definition order_rows (E : Engine.t) (os : list order_clause) (rows : list Image.t)
  : list Image.t :=
  match os with
  | [] => rows
  | _ :: _ => merge_sort (row_le E os) rows
  end.

(** [session.execute(selection).scalars()]: filter, order, skip, limit.
    The only caller of [offset] and [limit] passes values that its request
    validation has made non-negative. *)
Definition execute (E : Engine.t) (s : Select.t) (table : list Image.t) : list Image.t :=
  let rows := List.filter (satisfies E (Select.whereclause s)) table in
  let rows := order_rows E (Select.order_by_clauses s) (Engine.store_order E s rows) in
  let rows := match Select.offset_clause s with
              | Some n => skipn (Z.to_nat n) rows
              | None => rows
              end in
  match Select.limit_clause s with
  | Some n => firstn (Z.to_nat n) rows
  | None => rows
  end.

(** ** The query model *)

(** [ImageQuery.Range]: the two bounds read by [__update_query]. *)
Module Range.
Record t (A : Type) : Type := mk { min_value : A; max_value : A }.
Arguments mk {A} _ _.
Arguments min_value {A} _.
Arguments max_value {A} _.
End Range.

(** [ImageQuery.BoundingBox]: the two corners read by
    [__update_location_query]. *)
Module BoundingBox.
Record t : Type := mk { south_west : GeoPoint.t; north_east : GeoPoint.t }.
End BoundingBox.

(** Modelled from the spec: [ImageQuery] is declared in the missing schemas
    module; its fields are those read by [__update_image_query], typed as in
    section 3 (enumerated, text, or range over an orderable attribute). *)
Module ImageQuery.
Record t : Type := mk {
  platform_type : option string;
  name : option string;
  notes : option string;
  camera : option string;
  session_numbers : option (Range.t Z);
  sequence_numbers : option (Range.t Z);
  capture_dates : option (Range.t Z);
  location_description : option string;
  altitude_meters : option (Range.t Q);
  gsd_cm_px : option (Range.t Q);
  bounding_box : option BoundingBox.t
}.

(** [ImageQuery()]: nothing specified. *)
Definition empty : t := mk None None None None None None None None None None None.
End ImageQuery.

(** [Ordering]: a field of the whitelist keyed in [_ORDER_TO_COLUMN], and a
    direction. *)
Module Ordering.
Inductive Field : Type := NAME | SESSION_NUM | SEQUENCE_NUM | CAPTURE_DATE | CAMERA.
Record t : Type := mk { field : Field; ascending : bool }.
End Ordering.

(** The run-time shape of a filter value, on which [__update_query]
    dispatches.  [PyInt] stands for the types that have no registered
    implementation. *)
Inductive py_value : Type :=
| PyNone
| PyEnum (member : string)
| PyStr (s : string)
| PyRange (min_value max_value : sql_value)
| PyInt (z : Z).

Definition py_enum (o : option string) : py_value :=
  match o with Some e => PyEnum e | None => PyNone end.

Definition py_str (o : option string) : py_value :=
  match o with Some s => PyStr s | None => PyNone end.

Definition py_range {A : Type} (inj : A -> sql_value) (o : option (Range.t A)) : py_value :=
  match o with
  | Some r => PyRange (inj (Range.min_value r)) (inj (Range.max_value r))
  | None => PyNone
  end.

(** A call to a backend can fail for a reason of the backend's own: [fault]
    is the exception it then raises ([None]: the call goes through). *)
Definition with_fault {A : Type} (fault : option exn) (k : result A) : result A :=
  match fault with
  | Some e => inl e
  | None => k
  end.

(** ** [SqlImageMetadataStore]

    The store's state is the table, the list of its rows; its session is
    connected to the engine [E]. *)

Module SqlImageMetadataStore.

(** [_ORDER_TO_COLUMN] *)
Definition _ORDER_TO_COLUMN (f : Ordering.Field) : Col.t :=
  match f with
  | Ordering.NAME => Col.name
  | Ordering.SESSION_NUM => Col.session_number
  | Ordering.SEQUENCE_NUM => Col.sequence_number
  | Ordering.CAPTURE_DATE => Col.capture_date
  | Ordering.CAMERA => Col.camera
  end.

(** [__orm_image_to_pydantic] *)
Definition __orm_image_to_pydantic (image : Image.t) : UavImageMetadata.t :=
  let metadata :=
    UavImageMetadata.mk
      (Image.name image) (Image.format image) (Image.platform_type image)
      (Image.notes image) (Image.camera image) (Image.session_number image)
      (Image.sequence_number image) (Image.capture_date image)
      (Image.location_description image) (GeoPoint.mk None None)
      (Image.altitude_meters image) (Image.gsd_cm_px image) in
  let location := GeoPoint.mk (Image.location_lat image) (Image.location_lon image) in
  UavImageMetadata.copy_update_location metadata location.

(** [__pydantic_to_orm_image] *)
Definition __pydantic_to_orm_image (object_id : ObjectRef.t) (metadata : UavImageMetadata.t)
  : Image.t :=
  let location_lat := GeoPoint.latitude_deg (UavImageMetadata.location metadata) in
  let location_lon := GeoPoint.longitude_deg (UavImageMetadata.location metadata) in
  Image.mk (ObjectRef.bucket object_id) (ObjectRef.name object_id)
    (UavImageMetadata.name metadata) (UavImageMetadata.format metadata)
    (UavImageMetadata.platform_type metadata) (UavImageMetadata.notes metadata)
    (UavImageMetadata.camera metadata) (UavImageMetadata.session_number metadata)
    (UavImageMetadata.sequence_number metadata) (UavImageMetadata.capture_date metadata)
    (UavImageMetadata.location_description metadata)
    location_lat location_lon
    (UavImageMetadata.altitude_meters metadata) (UavImageMetadata.gsd_cm_px metadata).

(** [ObjectRef(bucket=result.bucket, name=result.key)] *)
Definition object_ref (row : Image.t) : ObjectRef.t :=
  ObjectRef.mk (Image.bucket row) (Image.key row).

(** [Image.bucket == object_id.bucket, Image.key == object_id.name] *)
Definition has_id (object_id : ObjectRef.t) (row : Image.t) : bool :=
  String.eqb (Image.bucket row) (ObjectRef.bucket object_id)
  && String.eqb (Image.key row) (ObjectRef.name object_id).

(** [__get_by_id]: [scalars().one()] wants exactly one row. *)
Definition __get_by_id (table : list Image.t) (object_id : ObjectRef.t) : result Image.t :=
  match List.filter (has_id object_id) table with
  | [] => inl KeyError
  | [image] => inr image
  | _ :: _ :: _ => inl MultipleResultsFound
  end.

(** [__update_query] and its registered implementations. *)
Definition __update_query (value : py_value) (query : Select.t) (column : Col.t)
  : result Select.t :=
  match value with
  | PyNone => inr query
  | PyEnum e => inr (Select.where_ query [SqlEq column (SqlEnum e)])
  | PyStr s => inr (Select.where_ query [SqlLike column ("%" ++ s ++ "%")%string])
  | PyRange min_value max_value =>
      inr (Select.where_ query [SqlGe column min_value; SqlLe column max_value])
  | PyInt _ => inl NotImplementedError
  end.

(** [column <= value] and [column >= value] with a coordinate: the
    expression language refuses to build an inequality with [None]. *)
Definition column_le (column : Col.t) (value : option Q) : result clause :=
  match value with
  | Some q => inr (SqlLe column (SqlFloat q))
  | None => inl ArgumentError
  end.

Definition column_ge (column : Col.t) (value : option Q) : result clause :=
  match value with
  | Some q => inr (SqlGe column (SqlFloat q))
  | None => inl ArgumentError
  end.

(** [__update_location_query] *)
Definition __update_location_query (value : option BoundingBox.t) (query : Select.t)
    (lat_column lon_column : Col.t) : result Select.t :=
  match value with
  | None => inr query
  | Some box =>
      let north_east := BoundingBox.north_east box in
      let south_west := BoundingBox.south_west box in
      let* lat_le := column_le lat_column (GeoPoint.latitude_deg north_east) in
      let* lat_ge := column_ge lat_column (GeoPoint.latitude_deg south_west) in
      let* lon_le := column_le lon_column (GeoPoint.longitude_deg north_east) in
      let* lon_ge := column_ge lon_column (GeoPoint.longitude_deg south_west) in
      inr (Select.where_ query [lat_le; lat_ge; lon_le; lon_ge])
  end.

(** [_apply_query_updates]: the loop over the (value, column) pairs. *)
Fixpoint _apply_query_updates (updates : list (py_value * Col.t)) (query : Select.t)
  : result Select.t :=
  match updates with
  | [] => inr query
  | (value, column) :: rest =>
      let* query' := __update_query value query column in
      _apply_query_updates rest query'
  end.

Definition image_query_updates (value : ImageQuery.t) : list (py_value * Col.t) :=
  [ (py_enum (ImageQuery.platform_type value), Col.platform_type);
    (py_str (ImageQuery.name value), Col.name);
    (py_str (ImageQuery.notes value), Col.notes);
    (py_str (ImageQuery.camera value), Col.camera);
    (py_range SqlInt (ImageQuery.session_numbers value), Col.session_number);
    (py_range SqlInt (ImageQuery.sequence_numbers value), Col.sequence_number);
    (py_range SqlDate (ImageQuery.capture_dates value), Col.capture_date);
    (py_str (ImageQuery.location_description value), Col.location_description);
    (py_range SqlFloat (ImageQuery.altitude_meters value), Col.altitude_meters);
    (py_range SqlFloat (ImageQuery.gsd_cm_px value), Col.gsd_cm_px) ].

(** [__update_image_query] *)
Definition __update_image_query (value : ImageQuery.t) (query : Select.t) : result Select.t :=
  let* query' := _apply_query_updates (image_query_updates value) query in
  __update_location_query (ImageQuery.bounding_box value) query'
    Col.location_lat Col.location_lon.

(** [__update_query_order] *)
Definition __update_query_order (order : Ordering.t) (query : Select.t) : Select.t :=
  let column := _ORDER_TO_COLUMN (Ordering.field order) in
  let column_spec := if Ordering.ascending order then Asc column else Desc column in
  Select.order_by query column_spec.

(** Modelled from the spec: the declaration of the [Image] table is not
    part of the sources; it holds one row per (bucket, key) (section 6), so
    the database refuses the insert of a second row for a key. *)
Definition insert_row (table : list Image.t) (image : Image.t) : result (list Image.t) :=
  if existsb (has_id (object_ref image)) table then inl IntegrityError
  else inr (table ++ [image]).

(** [session.delete(orm_image)]: the row of that key goes. *)
Definition delete_row (table : list Image.t) (image : Image.t) : list Image.t :=
  List.filter (fun row => negb (has_id (object_ref image) row)) table.

(** [add] *)
Definition add (fault : option exn) (table : list Image.t)
    (object_id : ObjectRef.t) (metadata : UavImageMetadata.t) : result (list Image.t) :=
  let image := __pydantic_to_orm_image object_id metadata in
  with_fault fault (insert_row table image).

(** [get] *)
Definition get (fault : option exn) (table : list Image.t) (object_id : ObjectRef.t)
  : result UavImageMetadata.t :=
  with_fault fault
    (let* image := __get_by_id table object_id in
     inr (__orm_image_to_pydantic image)).

(** [delete] *)
Definition delete (fault : option exn) (table : list Image.t) (object_id : ObjectRef.t)
  : result (list Image.t) :=
  with_fault fault
    (let* orm_image := __get_by_id table object_id in
     inr (delete_row table orm_image)).

(** The selection [query] builds, before it sets the offset and limit. *)
Definition query_selection (q : ImageQuery.t) (orderings : list Ordering.t) : result Select.t :=
  let* selection := __update_image_query q select_Image in
  inr (fold_left (fun s order => __update_query_order order s) orderings selection).

(** [query]: the references of the selected rows, in result order. *)
Definition query (E : Engine.t) (table : list Image.t) (q : ImageQuery.t)
    (orderings : list Ordering.t) (skip_first max_num_results : Z)
  : result (list ObjectRef.t) :=
  let* selection := query_selection q orderings in
  let selection := Select.limit (Select.offset selection skip_first) max_num_results in
  let query_results := execute E selection table in
  inr (map object_ref query_results).

End SqlImageMetadataStore.

(** ** Storage backends *)

Definition bytes : Type := list Byte.byte.

(** Modelled from the spec: the object store is an external collaborator
    (section 6): [create_object(ref, data)], [get_object(ref)] (fails
    not-found) and [delete_object(ref)] (fails not-found), each atomic.
    [fault] is the error of a call that fails for another reason. *)
Module ObjectStore.

Definition create_object (fault : option exn) (store : gmap ObjectRef.t bytes)
    (object_id : ObjectRef.t) (data : bytes) : result (gmap ObjectRef.t bytes) :=
  with_fault fault (inr (<[object_id := data]> store)).

Definition get_object (fault : option exn) (store : gmap ObjectRef.t bytes)
    (object_id : ObjectRef.t) : result bytes :=
  with_fault fault
    (match store !! object_id with
     | Some data => inr data
     | None => inl KeyError
     end).

Definition delete_object (fault : option exn) (store : gmap ObjectRef.t bytes)
    (object_id : ObjectRef.t) : result (gmap ObjectRef.t bytes) :=
  with_fault fault
    (match store !! object_id with
     | Some _ => inr (delete object_id store)
     | None => inl KeyError
     end).

End ObjectStore.

(** [BackendManager]: the state of both stores. *)
Module Backends.
Record t : Type := mk {
  object_store : gmap ObjectRef.t bytes;
  metadata_store : list Image.t
}.
End Backends.

(** A store call seen from the endpoints: it either raises and leaves the
    stores as they are, or returns a value and the new stores. *)
Definition store_call (A : Type) : Type := Backends.t -> result (A * Backends.t).

Definition create_object (fault : option exn) (object_id : ObjectRef.t) (data : bytes)
  : store_call unit :=
  fun b =>
    let* store := ObjectStore.create_object fault (Backends.object_store b) object_id data in
    inr (tt, Backends.mk store (Backends.metadata_store b)).

Definition delete_object (fault : option exn) (object_id : ObjectRef.t) : store_call unit :=
  fun b =>
    let* store := ObjectStore.delete_object fault (Backends.object_store b) object_id in
    inr (tt, Backends.mk store (Backends.metadata_store b)).

Definition get_object (fault : option exn) (object_id : ObjectRef.t) : store_call bytes :=
  fun b =>
    let* data := ObjectStore.get_object fault (Backends.object_store b) object_id in
    inr (data, b).

Definition metadata_add (fault : option exn) (object_id : ObjectRef.t)
    (metadata : UavImageMetadata.t) : store_call unit :=
  fun b =>
    let* table :=
      SqlImageMetadataStore.add fault (Backends.metadata_store b) object_id metadata in
    inr (tt, Backends.mk (Backends.object_store b) table).

Definition metadata_delete (fault : option exn) (object_id : ObjectRef.t) : store_call unit :=
  fun b =>
    let* table := SqlImageMetadataStore.delete fault (Backends.metadata_store b) object_id in
    inr (tt, Backends.mk (Backends.object_store b) table).

Definition metadata_get (fault : option exn) (object_id : ObjectRef.t)
  : store_call UavImageMetadata.t :=
  fun b =>
    let* metadata := SqlImageMetadataStore.get fault (Backends.metadata_store b) object_id in
    inr (metadata, b).

(** ** The event loop

    The endpoints start their store calls as tasks and wait for them with
    [asyncio.gather].  The loop is cooperative and single-threaded: at each
    turn it either runs one pending task or resumes the endpoint.  A
    schedule is the list of these turns.  A store call is atomic (section
    4.3): a task makes its call in one turn, so the calls on a store are
    serialised; what a call raises when it cannot be made is part of the
    fault plan. *)

Inductive task_state (A : Type) : Type :=
| Pending
| Finished (r : result A)
| Cancelled.
Arguments Pending {A}.
Arguments Finished {A} r.
Arguments Cancelled {A}.

(** Running a task: a pending task makes its call; a finished or cancelled
    one is left alone. *)
Definition run_task {A : Type} (call : store_call A) (t : task_state A) (b : Backends.t)
  : task_state A * Backends.t :=
  match t with
  | Pending =>
      match call b with
      | inl e => (Finished (inl e), b)
      | inr (a, b') => (Finished (inr a), b')
      end
  | _ => (t, b)
  end.

(** [gather] propagates the first exception raised among its tasks; later
    ones are not seen by the awaiting endpoint. *)
Definition note_exception {A : Type} (seen : option exn) (t : task_state A) : option exn :=
  match seen, t with
  | None, Finished (inl e) => Some e
  | _, _ => seen
  end.

(** [task.cancel()] *)
Definition cancel {A : Type} (t : task_state A) : task_state A :=
  match t with
  | Pending => Cancelled
  | _ => t
  end.

Definition succeeded {A : Type} (t : task_state A) : option A :=
  match t with
  | Finished (inr a) => Some a
  | _ => None
  end.

(** ** Endpoints *)

(** [_thumbnail_id] *)
Definition _thumbnail_id (object_id : ObjectRef.t) : ObjectRef.t :=
  let thumbnail_name := (ObjectRef.name object_id ++ ".thumbnail")%string in
  ObjectRef.mk (ObjectRef.bucket object_id) thumbnail_name.

(** A store call made by an [except] handler, with what it raised. *)
Inductive rollback_call : Type :=
| DeleteObject (object_id : ObjectRef.t)
| DeleteMetadata (object_id : ObjectRef.t).

Definition call_log : Type := list (rollback_call * option exn).

(** *** [create_uav_image] *)

Module CreateUavImage.

Record request : Type := mk_request {
  bucket : string;                   (* from [use_bucket] *)
  unique_name : string;              (* [uuid.uuid4().hex] *)
  metadata : UavImageMetadata.t;
  image_data : bytes
}.

(** What each backend call of the endpoint raises on its own account. *)
Record faults : Type := mk_faults {
  on_create_object : option exn;
  on_add : option exn;
  on_create_thumbnail : option exn;
  on_rollback_object : option exn;
  on_rollback_thumbnail : option exn;
  on_rollback_metadata : option exn
}.

Definition no_faults : faults := mk_faults None None None None None None.

Inductive event : Type :=
| RunObjectTask
| RunMetadataTask
| RunThumbnailTask
| Resume.

(** Where the endpoint coroutine is suspended. *)
Inductive frame : Type :=
| AwaitGather
| RollbackObject (error : exn)
| RollbackThumbnail (error : exn)
| RollbackMetadata (error : exn)
| Done (r : result ObjectRef.t).

Record state : Type := mk {
  backends : Backends.t;
  object_task : task_state unit;
  metadata_task : task_state unit;
  thumbnail_task : task_state unit;
  gather_exception : option exn;
  at_ : frame;
  rollback : call_log
}.

Section Endpoint.
Variable _create_thumbnail : bytes -> bytes.
Variable req : request.
Variable f : faults.

Definition object_id : ObjectRef.t := ObjectRef.mk (bucket req) (unique_name req).
Definition thumbnail_object_id : ObjectRef.t := _thumbnail_id object_id.

(** [_create_and_save_thumbnail] *)
Definition _create_and_save_thumbnail : store_call unit :=
  let thumbnail := _create_thumbnail (image_data req) in
  create_object (on_create_thumbnail f) thumbnail_object_id thumbnail.

(** The three tasks are created; the endpoint suspends in [gather]. *)
Definition start (b : Backends.t) : state :=
  mk b Pending Pending Pending None AwaitGather [].

Definition goto (s : state) (fr : frame) : state :=
  mk (backends s) (object_task s) (metadata_task s) (thumbnail_task s)
     (gather_exception s) fr (rollback s).

(** A rollback call: on success continue at [next], otherwise the
    exception of the call leaves the endpoint. *)
Definition rollback_step (s : state) (what : rollback_call) (call : store_call unit)
    (next : frame) : state :=
  match call (backends s) with
  | inl e =>
      mk (backends s) (object_task s) (metadata_task s) (thumbnail_task s)
         (gather_exception s) (Done (inl e)) (rollback s ++ [(what, Some e)])
  | inr (_, b) =>
      mk b (object_task s) (metadata_task s) (thumbnail_task s)
         (gather_exception s) next (rollback s ++ [(what, None)])
  end.

Definition resume (s : state) : state :=
  match at_ s with
  | AwaitGather =>
      match gather_exception s with
      | Some MetadataOperationError => goto s (RollbackObject MetadataOperationError)
      | Some ObjectOperationError => goto s (RollbackMetadata ObjectOperationError)
      | Some error => goto s (Done (inl error))
      | None =>
          match succeeded (object_task s), succeeded (metadata_task s),
                succeeded (thumbnail_task s) with
          | Some _, Some _, Some _ => goto s (Done (inr object_id))
          | _, _, _ => s
          end
      end
  | RollbackObject error =>
      rollback_step s (DeleteObject object_id)
        (delete_object (on_rollback_object f) object_id) (RollbackThumbnail error)
  | RollbackThumbnail error =>
      rollback_step s (DeleteObject thumbnail_object_id)
        (delete_object (on_rollback_thumbnail f) thumbnail_object_id) (Done (inl error))
  | RollbackMetadata error =>
      rollback_step s (DeleteMetadata object_id)
        (metadata_delete (on_rollback_metadata f) object_id) (Done (inl error))
  | Done _ => s
  end.

Definition step (s : state) (ev : event) : state :=
  match ev with
  | RunObjectTask =>
      let '(t, b) := run_task (create_object (on_create_object f) object_id (image_data req))
                              (object_task s) (backends s) in
      mk b t (metadata_task s) (thumbnail_task s)
         (note_exception (gather_exception s) t) (at_ s) (rollback s)
  | RunMetadataTask =>
      let '(t, b) := run_task (metadata_add (on_add f) object_id (metadata req))
                              (metadata_task s) (backends s) in
      mk b (object_task s) t (thumbnail_task s)
         (note_exception (gather_exception s) t) (at_ s) (rollback s)
  | RunThumbnailTask =>
      let '(t, b) := run_task _create_and_save_thumbnail (thumbnail_task s) (backends s) in
      mk b (object_task s) (metadata_task s) t
         (note_exception (gather_exception s) t) (at_ s) (rollback s)
  | Resume => resume s
  end.

Definition run (schedule : list event) (s : state) : state := fold_left step schedule s.

(** [create_uav_image] under a schedule, from the given stores. *)
Definition create_uav_image (schedule : list event) (b : Backends.t) : state :=
  run schedule (start b).

End Endpoint.

(** What the caller got, once the endpoint has returned or raised. *)
Definition outcome (s : state) : option (result ObjectRef.t) :=
  match at_ s with
  | Done r => Some r
  | _ => None
  end.

(** A schedule that lets every task finish before the endpoint resumes. *)
Definition tasks_first : list event :=
  [RunObjectTask; RunMetadataTask; RunThumbnailTask; Resume; Resume; Resume].

End CreateUavImage.

(** *** [delete_image] *)

Module DeleteImage.

Record faults : Type := mk_faults {
  on_delete_object : option exn;
  on_delete_metadata : option exn
}.

Definition no_faults : faults := mk_faults None None.

Inductive event : Type :=
| RunObjectTask
| RunMetadataTask
| Resume.

Inductive frame : Type :=
| AwaitGather
| Done (r : result unit).

Record state : Type := mk {
  backends : Backends.t;
  object_task : task_state unit;
  metadata_task : task_state unit;
  gather_exception : option exn;
  at_ : frame
}.

Section Endpoint.
Variable bucket name : string.
Variable f : faults.

Definition object_id : ObjectRef.t := ObjectRef.mk bucket name.

Definition start (b : Backends.t) : state := mk b Pending Pending None AwaitGather.

Definition goto (s : state) (fr : frame) : state :=
  mk (backends s) (object_task s) (metadata_task s) (gather_exception s) fr.

Definition resume (s : state) : state :=
  match at_ s with
  | AwaitGather =>
      match gather_exception s with
      | Some KeyError => goto s (Done (inl (HTTPException 404)))
      | Some error => goto s (Done (inl error))
      | None =>
          match succeeded (object_task s), succeeded (metadata_task s) with
          | Some _, Some _ => goto s (Done (inr tt))
          | _, _ => s
          end
      end
  | Done _ => s
  end.

Definition step (s : state) (ev : event) : state :=
  match ev with
  | RunObjectTask =>
      let '(t, b) := run_task (delete_object (on_delete_object f) object_id)
                              (object_task s) (backends s) in
      mk b t (metadata_task s) (note_exception (gather_exception s) t) (at_ s)
  | RunMetadataTask =>
      let '(t, b) := run_task (metadata_delete (on_delete_metadata f) object_id)
                              (metadata_task s) (backends s) in
      mk b (object_task s) t (note_exception (gather_exception s) t) (at_ s)
  | Resume => resume s
  end.

Definition run (schedule : list event) (s : state) : state := fold_left step schedule s.

Definition delete_image (schedule : list event) (b : Backends.t) : state :=
  run schedule (start b).

End Endpoint.

Definition outcome (s : state) : option (result unit) :=
  match at_ s with
  | Done r => Some r
  | AwaitGather => None
  end.

Definition tasks_first : list event := [RunObjectTask; RunMetadataTask; Resume].

End DeleteImage.

(** *** [get_image] *)

(** [_IMAGE_FORMAT_TO_MIME_TYPES] *)
Definition _IMAGE_FORMAT_TO_MIME_TYPES (fmt : ImageFormat) : string :=
  match fmt with
  | GIF => "image/gif"
  | TIFF => "image/tiff"
  | JPEG => "image/jpeg"
  | BMP => "image/bmp"
  | PNG => "image/png"
  end.

Module StreamingResponse.
Record t : Type := mk { content : bytes; media_type : string }.
End StreamingResponse.

Module GetImage.

Record faults : Type := mk_faults {
  on_get_object : option exn;
  on_get_metadata : option exn
}.

Definition no_faults : faults := mk_faults None None.

Inductive event : Type :=
| RunObjectTask
| RunMetadataTask
| Resume.

Inductive frame : Type :=
| AwaitGather
| Done (r : result StreamingResponse.t).

Record state : Type := mk {
  backends : Backends.t;
  object_task : task_state bytes;
  metadata_task : task_state UavImageMetadata.t;
  gather_exception : option exn;
  at_ : frame
}.

Section Endpoint.
Variable bucket name : string.
Variable f : faults.

Definition object_id : ObjectRef.t := ObjectRef.mk bucket name.

Definition start (b : Backends.t) : state := mk b Pending Pending None AwaitGather.

Definition goto (s : state) (fr : frame) : state :=
  mk (backends s) (object_task s) (metadata_task s) (gather_exception s) fr.

(** The [except KeyError] handler: cancel what is pending, answer 404. *)
Definition not_found (s : state) : state :=
  mk (backends s) (cancel (object_task s)) (cancel (metadata_task s))
     (gather_exception s) (Done (inl (HTTPException 404))).

Definition resume (s : state) : state :=
  match at_ s with
  | AwaitGather =>
      match gather_exception s with
      | Some KeyError => not_found s
      | Some error => goto s (Done (inl error))
      | None =>
          match succeeded (object_task s), succeeded (metadata_task s) with
          | Some image_stream, Some metadata =>
              match UavImageMetadata.format metadata with
              | Some fmt =>
                  let mime_type := _IMAGE_FORMAT_TO_MIME_TYPES fmt in
                  goto s (Done (inr (StreamingResponse.mk image_stream mime_type)))
              | None => goto s (Done (inl KeyError))
              end
          | _, _ => s
          end
      end
  | Done _ => s
  end.

Definition step (s : state) (ev : event) : state :=
  match ev with
  | RunObjectTask =>
      let '(t, b) := run_task (get_object (on_get_object f) object_id)
                              (object_task s) (backends s) in
      mk b t (metadata_task s) (note_exception (gather_exception s) t) (at_ s)
  | RunMetadataTask =>
      let '(t, b) := run_task (metadata_get (on_get_metadata f) object_id)
                              (metadata_task s) (backends s) in
      mk b (object_task s) t (note_exception (gather_exception s) t) (at_ s)
  | Resume => resume s
  end.

Definition run (schedule : list event) (s : state) : state := fold_left step schedule s.

Definition get_image (schedule : list event) (b : Backends.t) : state :=
  run schedule (start b).

End Endpoint.

Definition outcome (s : state) : option (result StreamingResponse.t) :=
  match at_ s with
  | Done r => Some r
  | AwaitGather => None
  end.

Definition tasks_first : list event := [RunObjectTask; RunMetadataTask; Resume].

End GetImage.

(** *** [query_images] *)

Module QueryResponse.
Record t : Type := mk {
  image_ids : list ObjectRef.t;
  page_num : Z;
  is_last_page : bool
}.
End QueryResponse.

(** [results_per_page] and [page_num] are declared [Query(..., gt=0)]: the
    request is refused before the endpoint runs when either is not. *)
Definition query_images (E : Engine.t) (b : Backends.t) (query : ImageQuery.t)
    (orderings : list Ordering.t) (results_per_page page_num : Z) : result QueryResponse.t :=
  if negb (0 <? results_per_page) || negb (0 <? page_num) then inl RequestValidationError
  else
    let skip_first := (page_num - 1) * results_per_page in
    let* image_ids :=
      SqlImageMetadataStore.query E (Backends.metadata_store b) query orderings
        skip_first results_per_page in
    let is_last_page := Z.of_nat (length image_ids) <? results_per_page in
    inr (QueryResponse.mk image_ids page_num is_last_page).

(** ** The engines used in the sample runs *)

Definition lower (c : ascii) : ascii :=
  let n := nat_of_ascii c in
  if (65 <=? n)%nat && (n <=? 90)%nat then ascii_of_nat (n + 32) else c.

Definition same_letter (a b : ascii) : bool := Ascii.eqb (lower a) (lower b).

(** [String.compare] is an order. *)
Definition string_compare_trans (a b c : string) (H1 : String.compare a b = Lt)
    (H2 : String.compare b c = Lt) : String.compare a c = Lt :=
  proj2 (String_as_OT.cmp_lt a c)
    (String_as_OT.lt_trans a b c (proj1 (String_as_OT.cmp_lt a b) H1)
       (proj1 (String_as_OT.cmp_lt b c) H2)).

Definition string_compare_eq (a b c : string) (H : String.compare a b = Eq)
  : String.compare a c = String.compare b c :=
  f_equal (fun x => String.compare x c) (proj1 (String_as_OT.cmp_eq a b) H).

(** An engine whose [LIKE] ignores the case of the letters A to Z, that
    orders texts as they are written, puts NULLs first and produces rows in
    the order in which they were inserted. *)
Definition nocase_engine : Engine.t :=
  Engine.mk same_letter (fun c => Ascii.eqb_refl (lower c))
    String.compare (fun a b => String.compare_antisym b a)
    string_compare_trans string_compare_eq
    true
    (fun _ rows => rows) (fun _ rows => Permutation_refl rows).

(** An engine with an exact collation, that puts NULLs last and produces
    rows last inserted first. *)
Definition exact_engine : Engine.t :=
  Engine.mk Ascii.eqb Ascii.eqb_refl
    String.compare (fun a b => String.compare_antisym b a)
    string_compare_trans string_compare_eq
    false
    (fun _ rows => rev rows) (fun _ rows => Permutation_sym (Permutation_rev rows)).

(** ** The clauses a filter value stands for

    The four kinds of predicate of section 4.2, chosen by the shape of a
    filter value, and the clauses of each kind. *)

Inductive predicate_kind : Type :=
| NoPredicate
| Equality (member : string)
| Substring (text : string)
| InclusiveRange (min_value max_value : sql_value).

Definition predicate_kind_of (value : py_value) : option predicate_kind :=
  match value with
  | PyNone => Some NoPredicate
  | PyEnum e => Some (Equality e)
  | PyStr s => Some (Substring s)
  | PyRange lo hi => Some (InclusiveRange lo hi)
  | PyInt _ => None
  end.

Definition predicate_clauses (k : predicate_kind) (column : Col.t) : list clause :=
  match k with
  | NoPredicate => []
  | Equality e => [SqlEq column (SqlEnum e)]
  | Substring s => [SqlLike column ("%" ++ s ++ "%")%string]
  | InclusiveRange lo hi => [SqlGe column lo; SqlLe column hi]
  end.

(** The clauses of one (value, column) pair. *)
Definition field_clauses (u : py_value * Col.t) : list clause :=
  match predicate_kind_of (fst u) with
  | Some k => predicate_clauses k (snd u)
  | None => []
  end.

(** A clause that is a single comparison: no OR, no NOT. *)
Definition atomic (cl : clause) : Prop :=
  match cl with
  | SqlEq _ _ | SqlLike _ _ | SqlGe _ _ | SqlLe _ _ => True
  | SqlOr _ _ | SqlNot _ => False
  end.

(** ** The query model as the specification words it

    Sections 3 and 4.2.  The theorems compare these definitions with what
    the store does. *)

(** The kind of predicate the filter of a field calls for, by the shape of
    its value. *)
Definition exact_filter (value : option string) : predicate_kind :=
  match value with
  | None => NoPredicate
  | Some member => Equality member
  end.

Definition text_filter (value : option string) : predicate_kind :=
  match value with
  | None => NoPredicate
  | Some text => Substring text
  end.

Definition range_filter {A : Type} (inj : A -> sql_value) (value : option (Range.t A))
  : predicate_kind :=
  match value with
  | None => NoPredicate
  | Some r => InclusiveRange (inj (Range.min_value r)) (inj (Range.max_value r))
  end.

(** The ten filterable fields of a query, each with the predicate its value
    calls for and the column of the attribute it is about. *)
Definition field_predicates (q : ImageQuery.t) : list (predicate_kind * Col.t) :=
  [ (exact_filter (ImageQuery.platform_type q), Col.platform_type);
    (text_filter (ImageQuery.name q), Col.name);
    (text_filter (ImageQuery.notes q), Col.notes);
    (text_filter (ImageQuery.camera q), Col.camera);
    (range_filter SqlInt (ImageQuery.session_numbers q), Col.session_number);
    (range_filter SqlInt (ImageQuery.sequence_numbers q), Col.sequence_number);
    (range_filter SqlDate (ImageQuery.capture_dates q), Col.capture_date);
    (text_filter (ImageQuery.location_description q), Col.location_description);
    (range_filter SqlFloat (ImageQuery.altitude_meters q), Col.altitude_meters);
    (range_filter SqlFloat (ImageQuery.gsd_cm_px q), Col.gsd_cm_px) ].

(** What follows is written on the attributes of the records: it knows
    nothing of the columns of the store or of the clauses it builds, and of
    the engine only its [LIKE] and its order of two values. *)

(** What a filter requires of the attribute of a record.  An absent filter
    requires nothing; a record without the attribute fails every other
    one. *)
Definition equal_to (value attribute : option string) : bool :=
  match value, attribute with
  | None, _ => true
  | Some member, Some a => String.eqb a member
  | Some _, None => false
  end.

Definition contains (E : Engine.t) (value attribute : option string) : bool :=
  match value, attribute with
  | None, _ => true
  | Some text, Some a => like E ("%" ++ text ++ "%")%string a
  | Some _, None => false
  end.

Definition between {A : Type} (leb : A -> A -> bool) (value : option (Range.t A))
    (attribute : option A) : bool :=
  match value, attribute with
  | None, _ => true
  | Some r, Some a => leb (Range.min_value r) a && leb a (Range.max_value r)
  | Some _, None => false
  end.

(** The record meets the filter of every field. *)
Definition fields_match (E : Engine.t) (q : ImageQuery.t) (row : Image.t) : bool :=
  equal_to (ImageQuery.platform_type q) (Image.platform_type row)
  && contains E (ImageQuery.name q) (Image.name row)
  && contains E (ImageQuery.notes q) (Image.notes row)
  && contains E (ImageQuery.camera q) (Image.camera row)
  && between Z.leb (ImageQuery.session_numbers q) (Image.session_number row)
  && between Z.leb (ImageQuery.sequence_numbers q) (Image.sequence_number row)
  && between Z.leb (ImageQuery.capture_dates q) (Image.capture_date row)
  && contains E (ImageQuery.location_description q) (Image.location_description row)
  && between Qle_bool (ImageQuery.altitude_meters q) (Image.altitude_meters row)
  && between Qle_bool (ImageQuery.gsd_cm_px q) (Image.gsd_cm_px row).

(** A bounding box whose corners have both their coordinates. *)
Definition complete (p : GeoPoint.t) : Prop :=
  GeoPoint.latitude_deg p <> None /\ GeoPoint.longitude_deg p <> None.

Definition complete_box (value : option BoundingBox.t) : Prop :=
  match value with
  | None => True
  | Some box => complete (BoundingBox.south_west box) /\ complete (BoundingBox.north_east box)
  end.

(** The record is located, and [south_west <= location <= north_east] on
    both axes, bounds included.  No box requires nothing. *)
Definition within_box (value : option BoundingBox.t) (row : Image.t) : bool :=
  match value with
  | None => true
  | Some box =>
      match GeoPoint.latitude_deg (BoundingBox.south_west box),
            GeoPoint.longitude_deg (BoundingBox.south_west box),
            GeoPoint.latitude_deg (BoundingBox.north_east box),
            GeoPoint.longitude_deg (BoundingBox.north_east box),
            Image.location_lat row, Image.location_lon row with
      | Some sw_lat, Some sw_lon, Some ne_lat, Some ne_lon, Some lat, Some lon =>
          Qle_bool sw_lat lat && Qle_bool lat ne_lat
          && Qle_bool sw_lon lon && Qle_bool lon ne_lon
      | _, _, _, _, _, _ => false
      end
  end.

(** The records a query asks for. *)
Definition query_matches (E : Engine.t) (q : ImageQuery.t) (row : Image.t) : bool :=
  fields_match E q row && within_box (ImageQuery.bounding_box q) row.

(** The attribute an ordering sorts on. *)
Definition ordering_value (field : Ordering.Field) (row : Image.t) : sql_value :=
  match field with
  | Ordering.NAME => sql_of SqlText (Image.name row)
  | Ordering.SESSION_NUM => sql_of SqlInt (Image.session_number row)
  | Ordering.SEQUENCE_NUM => sql_of SqlInt (Image.sequence_number row)
  | Ordering.CAPTURE_DATE => sql_of SqlDate (Image.capture_date row)
  | Ordering.CAMERA => sql_of SqlText (Image.camera row)
  end.

(** The lexicographic sort of section 3: [r1] may come before [r2] when,
    at the first ordering whose attribute tells them apart, [r1] has the
    smaller one if the ordering is ascending and the larger one if it is
    not.  Which of two attributes is the smaller is the engine's matter. *)
Fixpoint in_order (E : Engine.t) (orderings : list Ordering.t) (r1 r2 : Image.t) : Prop :=
  match orderings with
  | [] => True
  | order :: rest =>
      match sql_order E (ordering_value (Ordering.field order) r1)
                        (ordering_value (Ordering.field order) r2) with
      | Eq => in_order E rest r1 r2
      | Lt => Ordering.ascending order = true
      | Gt => Ordering.ascending order = false
      end
  end.

(** A comparison that orders: it is antisymmetric and transitive, and what
    it holds equal compares alike. *)
Record orders {A : Type} (cmp : A -> A -> comparison) : Prop := mk_orders {
  orders_antisym : forall x y, cmp y x = CompOpp (cmp x y);
  orders_trans : forall x y z, cmp x y = Lt -> cmp y z = Lt -> cmp x z = Lt;
  orders_eq : forall x y z, cmp x y = Eq -> cmp x z = cmp y z
}.

(** The orderings leave no tie among [rows]: two rows that may come in
    either order are the same row. *)
Definition no_tie (E : Engine.t) (orderings : list Ordering.t) (rows : list Image.t) : Prop :=
  forall r1 r2,
    In r1 rows -> In r2 rows ->
    in_order E orderings r1 r2 -> in_order E orderings r2 r1 -> r1 = r2.

(** [value] occurs in [text] as it is written. *)
Definition is_substring (value text : string) : Prop :=
  exists before after, text = (before ++ value ++ after)%string.



(** The clauses contributed by the bounding box alone. *)
Definition location_clauses (value : option BoundingBox.t) : list clause :=
  match SqlImageMetadataStore.__update_location_query value select_Image
          Col.location_lat Col.location_lon with
  | inr selection => Select.whereclause selection
  | inl _ => []
  end.

(** The ORDER BY clause an ordering stands for. *)
Definition order_clause_of (order : Ordering.t) : order_clause :=
  let column := SqlImageMetadataStore._ORDER_TO_COLUMN (Ordering.field order) in
  if Ordering.ascending order then Asc column else Desc column.

(** ** Sample data *)

Definition sample_metadata (name : string) : UavImageMetadata.t :=
  UavImageMetadata.mk (Some name) (Some JPEG) (Some "aerial") (Some "") (Some "camera")
    (Some 1) (Some 2) (Some 738000) None
    (GeoPoint.mk (Some (337 # 10)%Q) (Some (- (834 # 10))%Q)) (Some (30 # 1)%Q) None.

Definition sample_row (key name : string) : Image.t :=
  SqlImageMetadataStore.__pydantic_to_orm_image (ObjectRef.mk "images" key)
    (sample_metadata name).

Definition name_query (value : string) : ImageQuery.t :=
  ImageQuery.mk None (Some value) None None None None None None None None None.

(** ** Readings of the orchestration contract (section 4.1) *)

Definition failed {A : Type} (t : task_state A) : Prop := exists e, t = Finished (inl e).

(** The rollback of [create_uav_image] as its contract words it: a failed
    metadata add has both objects deleted, a failed object write has the
    metadata record deleted, and the caller gets the original error. *)
Definition rollback_as_stated (req : CreateUavImage.request) (s : CreateUavImage.state) : Prop :=
  (CreateUavImage.metadata_task s = Finished (inl MetadataOperationError) ->
     map fst (CreateUavImage.rollback s)
     = [DeleteObject (CreateUavImage.object_id req);
        DeleteObject (CreateUavImage.thumbnail_object_id req)]
     /\ CreateUavImage.outcome s = Some (inl MetadataOperationError))
  /\ (CreateUavImage.object_task s = Finished (inl ObjectOperationError)
      \/ CreateUavImage.thumbnail_task s = Finished (inl ObjectOperationError) ->
      map fst (CreateUavImage.rollback s) = [DeleteMetadata (CreateUavImage.object_id req)]
      /\ CreateUavImage.outcome s = Some (inl ObjectOperationError)).

(** What the handlers do when the first failure is [error], where [log]
    is the list of their calls with what each raised and [r] is what the
    caller gets. *)
Definition rollback_of (req : CreateUavImage.request) (error : exn) (log : call_log)
    (r : result ObjectRef.t) : Prop :=
  let object_id := CreateUavImage.object_id req in
  let thumbnail_object_id := CreateUavImage.thumbnail_object_id req in
  match error with
  | MetadataOperationError =>
      (log = [(DeleteObject object_id, None); (DeleteObject thumbnail_object_id, None)]
       /\ r = inl error)
      \/ (exists e, log = [(DeleteObject object_id, Some e)] /\ r = inl e)
      \/ (exists e, log = [(DeleteObject object_id, None);
                           (DeleteObject thumbnail_object_id, Some e)] /\ r = inl e)
  | ObjectOperationError =>
      (log = [(DeleteMetadata object_id, None)] /\ r = inl error)
      \/ (exists e, log = [(DeleteMetadata object_id, Some e)] /\ r = inl e)
  | _ => log = [] /\ r = inl error
  end.

(** ** What holds at every turn of [create_uav_image] *)

(** The handler frames, and the answer, agree with the exception [gather]
    raised and with the calls logged so far. *)
Definition create_frame_ok (req : CreateUavImage.request) (s : CreateUavImage.state) : Prop :=
  match CreateUavImage.at_ s with
  | CreateUavImage.AwaitGather => CreateUavImage.rollback s = []
  | CreateUavImage.RollbackObject error =>
      error = MetadataOperationError
      /\ CreateUavImage.gather_exception s = Some error
      /\ CreateUavImage.rollback s = []
  | CreateUavImage.RollbackThumbnail error =>
      error = MetadataOperationError
      /\ CreateUavImage.gather_exception s = Some error
      /\ CreateUavImage.rollback s = [(DeleteObject (CreateUavImage.object_id req), None)]
  | CreateUavImage.RollbackMetadata error =>
      error = ObjectOperationError
      /\ CreateUavImage.gather_exception s = Some error
      /\ CreateUavImage.rollback s = []
  | CreateUavImage.Done r =>
      match CreateUavImage.gather_exception s with
      | Some error => rollback_of req error (CreateUavImage.rollback s) r
      | None =>
          r = inr (CreateUavImage.object_id req)
          /\ CreateUavImage.rollback s = []
          /\ CreateUavImage.object_task s = Finished (inr tt)
          /\ CreateUavImage.metadata_task s = Finished (inr tt)
          /\ CreateUavImage.thumbnail_task s = Finished (inr tt)
      end
  end.

(** The exception of [gather] is the failure of one of its tasks, and
    there is one as soon as a task has failed. *)
Definition create_gather_ok (s : CreateUavImage.state) : Prop :=
  match CreateUavImage.gather_exception s with
  | Some e =>
      CreateUavImage.object_task s = Finished (inl e)
      \/ CreateUavImage.metadata_task s = Finished (inl e)
      \/ CreateUavImage.thumbnail_task s = Finished (inl e)
  | None =>
      ~ failed (CreateUavImage.object_task s)
      /\ ~ failed (CreateUavImage.metadata_task s)
      /\ ~ failed (CreateUavImage.thumbnail_task s)
  end.

(** ** Sample runs *)

Definition sample_thumbnailer (image : bytes) : bytes := firstn 2 image.

Definition sample_request : CreateUavImage.request :=
  CreateUavImage.mk_request "images" "0f3a" (sample_metadata "field")
    [Byte.x89; Byte.x50; Byte.x4e; Byte.x47].

Definition sample_id : ObjectRef.t := CreateUavImage.object_id sample_request.

Definition empty_backends : Backends.t := Backends.mk ∅ [].

(** The metadata add and the main object write both fail; every task has
    finished when the endpoint resumes. *)
Definition create_two_failures : CreateUavImage.state :=
  CreateUavImage.create_uav_image sample_thumbnailer sample_request
    (CreateUavImage.mk_faults (Some ObjectOperationError) (Some MetadataOperationError)
       None None None None)
    CreateUavImage.tasks_first empty_backends.

(** Only the thumbnail write fails, after the two other tasks succeeded. *)
Definition create_thumbnail_failure : CreateUavImage.state :=
  CreateUavImage.create_uav_image sample_thumbnailer sample_request
    (CreateUavImage.mk_faults None None (Some ObjectOperationError) None None None)
    CreateUavImage.tasks_first empty_backends.

(** A create without failure. *)
Definition create_success : CreateUavImage.state :=
  CreateUavImage.create_uav_image sample_thumbnailer sample_request
    CreateUavImage.no_faults CreateUavImage.tasks_first empty_backends.

(** How many more times [create_uav_image] can be resumed before it has
    answered, once its tasks have all finished. *)
Definition create_resumes_left (fr : CreateUavImage.frame) : nat :=
  match fr with
  | CreateUavImage.AwaitGather => 3
  | CreateUavImage.RollbackObject _ => 2
  | CreateUavImage.RollbackThumbnail _ => 1
  | CreateUavImage.RollbackMetadata _ => 1
  | CreateUavImage.Done _ => 0
  end.

Definition finished {A : Type} (t : task_state A) : Prop := exists r, t = Finished r.

Definition create_all_finished (s : CreateUavImage.state) : Prop :=
  finished (CreateUavImage.object_task s)
  /\ finished (CreateUavImage.metadata_task s)
  /\ finished (CreateUavImage.thumbnail_task s).

Definition create_not_cancelled (s : CreateUavImage.state) : Prop :=
  CreateUavImage.object_task s <> Cancelled
  /\ CreateUavImage.metadata_task s <> Cancelled
  /\ CreateUavImage.thumbnail_task s <> Cancelled.

(** One of the three sub-operations of the create has raised [e]. *)
Definition create_task_raised (s : CreateUavImage.state) (e : exn) : Prop :=
  CreateUavImage.object_task s = Finished (inl e)
  \/ CreateUavImage.metadata_task s = Finished (inl e)
  \/ CreateUavImage.thumbnail_task s = Finished (inl e).

(** Nothing has failed yet among the sub-operations of the create. *)
Definition create_none_failed (s : CreateUavImage.state) : Prop :=
  ~ failed (CreateUavImage.object_task s)
  /\ ~ failed (CreateUavImage.metadata_task s)
  /\ ~ failed (CreateUavImage.thumbnail_task s).

(** [error] is the first failure of the run of [schedule]: nothing has
    failed when the turns [before] have been taken, and the turn that
    follows, [ev], ends with a sub-operation that has raised [error]. *)
Definition create_first_failure (_create_thumbnail : bytes -> bytes)
    (req : CreateUavImage.request) (f : CreateUavImage.faults) (b : Backends.t)
    (schedule : list CreateUavImage.event) (error : exn) : Prop :=
  exists before ev after,
    schedule = before ++ ev :: after
    /\ create_none_failed
         (CreateUavImage.create_uav_image _create_thumbnail req f before b)
    /\ create_task_raised
         (CreateUavImage.create_uav_image _create_thumbnail req f (before ++ [ev]) b) error.

(** ** What holds at every turn of [delete_image] *)

Definition delete_task_raised (s : DeleteImage.state) (e : exn) : Prop :=
  DeleteImage.object_task s = Finished (inl e)
  \/ DeleteImage.metadata_task s = Finished (inl e).

Definition delete_none_failed (s : DeleteImage.state) : Prop :=
  ~ failed (DeleteImage.object_task s) /\ ~ failed (DeleteImage.metadata_task s).

(** [error] is the first failure of the run of [schedule]. *)
Definition delete_first_failure (bucket name : string) (f : DeleteImage.faults)
    (b : Backends.t) (schedule : list DeleteImage.event) (error : exn) : Prop :=
  exists before ev after,
    schedule = before ++ ev :: after
    /\ delete_none_failed (DeleteImage.delete_image bucket name f before b)
    /\ delete_task_raised (DeleteImage.delete_image bucket name f (before ++ [ev]) b) error.

(** The deletion as its contract words it: not-found on either side makes
    the whole call fail not-found. *)
Definition delete_as_stated (s : DeleteImage.state) : Prop :=
  delete_task_raised s KeyError ->
  DeleteImage.outcome s = Some (inl (HTTPException 404)).

Definition delete_frame_ok (s : DeleteImage.state) : Prop :=
  match DeleteImage.at_ s with
  | DeleteImage.AwaitGather => True
  | DeleteImage.Done r =>
      match DeleteImage.gather_exception s with
      | Some KeyError => r = inl (HTTPException 404)
      | Some error => r = inl error
      | None =>
          r = inr tt
          /\ DeleteImage.object_task s = Finished (inr tt)
          /\ DeleteImage.metadata_task s = Finished (inr tt)
      end
  end.

Definition delete_gather_ok (s : DeleteImage.state) : Prop :=
  match DeleteImage.gather_exception s with
  | Some e => delete_task_raised s e
  | None => ~ failed (DeleteImage.object_task s) /\ ~ failed (DeleteImage.metadata_task s)
  end.

(** Each task is the one store call it makes, on the store it is about:
    the two stores do not interfere. *)
Definition delete_stores_ok (object_id : ObjectRef.t) (f : DeleteImage.faults)
    (b : Backends.t) (s : DeleteImage.state) : Prop :=
  match DeleteImage.object_task s with
  | Pending => Backends.object_store (DeleteImage.backends s) = Backends.object_store b
  | Finished (inl e) =>
      Backends.object_store (DeleteImage.backends s) = Backends.object_store b
      /\ ObjectStore.delete_object (DeleteImage.on_delete_object f)
           (Backends.object_store b) object_id = inl e
  | Finished (inr _) =>
      ObjectStore.delete_object (DeleteImage.on_delete_object f)
        (Backends.object_store b) object_id
      = inr (Backends.object_store (DeleteImage.backends s))
  | Cancelled => False
  end
  /\ match DeleteImage.metadata_task s with
     | Pending => Backends.metadata_store (DeleteImage.backends s) = Backends.metadata_store b
     | Finished (inl e) =>
         Backends.metadata_store (DeleteImage.backends s) = Backends.metadata_store b
         /\ SqlImageMetadataStore.delete (DeleteImage.on_delete_metadata f)
              (Backends.metadata_store b) object_id = inl e
     | Finished (inr _) =>
         SqlImageMetadataStore.delete (DeleteImage.on_delete_metadata f)
           (Backends.metadata_store b) object_id
         = inr (Backends.metadata_store (DeleteImage.backends s))
     | Cancelled => False
     end.

(** The object exists but its metadata record does not, and the object
    store fails on the deletion before the metadata store reports
    not-found. *)
Definition delete_store_error_first : DeleteImage.state :=
  DeleteImage.delete_image "images" "0f3a"
    (DeleteImage.mk_faults (Some ObjectOperationError) None)
    DeleteImage.tasks_first
    (Backends.mk {[ sample_id := [Byte.x89] ]} []).

(** The object exists but its metadata record does not: the object is
    deleted and the caller is told the image could not be found. *)
Definition delete_half_present : DeleteImage.state :=
  DeleteImage.delete_image "images" "0f3a" DeleteImage.no_faults DeleteImage.tasks_first
    (Backends.mk {[ sample_id := [Byte.x89] ]} []).

(** ** What holds at every turn of [get_image] *)

Definition get_task_raised (s : GetImage.state) (e : exn) : Prop :=
  GetImage.object_task s = Finished (inl e)
  \/ GetImage.metadata_task s = Finished (inl e).

Definition nothing_pending (s : GetImage.state) : Prop :=
  GetImage.object_task s <> Pending /\ GetImage.metadata_task s <> Pending.






(** What the endpoint returns from the stream and the metadata. *)
Definition streaming_response (image_stream : bytes) (metadata : UavImageMetadata.t)
  : result StreamingResponse.t :=
  match UavImageMetadata.format metadata with
  | Some fmt => inr (StreamingResponse.mk image_stream (_IMAGE_FORMAT_TO_MIME_TYPES fmt))
  | None => inl KeyError
  end.

Definition get_frame_ok (s : GetImage.state) : Prop :=
  match GetImage.at_ s with
  | GetImage.AwaitGather => True
  | GetImage.Done r =>
      match GetImage.gather_exception s with
      | Some KeyError => r = inl (HTTPException 404) /\ nothing_pending s
      | Some error => r = inl error
      | None =>
          exists image_stream metadata,
            GetImage.object_task s = Finished (inr image_stream)
            /\ GetImage.metadata_task s = Finished (inr metadata)
            /\ r = streaming_response image_stream metadata
      end
  end.

Definition get_gather_ok (s : GetImage.state) : Prop :=
  match GetImage.gather_exception s with
  | Some e => get_task_raised s e
  | None => ~ failed (GetImage.object_task s) /\ ~ failed (GetImage.metadata_task s)
  end.

(** Reads leave the stores alone, and what a task returned is what its
    store holds. *)
Definition get_stores_ok (object_id : ObjectRef.t) (f : GetImage.faults)
    (b : Backends.t) (s : GetImage.state) : Prop :=
  GetImage.backends s = b
  /\ (forall r, GetImage.object_task s = Finished r ->
        ObjectStore.get_object (GetImage.on_get_object f) (Backends.object_store b) object_id
        = r)
  /\ (forall r, GetImage.metadata_task s = Finished r ->
        SqlImageMetadataStore.get (GetImage.on_get_metadata f) (Backends.metadata_store b)
          object_id = r).



(** A successful create followed by a successful delete of the image. *)
Definition delete_after_create : DeleteImage.state :=
  DeleteImage.delete_image "images" "0f3a" DeleteImage.no_faults DeleteImage.tasks_first
    (CreateUavImage.backends create_success).

(** What a task of a create has stored is there as long as no rollback
    call has deleted it. *)
Definition create_stores_ok (_create_thumbnail : bytes -> bytes)
    (req : CreateUavImage.request) (s : CreateUavImage.state) : Prop :=
  let object_id := CreateUavImage.object_id req in
  let thumbnail_object_id := CreateUavImage.thumbnail_object_id req in
  let log := CreateUavImage.rollback s in
  (~ In (DeleteObject object_id, None) log ->
   CreateUavImage.object_task s = Finished (inr tt) ->
   Backends.object_store (CreateUavImage.backends s) !! object_id
   = Some (CreateUavImage.image_data req))
  /\ (~ In (DeleteObject thumbnail_object_id, None) log ->
      CreateUavImage.thumbnail_task s = Finished (inr tt) ->
      Backends.object_store (CreateUavImage.backends s) !! thumbnail_object_id
      = Some (_create_thumbnail (CreateUavImage.image_data req)))
  /\ (~ In (DeleteMetadata object_id, None) log ->
      CreateUavImage.metadata_task s = Finished (inr tt) ->
      SqlImageMetadataStore.get None (Backends.metadata_store (CreateUavImage.backends s))
        object_id
      = inr (CreateUavImage.metadata req)).

(** Four records, and a query for those inside a box around them. *)
Definition sample_table : list Image.t :=
  [sample_row "a" "north field"; sample_row "b" "south field";
   sample_row "c" "orchard"; sample_row "d" "pond"].

Definition sample_box : BoundingBox.t :=
  BoundingBox.mk (GeoPoint.mk (Some (30 # 1)%Q) (Some (- (90 # 1))%Q))
                 (GeoPoint.mk (Some (40 # 1)%Q) (Some (- (80 # 1))%Q)).

Definition box_query : ImageQuery.t :=
  ImageQuery.mk None None None None None None None None None None (Some sample_box).


(** ** Further endpoints *)

(** [get_thumbnail]: one read of the object store, under the derived
    reference. *)
Definition get_thumbnail (fault : option exn) (bucket name : string) (b : Backends.t)
  : result StreamingResponse.t :=
  let object_id := ObjectRef.mk bucket name in
  let thumbnail_object_id := _thumbnail_id object_id in
  match get_object fault thumbnail_object_id b with
  | inl KeyError => inl (HTTPException 404)
  | inl error => inl error
  | inr (image_stream, _) => inr (StreamingResponse.mk image_stream "image/jpeg")
  end.

(** [get_image_metadata]: one read of the metadata store. *)
Definition get_image_metadata (fault : option exn) (bucket name : string) (b : Backends.t)
  : result UavImageMetadata.t :=
  let object_id := ObjectRef.mk bucket name in
  match metadata_get fault object_id b with
  | inl KeyError => inl (HTTPException 404)
  | inl error => inl error
  | inr (metadata, _) => inr metadata
  end.

(** Modelled from the spec: the buckets of the object store (section 6,
    [bucket_exists(bucket)] and [create_bucket(bucket)]); the store is not
    part of the sources.  Its state here is the set of bucket names. *)
Module Buckets.

Definition bucket_exists (fault : option exn) (buckets : gset string) (bucket_name : string)
  : result bool :=
  with_fault fault (inr (bool_decide (bucket_name ∈ buckets))).

Definition create_bucket (fault : option exn) (buckets : gset string) (bucket_name : string)
  : result (gset string) :=
  with_fault fault (inr ({[bucket_name]} ∪ buckets)).

End Buckets.

(** [use_bucket]; [today] is [date.today().isoformat()]. *)
Definition use_bucket (exists_fault create_fault : option exn) (today : string)
    (buckets : gset string) : result (string * gset string) :=
  let bucket_name := (today ++ "-images")%string in
  let* found := Buckets.bucket_exists exists_fault buckets bucket_name in
  if negb found then
    let* buckets' := Buckets.create_bucket create_fault buckets bucket_name in
    inr (bucket_name, buckets')
  else inr (bucket_name, buckets).

(** ** Pages of a query, one after the other *)

(** The references of pages 1 to [n] of [query_images], concatenated. *)
Fixpoint pages_upto (E : Engine.t) (b : Backends.t) (query : ImageQuery.t)
    (orderings : list Ordering.t) (results_per_page : Z) (n : nat)
  : result (list ObjectRef.t) :=
  match n with
  | O => inr []
  | S k =>
      let* before := pages_upto E b query orderings results_per_page k in
      let* page := query_images E b query orderings results_per_page (Z.of_nat (S k)) in
      inr (before ++ QueryResponse.image_ids page)
  end.

(** A filter value of a type [__update_query] has no implementation for. *)
Definition unregistered (u : py_value * Col.t) : Prop := exists z, fst u = PyInt z.

(** Queries with a single filter. *)
Definition session_query (min_value max_value : Z) : ImageQuery.t :=
  ImageQuery.mk None None None None (Some (Range.mk min_value max_value))
    None None None None None None.

(** ** What a create does to the stores *)

(** The entries of other references are as in the stores [b] the create
    started from. *)
Definition create_others_ok (b : Backends.t) (req : CreateUavImage.request)
    (s : CreateUavImage.state) : Prop :=
  (forall other,
     other <> CreateUavImage.object_id req ->
     other <> CreateUavImage.thumbnail_object_id req ->
     Backends.object_store (CreateUavImage.backends s) !! other
     = Backends.object_store b !! other)
  /\ (forall other,
        other <> CreateUavImage.object_id req ->
        SqlImageMetadataStore.__get_by_id
          (Backends.metadata_store (CreateUavImage.backends s)) other
        = SqlImageMetadataStore.__get_by_id (Backends.metadata_store b) other).

(** Neither store knows the reference of the create yet. *)
Definition create_fresh (req : CreateUavImage.request) (b : Backends.t) : Prop :=
  Backends.object_store b !! CreateUavImage.object_id req = None
  /\ Backends.object_store b !! CreateUavImage.thumbnail_object_id req = None
  /\ List.filter (SqlImageMetadataStore.has_id (CreateUavImage.object_id req))
       (Backends.metadata_store b) = [].

(** For a fresh reference: an entry is there only if its task wrote it and
    no rollback call has deleted it, and a rollback call can only have
    deleted what a task had written. *)
Definition create_written_ok (req : CreateUavImage.request) (s : CreateUavImage.state)
  : Prop :=
  let object_id := CreateUavImage.object_id req in
  let thumbnail_object_id := CreateUavImage.thumbnail_object_id req in
  let log := CreateUavImage.rollback s in
  let stored := Backends.object_store (CreateUavImage.backends s) in
  let table := Backends.metadata_store (CreateUavImage.backends s) in
  (CreateUavImage.object_task s <> Finished (inr tt) \/ In (DeleteObject object_id, None) log ->
   stored !! object_id = None)
  /\ (In (DeleteObject object_id, None) log ->
      CreateUavImage.object_task s = Finished (inr tt))
  /\ (CreateUavImage.thumbnail_task s <> Finished (inr tt)
      \/ In (DeleteObject thumbnail_object_id, None) log ->
      stored !! thumbnail_object_id = None)
  /\ (In (DeleteObject thumbnail_object_id, None) log ->
      CreateUavImage.thumbnail_task s = Finished (inr tt))
  /\ (CreateUavImage.metadata_task s <> Finished (inr tt)
      \/ In (DeleteMetadata object_id, None) log ->
      List.filter (SqlImageMetadataStore.has_id object_id) table = [])
  /\ (In (DeleteMetadata object_id, None) log ->
      CreateUavImage.metadata_task s = Finished (inr tt)).

(** Only the metadata add fails, after the two object writes succeeded. *)
Definition create_metadata_failure : CreateUavImage.state :=
  CreateUavImage.create_uav_image sample_thumbnailer sample_request
    (CreateUavImage.mk_faults None (Some MetadataOperationError) None None None None)
    [CreateUavImage.RunObjectTask; CreateUavImage.RunThumbnailTask;
     CreateUavImage.RunMetadataTask; CreateUavImage.Resume; CreateUavImage.Resume;
     CreateUavImage.Resume]
    empty_backends.

(** ** Further sample data *)

Definition other_id : ObjectRef.t := ObjectRef.mk "images" "b".

Definition sample_backends : Backends.t := Backends.mk ∅ sample_table.
(** * Properties *)

(** ** The metadata store *)

Lemma filter_nil_of_existsb {A : Type} (p : A -> bool) (l : list A) :
  existsb p l = false -> List.filter p l = [].
Proof.
  induction l as [|x l IH]; simpl; [reflexivity|].
  destruct (p x); simpl; [discriminate | exact IH].
Qed.

Lemma has_id_pydantic_to_orm_image object_id metadata :
  SqlImageMetadataStore.has_id object_id
    (SqlImageMetadataStore.__pydantic_to_orm_image object_id metadata) = true.
Proof.
  unfold SqlImageMetadataStore.has_id; simpl.
  now rewrite !String.eqb_refl.
Qed.

Lemma orm_image_round_trip object_id metadata :
  SqlImageMetadataStore.__orm_image_to_pydantic
    (SqlImageMetadataStore.__pydantic_to_orm_image object_id metadata) = metadata.
Proof. destruct metadata as [? ? ? ? ? ? ? ? ? [lat lon] ? ?]; reflexivity. Qed.

Lemma object_ref_pydantic_to_orm_image object_id metadata :
  SqlImageMetadataStore.object_ref
    (SqlImageMetadataStore.__pydantic_to_orm_image object_id metadata) = object_id.
Proof. now destruct object_id. Qed.

Lemma has_id_object_ref object_id row :
  SqlImageMetadataStore.has_id object_id row = true ->
  SqlImageMetadataStore.object_ref row = object_id.
Proof.
  unfold SqlImageMetadataStore.has_id, SqlImageMetadataStore.object_ref.
  rewrite andb_true_iff, !String.eqb_eq. intros [-> ->]. now destruct object_id.
Qed.

Lemma get_by_id_object_ref table object_id image :
  SqlImageMetadataStore.__get_by_id table object_id = inr image ->
  SqlImageMetadataStore.object_ref image = object_id.
Proof.
  unfold SqlImageMetadataStore.__get_by_id.
  destruct (List.filter _ table) as [|row [|? ?]] eqn:Hf; try discriminate.
  intros [= <-]. apply has_id_object_ref.
  assert (In row (List.filter (SqlImageMetadataStore.has_id object_id) table)) as Hin
    by (rewrite Hf; now left).
  now apply List.filter_In in Hin.
Qed.

Lemma add_inv fault table object_id metadata table' :
  SqlImageMetadataStore.add fault table object_id metadata = inr table' ->
  fault = None
  /\ existsb (SqlImageMetadataStore.has_id object_id) table = false
  /\ table' = table ++ [SqlImageMetadataStore.__pydantic_to_orm_image object_id metadata].
Proof.
  unfold SqlImageMetadataStore.add, SqlImageMetadataStore.insert_row, with_fault.
  rewrite object_ref_pydantic_to_orm_image.
  destruct fault; [discriminate|].
  destruct (existsb _ table); [discriminate|].
  intros [= <-]; auto.
Qed.

Lemma get_by_id_after_add fault table object_id metadata table' :
  SqlImageMetadataStore.add fault table object_id metadata = inr table' ->
  SqlImageMetadataStore.__get_by_id table' object_id
  = inr (SqlImageMetadataStore.__pydantic_to_orm_image object_id metadata).
Proof.
  intros H; apply add_inv in H as (_ & Hfresh & ->).
  unfold SqlImageMetadataStore.__get_by_id.
  rewrite List.filter_app, (filter_nil_of_existsb _ _ Hfresh); simpl.
  now rewrite has_id_pydantic_to_orm_image.
Qed.

Lemma get_returns_added fault table object_id m table' :
  SqlImageMetadataStore.add fault table object_id m = inr table' ->
  SqlImageMetadataStore.get None table' object_id = inr m.
Proof.
  intros Hadd. unfold SqlImageMetadataStore.get, with_fault.
  rewrite (get_by_id_after_add _ _ _ _ _ Hadd); simpl.
  now rewrite orm_image_round_trip.
Qed.

(** C9.  Round trip at the store boundary: once [add] has stored the
    metadata [m] under [object_id], [get] of that reference returns [m],
    and the location of the returned record is the one put together from
    the row's latitude and longitude columns. *)
Theorem get_after_add fault table object_id m table' :
  SqlImageMetadataStore.add fault table object_id m = inr table' ->
  SqlImageMetadataStore.get None table' object_id = inr m
  /\ exists image,
       SqlImageMetadataStore.__get_by_id table' object_id = inr image
       /\ UavImageMetadata.location m
          = GeoPoint.mk (Image.location_lat image) (Image.location_lon image).
Proof.
  intros Hadd. split; [now apply (get_returns_added fault table)|].
  eexists; split; [exact (get_by_id_after_add _ _ _ _ _ Hadd)|].
  simpl. now destruct (UavImageMetadata.location m).
Qed.

(** ** Comparisons *)

Lemma string_compare_refl s : String.compare s s = Eq.
Proof.
  pose proof (String.compare_antisym s s) as H.
  destruct (String.compare s s); simpl in H; congruence.
Qed.

Lemma is_eq_string_compare a b : is_eq (String.compare a b) = String.eqb a b.
Proof.
  destruct (String.eqb a b) eqn:Hab.
  - apply String.eqb_eq in Hab as ->. now rewrite string_compare_refl.
  - destruct (String.compare a b) eqn:Hc; try reflexivity.
    apply String.compare_eq_iff in Hc. subst. now rewrite String.eqb_refl in Hab.
Qed.

Lemma is_le_Zcompare a b : is_le (a ?= b) = (a <=? b).
Proof. reflexivity. Qed.

Lemma is_ge_Zcompare a b : is_ge (a ?= b) = (b <=? a).
Proof.
  unfold Z.leb. rewrite (Z.compare_antisym a b). now destruct (a ?= b).
Qed.

Lemma is_le_Qcompare a b : is_le (a ?= b)%Q = Qle_bool a b.
Proof.
  destruct (Qle_bool a b) eqn:Hab.
  - apply Qle_bool_iff in Hab. rewrite Qle_alt in Hab.
    destruct (a ?= b)%Q; simpl; congruence.
  - destruct (a ?= b)%Q eqn:Hc; simpl; try reflexivity; exfalso;
      assert (a <= b)%Q as Hle by (rewrite Qle_alt, Hc; discriminate);
      apply Qle_bool_iff in Hle; congruence.
Qed.

Lemma is_ge_Qcompare a b : is_ge (a ?= b)%Q = Qle_bool b a.
Proof.
  rewrite <- is_le_Qcompare, <- (Qcompare_antisym a b). now destruct (a ?= b)%Q.
Qed.

(** ** What the clauses of each kind require of a row *)

Lemma satisfies_app E cs1 cs2 row :
  satisfies E (cs1 ++ cs2) row = satisfies E cs1 row && satisfies E cs2 row.
Proof. apply forallb_app. Qed.

Lemma satisfies_exact_filter E c value row attribute :
  Col.value c row = sql_of SqlEnum attribute ->
  satisfies E (predicate_clauses (exact_filter value) c) row = equal_to value attribute.
Proof.
  intros Hc. destruct value as [member|]; simpl; [|reflexivity].
  unfold holds; simpl. rewrite Hc, andb_true_r.
  destruct attribute as [a|]; simpl; [|reflexivity].
  rewrite <- is_eq_string_compare. now destruct (String.compare a member).
Qed.

Lemma satisfies_text_filter E c value row attribute :
  Col.value c row = sql_of SqlText attribute ->
  satisfies E (predicate_clauses (text_filter value) c) row = contains E value attribute.
Proof.
  intros Hc. destruct value as [text|]; simpl; [|reflexivity].
  unfold holds; simpl. rewrite Hc, andb_true_r.
  destruct attribute as [a|]; simpl; [|reflexivity].
  now destruct (like E _ a).
Qed.

Lemma satisfies_range_int E c (value : option (Range.t Z)) row attribute :
  Col.value c row = sql_of SqlInt attribute ->
  satisfies E (predicate_clauses (range_filter SqlInt value) c) row
  = between Z.leb value attribute.
Proof.
  intros Hc. destruct value as [[lo hi]|]; simpl; [|reflexivity].
  unfold holds; simpl. rewrite Hc, andb_true_r.
  destruct attribute as [a|]; simpl; [|reflexivity].
  rewrite is_ge_Zcompare, is_le_Zcompare.
  now destruct (lo <=? a), (a <=? hi).
Qed.

Lemma satisfies_range_date E c (value : option (Range.t Z)) row attribute :
  Col.value c row = sql_of SqlDate attribute ->
  satisfies E (predicate_clauses (range_filter SqlDate value) c) row
  = between Z.leb value attribute.
Proof.
  intros Hc. destruct value as [[lo hi]|]; simpl; [|reflexivity].
  unfold holds; simpl. rewrite Hc, andb_true_r.
  destruct attribute as [a|]; simpl; [|reflexivity].
  rewrite is_ge_Zcompare, is_le_Zcompare.
  now destruct (lo <=? a), (a <=? hi).
Qed.

Lemma satisfies_range_float E c (value : option (Range.t Q)) row attribute :
  Col.value c row = sql_of SqlFloat attribute ->
  satisfies E (predicate_clauses (range_filter SqlFloat value) c) row
  = between Qle_bool value attribute.
Proof.
  intros Hc. destruct value as [[lo hi]|]; simpl; [|reflexivity].
  unfold holds; simpl. rewrite Hc, andb_true_r.
  destruct attribute as [a|]; simpl; [|reflexivity].
  rewrite is_ge_Qcompare, is_le_Qcompare.
  now destruct (Qle_bool lo a), (Qle_bool a hi).
Qed.

(** A row passes the clauses of the ten field predicates exactly when its
    attributes meet the ten filters. *)
Lemma satisfies_field_predicates E q row :
  satisfies E (flat_map (fun f => predicate_clauses (fst f) (snd f)) (field_predicates q)) row
  = fields_match E q row.
Proof.
  unfold field_predicates, fields_match. cbn [flat_map fst snd].
  rewrite !satisfies_app.
  rewrite (satisfies_exact_filter E Col.platform_type _ row (Image.platform_type row) eq_refl).
  rewrite (satisfies_text_filter E Col.name _ row (Image.name row) eq_refl).
  rewrite (satisfies_text_filter E Col.notes _ row (Image.notes row) eq_refl).
  rewrite (satisfies_text_filter E Col.camera _ row (Image.camera row) eq_refl).
  rewrite (satisfies_range_int E Col.session_number _ row (Image.session_number row) eq_refl).
  rewrite (satisfies_range_int E Col.sequence_number _ row (Image.sequence_number row)
             eq_refl).
  rewrite (satisfies_range_date E Col.capture_date _ row (Image.capture_date row) eq_refl).
  rewrite (satisfies_text_filter E Col.location_description _ row
             (Image.location_description row) eq_refl).
  rewrite (satisfies_range_float E Col.altitude_meters _ row (Image.altitude_meters row)
             eq_refl).
  rewrite (satisfies_range_float E Col.gsd_cm_px _ row (Image.gsd_cm_px row) eq_refl).
  simpl. now rewrite andb_true_r, !andb_assoc.
Qed.

Lemma atomic_predicate_clauses k c : Forall atomic (predicate_clauses k c).
Proof. destruct k; simpl; repeat constructor. Qed.

Lemma atomic_field_predicates q :
  Forall atomic (flat_map (fun f => predicate_clauses (fst f) (snd f)) (field_predicates q)).
Proof.
  generalize (field_predicates q). intros fs.
  induction fs as [|f fs IH]; simpl; [constructor|].
  apply Forall_app; split; [apply atomic_predicate_clauses | exact IH].
Qed.

(** ** Query translation *)

Lemma update_query_clauses value query column k :
  predicate_kind_of value = Some k ->
  SqlImageMetadataStore.__update_query value query column
  = inr (Select.where_ query (predicate_clauses k column)).
Proof.
  destruct value; simpl; intros [= <-]; try reflexivity.
  unfold Select.where_; simpl. now rewrite app_nil_r; destruct query.
Qed.

Lemma apply_query_updates_clauses updates query :
  Forall (fun u => predicate_kind_of (fst u) <> None) updates ->
  SqlImageMetadataStore._apply_query_updates updates query
  = inr (Select.where_ query (flat_map field_clauses updates)).
Proof.
  intros H; revert query; induction H as [|[value column] us Hu _ IH]; intros query; simpl.
  - unfold Select.where_; simpl. now rewrite app_nil_r; destruct query.
  - simpl in Hu. unfold field_clauses at 1; simpl.
    destruct (predicate_kind_of value) as [k|] eqn:Hk; [|congruence].
    rewrite (update_query_clauses _ _ _ _ Hk); simpl. rewrite IH.
    unfold Select.where_; simpl. now rewrite <- app_assoc.
Qed.

Lemma image_query_updates_kinds q :
  Forall (fun u => predicate_kind_of (fst u) <> None)
         (SqlImageMetadataStore.image_query_updates q).
Proof.
  unfold SqlImageMetadataStore.image_query_updates.
  repeat constructor; simpl;
    match goal with
    | |- predicate_kind_of (?inj ?x) <> None => destruct x; discriminate
    | |- predicate_kind_of (py_range ?inj ?x) <> None => destruct x; discriminate
    end.
Qed.

Lemma field_clauses_enum value c :
  field_clauses (py_enum value, c) = predicate_clauses (exact_filter value) c.
Proof. now destruct value. Qed.

Lemma field_clauses_str value c :
  field_clauses (py_str value, c) = predicate_clauses (text_filter value) c.
Proof. now destruct value. Qed.

Lemma field_clauses_range {A : Type} (inj : A -> sql_value) value c :
  field_clauses (py_range inj value, c) = predicate_clauses (range_filter inj value) c.
Proof. now destruct value. Qed.

(** The clauses of the values the store lists are those of the ten field
    predicates. *)
Lemma image_query_updates_clauses q :
  flat_map field_clauses (SqlImageMetadataStore.image_query_updates q)
  = flat_map (fun f => predicate_clauses (fst f) (snd f)) (field_predicates q).
Proof.
  unfold SqlImageMetadataStore.image_query_updates, field_predicates.
  cbn [flat_map fst snd].
  now rewrite !field_clauses_enum, !field_clauses_str, !field_clauses_range.
Qed.

Lemma where_nil query : Select.where_ query [] = query.
Proof. destruct query; unfold Select.where_; simpl. now rewrite app_nil_r. Qed.

Lemma whereclause_where query cs :
  Select.whereclause (Select.where_ query cs) = Select.whereclause query ++ cs.
Proof. reflexivity. Qed.

Lemma where_where query cs1 cs2 :
  Select.where_ (Select.where_ query cs1) cs2 = Select.where_ query (cs1 ++ cs2).
Proof. unfold Select.where_; simpl. now rewrite app_assoc. Qed.

Lemma complete_box_dec value : complete_box value \/ ~ complete_box value.
Proof.
  destruct value as [[[a b] [c d]]|]; simpl; [|now left].
  unfold complete; simpl.
  destruct a, b, c, d; try (left; repeat split; discriminate);
    right; intros [[? ?] [? ?]]; congruence.
Qed.

Lemma update_location_query_complete value query :
  complete_box value ->
  SqlImageMetadataStore.__update_location_query value query Col.location_lat Col.location_lon
  = inr (Select.where_ query (location_clauses value)).
Proof.
  destruct value as [[[a b] [c d]]|]; unfold location_clauses; simpl.
  - unfold complete; simpl. intros [[Ha Hb] [Hc Hd]].
    destruct a, b, c, d; try congruence. reflexivity.
  - intros _. now rewrite where_nil.
Qed.

Lemma update_location_query_incomplete value query :
  ~ complete_box value ->
  SqlImageMetadataStore.__update_location_query value query Col.location_lat Col.location_lon
  = inl ArgumentError.
Proof.
  destruct value as [[[a b] [c d]]|]; simpl; [|tauto].
  unfold complete; simpl. intros H.
  destruct c; [|reflexivity]. destruct a; [|reflexivity].
  destruct d; [|reflexivity]. destruct b; [|reflexivity].
  exfalso. apply H. repeat split; discriminate.
Qed.

Lemma atomic_location_clauses value : Forall atomic (location_clauses value).
Proof.
  destruct value as [[[a b] [c d]]|]; unfold location_clauses; simpl; [|constructor].
  destruct c; [|constructor]. destruct a; [|constructor].
  destruct d; [|constructor]. destruct b; [|constructor].
  simpl. repeat constructor.
Qed.

(** A row passes the clauses of a complete box exactly when it is located
    within it, bounds included. *)
Lemma satisfies_location_clauses E value row :
  complete_box value ->
  satisfies E (location_clauses value) row = within_box value row.
Proof.
  destruct value as [[[a b] [c d]]|]; unfold location_clauses; simpl; [|reflexivity].
  unfold complete; simpl. intros [[Ha Hb] [Hc Hd]].
  destruct a as [sw_lat|], b as [sw_lon|], c as [ne_lat|], d as [ne_lon|]; try congruence.
  simpl. unfold holds; simpl.
  destruct (Image.location_lat row) as [lat|], (Image.location_lon row) as [lon|]; simpl;
    try reflexivity.
  - rewrite !is_le_Qcompare, !is_ge_Qcompare.
    now destruct (Qle_bool lat ne_lat), (Qle_bool sw_lat lat), (Qle_bool lon ne_lon),
      (Qle_bool sw_lon lon).
  - now destruct (is_le (lat ?= ne_lat)%Q), (is_ge (lat ?= sw_lat)%Q).
Qed.

Lemma update_image_query_clauses q query :
  complete_box (ImageQuery.bounding_box q) ->
  SqlImageMetadataStore.__update_image_query q query
  = inr (Select.where_ query
           (flat_map (fun f => predicate_clauses (fst f) (snd f)) (field_predicates q)
            ++ location_clauses (ImageQuery.bounding_box q))).
Proof.
  intros Hbox. unfold SqlImageMetadataStore.__update_image_query.
  rewrite (apply_query_updates_clauses _ _ (image_query_updates_kinds q)). unfold bind.
  rewrite (update_location_query_complete _ _ Hbox), where_where.
  now rewrite image_query_updates_clauses.
Qed.

Lemma update_image_query_incomplete q query :
  ~ complete_box (ImageQuery.bounding_box q) ->
  SqlImageMetadataStore.__update_image_query q query = inl ArgumentError.
Proof.
  intros Hbox. unfold SqlImageMetadataStore.__update_image_query.
  rewrite (apply_query_updates_clauses _ _ (image_query_updates_kinds q)). unfold bind.
  now apply update_location_query_incomplete.
Qed.

(** C3.  For every [ImageQuery], each of the ten metadata fields gets the
    predicate that the shape of its filter value calls for, on its own
    column: nothing for an absent value, an equality for an enumerated
    value, a [LIKE] with a wildcard on both sides for a text, the two
    inclusive bounds for a range.  The loop over the fields never fails and
    adds exactly the clauses of these ten predicates; each is a plain
    comparison, and a row passes them if and only if its attributes meet the
    ten filters.  The translation of the whole query then adds the clauses
    of the bounding box: with a box that lacks no coordinate (or no box) it
    returns, and a row passes the query if and only if it passed the query
    as it was, meets the filter of every field and lies within the box, the
    predicates being joined by AND only; with a box that lacks a coordinate
    it raises. *)
Theorem update_image_query_predicates (E : Engine.t) (q : ImageQuery.t) (query : Select.t) :
  let fields :=
    flat_map (fun f => predicate_clauses (fst f) (snd f)) (field_predicates q) in
  SqlImageMetadataStore._apply_query_updates (SqlImageMetadataStore.image_query_updates q)
    query
  = inr (Select.where_ query fields)
  /\ Forall atomic fields
  /\ (forall row, satisfies E fields row = fields_match E q row)
  /\ (complete_box (ImageQuery.bounding_box q) ->
      exists location,
        SqlImageMetadataStore.__update_image_query q query
        = inr (Select.where_ query (fields ++ location))
        /\ Forall atomic location
        /\ forall row,
             satisfies E (Select.whereclause (Select.where_ query (fields ++ location))) row
             = true
             <-> satisfies E (Select.whereclause query) row = true
                 /\ fields_match E q row = true
                 /\ within_box (ImageQuery.bounding_box q) row = true)
  /\ (~ complete_box (ImageQuery.bounding_box q) ->
      SqlImageMetadataStore.__update_image_query q query = inl ArgumentError).
Proof.
  intros fields. split; [|split; [|split; [|split]]].
  - rewrite (apply_query_updates_clauses _ _ (image_query_updates_kinds q)).
    now rewrite image_query_updates_clauses.
  - apply atomic_field_predicates.
  - intros row. apply satisfies_field_predicates.
  - intros Hbox. exists (location_clauses (ImageQuery.bounding_box q)).
    split; [now apply update_image_query_clauses|].
    split; [apply atomic_location_clauses|].
    intros row. rewrite whereclause_where, !satisfies_app, !andb_true_iff.
    unfold fields. rewrite satisfies_field_predicates.
    now rewrite (satisfies_location_clauses E _ row Hbox).
  - apply update_image_query_incomplete.
Qed.

(** ** Orderings *)

Lemma sql_order_antisym E a b : sql_order E b a = CompOpp (sql_order E a b).
Proof.
  destruct a, b; simpl; try reflexivity;
    try (now destruct (Engine.nulls_first E)).
  - apply Z.compare_antisym.
  - symmetry; apply Qcompare_antisym.
  - apply Z.compare_antisym.
  - apply Engine.text_compare_antisym.
  - apply String.compare_antisym.
Qed.

Lemma order_key_antisym E o r1 r2 : order_key E o r2 r1 = CompOpp (order_key E o r1 r2).
Proof. destruct o; simpl; now rewrite sql_order_antisym. Qed.

Lemma row_compare_antisym E os r1 r2 :
  row_compare E os r2 r1 = CompOpp (row_compare E os r1 r2).
Proof.
  induction os as [|o os IH]; simpl; [reflexivity|].
  rewrite (order_key_antisym E o r1 r2).
  destruct (order_key E o r1 r2); simpl; auto.
Qed.

Lemma row_le_total E os : Total (row_le E os).
Proof.
  intros r1 r2. unfold row_le. rewrite (row_compare_antisym E os r1 r2).
  destruct (row_compare E os r1 r2); simpl; [left | left | right]; discriminate.
Qed.

Lemma ordering_value_column field row :
  Col.value (SqlImageMetadataStore._ORDER_TO_COLUMN field) row = ordering_value field row.
Proof. now destruct field. Qed.

(** The comparison the ORDER BY clauses of the orderings make is the
    lexicographic one of the orderings. *)
Lemma row_le_in_order E orderings r1 r2 :
  row_le E (map order_clause_of orderings) r1 r2 <-> in_order E orderings r1 r2.
Proof.
  unfold row_le. induction orderings as [|[field ascending] os IH]; simpl.
  - split; [auto | discriminate].
  - unfold order_clause_of; simpl. destruct ascending; simpl;
      rewrite !ordering_value_column;
      destruct (sql_order E (ordering_value field r1) (ordering_value field r2)); simpl;
      try exact IH; split; congruence.
Qed.

(** *** Comparisons that order *)

Lemma orders_eq_r {A : Type} (cmp : A -> A -> comparison) x y z :
  orders cmp -> cmp y z = Eq -> cmp x y = cmp x z.
Proof.
  intros H Hyz.
  rewrite (orders_antisym cmp H y x), (orders_eq cmp H y z x Hyz).
  now rewrite (orders_antisym cmp H z x).
Qed.

Lemma orders_gt_trans {A : Type} (cmp : A -> A -> comparison) x y z :
  orders cmp -> cmp x y = Gt -> cmp y z = Gt -> cmp x z = Gt.
Proof.
  intros H Hxy Hyz.
  assert (cmp y x = Lt) as Hyx by (rewrite (orders_antisym cmp H x y), Hxy; reflexivity).
  assert (cmp z y = Lt) as Hzy by (rewrite (orders_antisym cmp H y z), Hyz; reflexivity).
  rewrite (orders_antisym cmp H z x), (orders_trans cmp H z y x Hzy Hyx). reflexivity.
Qed.

Lemma orders_le_trans {A : Type} (cmp : A -> A -> comparison) x y z :
  orders cmp -> cmp x y <> Gt -> cmp y z <> Gt -> cmp x z <> Gt.
Proof.
  intros H Hxy Hyz.
  destruct (cmp x y) eqn:H1; [| |congruence].
  - now rewrite (orders_eq cmp H x y z H1).
  - destruct (cmp y z) eqn:H2; [| |congruence].
    + rewrite <- (orders_eq_r cmp x y z H H2), H1. discriminate.
    + rewrite (orders_trans cmp H x y z H1 H2). discriminate.
Qed.

Lemma orders_opp {A : Type} (cmp : A -> A -> comparison) :
  orders cmp -> orders (fun x y => CompOpp (cmp x y)).
Proof.
  intros H. constructor.
  - intros x y. now rewrite (orders_antisym cmp H x y).
  - intros x y z Hxy Hyz.
    apply (f_equal CompOpp) in Hxy, Hyz. rewrite CompOpp_involutive in Hxy, Hyz.
    simpl in Hxy, Hyz. now rewrite (orders_gt_trans cmp x y z H Hxy Hyz).
  - intros x y z Hxy.
    apply (f_equal CompOpp) in Hxy. rewrite CompOpp_involutive in Hxy. simpl in Hxy.
    now rewrite (orders_eq cmp H x y z Hxy).
Qed.

Lemma orders_lex {A : Type} (cmp1 cmp2 : A -> A -> comparison) :
  orders cmp1 -> orders cmp2 ->
  orders (fun x y => match cmp1 x y with Eq => cmp2 x y | Lt => Lt | Gt => Gt end).
Proof.
  intros H1 H2. constructor.
  - intros x y. rewrite (orders_antisym cmp1 H1 x y).
    destruct (cmp1 x y); simpl; auto. apply (orders_antisym cmp2 H2).
  - intros x y z.
    destruct (cmp1 x y) eqn:Hxy, (cmp1 y z) eqn:Hyz; try discriminate.
    + rewrite (orders_eq cmp1 H1 x y z Hxy), Hyz. apply (orders_trans cmp2 H2).
    + rewrite (orders_eq cmp1 H1 x y z Hxy), Hyz. auto.
    + rewrite <- (orders_eq_r cmp1 x y z H1 Hyz), Hxy. auto.
    + rewrite (orders_trans cmp1 H1 x y z Hxy Hyz). auto.
  - intros x y z.
    destruct (cmp1 x y) eqn:Hxy; try discriminate.
    rewrite (orders_eq cmp1 H1 x y z Hxy).
    destruct (cmp1 y z); auto. apply (orders_eq cmp2 H2).
Qed.

Lemma orders_on {A B : Type} (f : B -> A) (cmp : A -> A -> comparison) :
  orders cmp -> orders (fun x y => cmp (f x) (f y)).
Proof.
  intros H. constructor.
  - intros x y. apply (orders_antisym cmp H).
  - intros x y z. apply (orders_trans cmp H).
  - intros x y z. apply (orders_eq cmp H).
Qed.

Lemma orders_tied {A : Type} : orders (fun _ _ : A => Eq).
Proof. constructor; auto. Qed.

Lemma orders_Zcompare : orders Z.compare.
Proof.
  constructor.
  - intros x y. apply Z.compare_antisym.
  - intros x y z. rewrite !Z.compare_lt_iff. lia.
  - intros x y z Hxy. apply Z.compare_eq_iff in Hxy. now subst.
Qed.

Lemma orders_text_compare E : orders (Engine.text_compare E).
Proof.
  constructor;
    [apply Engine.text_compare_antisym | apply Engine.text_compare_trans
     | apply Engine.text_compare_eq].
Qed.

(** The order of an attribute that may be missing: the engine places NULL
    before, or after, every value. *)
Lemma orders_sql_of E {A : Type} (inj : A -> sql_value) (cmp : A -> A -> comparison) :
  (forall a, sql_order E SqlNull (inj a) = if Engine.nulls_first E then Lt else Gt) ->
  (forall a, sql_order E (inj a) SqlNull = if Engine.nulls_first E then Gt else Lt) ->
  (forall a b, sql_order E (inj a) (inj b) = cmp a b) ->
  orders cmp ->
  orders (fun o1 o2 => sql_order E (sql_of inj o1) (sql_of inj o2)).
Proof.
  intros Hl Hr Hc H. constructor.
  - intros x y. apply sql_order_antisym.
  - intros [x|] [y|] [z|]; cbn [sql_of]; rewrite ?Hl, ?Hr, ?Hc;
      try change (sql_order E SqlNull SqlNull) with Eq;
      try (destruct (Engine.nulls_first E); congruence).
    apply (orders_trans cmp H).
  - intros [x|] [y|] [z|]; cbn [sql_of]; rewrite ?Hl, ?Hr, ?Hc;
      try change (sql_order E SqlNull SqlNull) with Eq;
      try (destruct (Engine.nulls_first E); congruence).
    apply (orders_eq cmp H).
Qed.

Lemma orders_text_value E :
  orders (fun o1 o2 => sql_order E (sql_of SqlText o1) (sql_of SqlText o2)).
Proof.
  apply (orders_sql_of E SqlText (Engine.text_compare E)); try reflexivity.
  apply orders_text_compare.
Qed.

Lemma orders_int_value E :
  orders (fun o1 o2 => sql_order E (sql_of SqlInt o1) (sql_of SqlInt o2)).
Proof.
  apply (orders_sql_of E SqlInt Z.compare); try reflexivity. apply orders_Zcompare.
Qed.

Lemma orders_date_value E :
  orders (fun o1 o2 => sql_order E (sql_of SqlDate o1) (sql_of SqlDate o2)).
Proof.
  apply (orders_sql_of E SqlDate Z.compare); try reflexivity. apply orders_Zcompare.
Qed.

Lemma orders_ordering_value E field :
  orders (fun r1 r2 =>
            sql_order E (ordering_value field r1) (ordering_value field r2)).
Proof.
  destruct field; unfold ordering_value.
  - exact (orders_on Image.name _ (orders_text_value E)).
  - exact (orders_on Image.session_number _ (orders_int_value E)).
  - exact (orders_on Image.sequence_number _ (orders_int_value E)).
  - exact (orders_on Image.capture_date _ (orders_date_value E)).
  - exact (orders_on Image.camera _ (orders_text_value E)).
Qed.

Lemma order_key_clause_of E order r1 r2 :
  order_key E (order_clause_of order) r1 r2
  = let c := sql_order E (ordering_value (Ordering.field order) r1)
                         (ordering_value (Ordering.field order) r2) in
    if Ordering.ascending order then c else CompOpp c.
Proof.
  destruct order as [field ascending]. unfold order_clause_of; simpl.
  destruct ascending; simpl; now rewrite !ordering_value_column.
Qed.

Lemma orders_row_compare E orderings :
  orders (row_compare E (map order_clause_of orderings)).
Proof.
  induction orderings as [|order os IH]; [apply orders_tied|].
  pose proof (orders_ordering_value E (Ordering.field order)) as Hv.
  assert (Hk : orders (order_key E (order_clause_of order))).
  { destruct (Ordering.ascending order) eqn:Hasc.
    - constructor; intros x y; try intros z; rewrite !order_key_clause_of, Hasc; simpl;
        [apply (orders_antisym _ Hv) | apply (orders_trans _ Hv) | apply (orders_eq _ Hv)].
    - pose proof (orders_opp _ Hv) as Ho.
      constructor; intros x y; try intros z; rewrite !order_key_clause_of, Hasc; simpl;
        [apply (orders_antisym _ Ho) | apply (orders_trans _ Ho) | apply (orders_eq _ Ho)]. }
  pose proof (orders_lex _ _ Hk IH) as Hl.
  constructor; intros x y; try intros z; simpl;
    [apply (orders_antisym _ Hl) | apply (orders_trans _ Hl) | apply (orders_eq _ Hl)].
Qed.

(** The lexicographic order of the orderings is transitive. *)
Lemma in_order_trans E orderings : Transitive (in_order E orderings).
Proof.
  intros r1 r2 r3. rewrite <- !row_le_in_order. unfold row_le.
  apply (orders_le_trans _ _ _ _ (orders_row_compare E orderings)).
Qed.

Lemma Sorted_weaken {A : Type} (R R' : A -> A -> Prop) (l : list A) :
  (forall x y, R x y -> R' x y) -> Sorted R l -> Sorted R' l.
Proof.
  intros HR. induction 1 as [|x l _ IH Hd]; constructor; [exact IH|].
  destruct Hd; constructor; auto.
Qed.

Lemma Sorted_always {A : Type} (R : A -> A -> Prop) (l : list A) :
  (forall x y, R x y) -> Sorted R l.
Proof.
  intros HR. induction l as [|x l IH]; constructor; [exact IH|].
  destruct l; constructor; auto.
Qed.

Lemma order_rows_Permutation E os rows : order_rows E os rows ≡ₚ rows.
Proof. destruct os; simpl; [reflexivity | apply merge_sort_Permutation]. Qed.

Lemma order_rows_Sorted E orderings rows :
  Sorted (in_order E orderings) (order_rows E (map order_clause_of orderings) rows).
Proof.
  destruct orderings as [|o os].
  - apply Sorted_always. intros; exact I.
  - apply (Sorted_weaken (row_le E (map order_clause_of (o :: os)))).
    + intros x y. apply row_le_in_order.
    + cbn [map order_rows]. apply (@Sorted_merge_sort _ _ _ (row_le_total _ _)).
Qed.

(** ** Execution *)

Lemma filter_length_le {A : Type} (p : A -> bool) (l : list A) :
  (length (List.filter p l) <= length l)%nat.
Proof. induction l as [|x l IH]; simpl; [lia|]. destruct (p x); simpl; lia. Qed.

Lemma filter_ext_in {A : Type} (p q : A -> bool) (l : list A) :
  (forall x, In x l -> p x = q x) -> List.filter p l = List.filter q l.
Proof.
  induction l as [|x l IH]; intros H; simpl; [reflexivity|].
  rewrite (H x (or_introl eq_refl)), IH; [reflexivity|].
  intros y Hy. apply H. now right.
Qed.

Lemma fold_update_query_order orderings selection :
  let s := fold_left (fun s order => SqlImageMetadataStore.__update_query_order order s)
                     orderings selection in
  Select.whereclause s = Select.whereclause selection
  /\ Select.order_by_clauses s
     = Select.order_by_clauses selection ++ map order_clause_of orderings
  /\ Select.offset_clause s = Select.offset_clause selection
  /\ Select.limit_clause s = Select.limit_clause selection.
Proof.
  revert selection; induction orderings as [|o os IH]; intros selection; simpl.
  - now rewrite app_nil_r.
  - destruct (IH (SqlImageMetadataStore.__update_query_order o selection))
      as (-> & -> & -> & ->).
    simpl. now rewrite <- app_assoc.
Qed.

Lemma query_selection_ok q orderings :
  complete_box (ImageQuery.bounding_box q) ->
  exists selection,
    SqlImageMetadataStore.query_selection q orderings = inr selection
    /\ Select.whereclause selection
       = flat_map (fun f => predicate_clauses (fst f) (snd f)) (field_predicates q)
         ++ location_clauses (ImageQuery.bounding_box q)
    /\ Select.order_by_clauses selection = map order_clause_of orderings.
Proof.
  intros Hbox. unfold SqlImageMetadataStore.query_selection.
  rewrite (update_image_query_clauses _ _ Hbox).
  eexists; split; [reflexivity|].
  match goal with
  | |- context [fold_left ?f ?os ?s] =>
      destruct (fold_update_query_order os s) as (-> & -> & _)
  end.
  auto.
Qed.

Lemma query_selection_incomplete q orderings :
  ~ complete_box (ImageQuery.bounding_box q) ->
  SqlImageMetadataStore.query_selection q orderings = inl ArgumentError.
Proof.
  intros Hbox. unfold SqlImageMetadataStore.query_selection.
  now rewrite (update_image_query_incomplete _ _ Hbox).
Qed.

(** A query whose box lacks a coordinate raises before it reaches the
    engine; every other query returns. *)
Lemma query_incomplete E table q orderings skip_first max_num_results :
  ~ complete_box (ImageQuery.bounding_box q) ->
  SqlImageMetadataStore.query E table q orderings skip_first max_num_results
  = inl ArgumentError.
Proof.
  intros Hbox. unfold SqlImageMetadataStore.query.
  now rewrite (query_selection_incomplete _ _ Hbox).
Qed.

(** [query] returns a page cut out of the matching rows, sorted: the rows
    of the table that meet the filter of every field and lie within the box,
    each once, in an order that respects the orderings. *)
Lemma query_page E table q orderings skip_first max_num_results :
  complete_box (ImageQuery.bounding_box q) ->
  exists matches,
    matches ≡ₚ List.filter (query_matches E q) table
    /\ Sorted (in_order E orderings) matches
    /\ SqlImageMetadataStore.query E table q orderings skip_first max_num_results
       = inr (map SqlImageMetadataStore.object_ref
                (firstn (Z.to_nat max_num_results)
                   (skipn (Z.to_nat skip_first) matches))).
Proof.
  intros Hbox. unfold SqlImageMetadataStore.query.
  destruct (query_selection_ok q orderings Hbox) as (selection & -> & Hw & Ho).
  unfold bind, execute. cbn [Select.limit Select.offset Select.whereclause
    Select.order_by_clauses Select.offset_clause Select.limit_clause].
  rewrite Hw, Ho.
  eexists; split; [|split; [|reflexivity]].
  - rewrite order_rows_Permutation, Engine.store_order_Permutation.
    erewrite filter_ext_in; [reflexivity|].
    intros row _. rewrite satisfies_app, satisfies_field_predicates.
    now rewrite (satisfies_location_clauses E _ row Hbox).
  - apply order_rows_Sorted.
Qed.

Lemma query_returns E table q orderings skip_first max_num_results ids :
  SqlImageMetadataStore.query E table q orderings skip_first max_num_results = inr ids ->
  complete_box (ImageQuery.bounding_box q).
Proof.
  intros Hq. destruct (complete_box_dec (ImageQuery.bounding_box q)) as [H | H]; [exact H|].
  rewrite (query_incomplete _ _ _ _ _ _ H) in Hq. discriminate.
Qed.

Lemma in_matches E table q matches row :
  matches ≡ₚ List.filter (query_matches E q) table ->
  In row matches <-> In row table /\ query_matches E q row = true.
Proof.
  intros Hperm.
  rewrite <- List.filter_In, <- !list_elem_of_In. now rewrite Hperm.
Qed.

Lemma matches_length E table q matches :
  matches ≡ₚ List.filter (query_matches E q) table ->
  (length matches <= length table)%nat.
Proof.
  intros Hperm. rewrite (Permutation_length Hperm). apply filter_length_le.
Qed.

Lemma in_window {A : Type} (x : A) (l : list A) (skip limit : nat) :
  In x (firstn limit (skipn skip l)) -> In x l.
Proof.
  intros H. rewrite <- (firstn_skipn skip l). apply in_or_app. right.
  rewrite <- (firstn_skipn limit (skipn skip l)). apply in_or_app. now left.
Qed.

(** C4.  For a query with bounding box [B] (south-west and north-east
    corners given by their four coordinates), run without paging the result
    short (no row skipped, at least as many rows allowed as the table has):
    a record located at the point (lat, lon) is among the rows whose
    references are returned if and only if it is in the table, south_west <=
    (lat, lon) <= north_east holds on both axes, bounds included, and the
    record meets the filter of every field of the query.  A record without a
    location is not returned. *)
Theorem bounding_box_query E table q orderings max_num_results
    (sw_lat sw_lon ne_lat ne_lon : Q) :
  ImageQuery.bounding_box q
  = Some (BoundingBox.mk (GeoPoint.mk (Some sw_lat) (Some sw_lon))
                         (GeoPoint.mk (Some ne_lat) (Some ne_lon))) ->
  Z.of_nat (length table) <= max_num_results ->
  exists rows,
    SqlImageMetadataStore.query E table q orderings 0 max_num_results
    = inr (map SqlImageMetadataStore.object_ref rows)
    /\ (forall row lat lon,
         Image.location_lat row = Some lat ->
         Image.location_lon row = Some lon ->
         In row rows <->
         In row table
         /\ (sw_lat <= lat /\ lat <= ne_lat /\ sw_lon <= lon /\ lon <= ne_lon)%Q
         /\ fields_match E q row = true)
    /\ forall row,
         In row rows ->
         Image.location_lat row <> None /\ Image.location_lon row <> None.
Proof.
  intros Hbox Hlimit.
  assert (Hcomplete : complete_box (ImageQuery.bounding_box q)).
  { rewrite Hbox. repeat split; discriminate. }
  destruct (query_page E table q orderings 0 max_num_results Hcomplete)
    as (matches & Hperm & _ & Hq).
  exists matches; split; [|split].
  - rewrite Hq. do 2 f_equal. simpl. apply firstn_all2.
    pose proof (matches_length _ _ _ _ Hperm). lia.
  - intros row lat lon Hlat Hlon. rewrite (in_matches _ _ _ _ row Hperm).
    unfold query_matches. rewrite Hbox, andb_true_iff.
    unfold within_box; simpl. rewrite Hlat, Hlon.
    rewrite !andb_true_iff, !Qle_bool_iff. tauto.
  - intros row Hrow. apply (in_matches _ _ _ _ row Hperm) in Hrow as [_ Hm].
    unfold query_matches in Hm. rewrite Hbox in Hm. apply andb_true_iff in Hm as [_ Hm].
    unfold within_box in Hm; simpl in Hm.
    destruct (Image.location_lat row), (Image.location_lon row); try discriminate.
    split; discriminate.
Qed.

(** ** Pagination *)

Lemma page_length {A : Type} (l : list A) (skip limit : nat) :
  length (firstn limit (skipn skip l)) = Nat.min limit (length l - skip).
Proof. now rewrite length_firstn, length_skipn. Qed.

(** What [query_images] answers, from the matching rows its page is cut out
    of. *)
Lemma query_images_page E b q orderings limit p :
  0 < limit -> 0 < p ->
  complete_box (ImageQuery.bounding_box q) ->
  exists matches,
    matches ≡ₚ List.filter (query_matches E q) (Backends.metadata_store b)
    /\ Sorted (in_order E orderings) matches
    /\ let ids := map SqlImageMetadataStore.object_ref
                    (firstn (Z.to_nat limit) (skipn (Z.to_nat ((p - 1) * limit)) matches)) in
       query_images E b q orderings limit p
       = inr (QueryResponse.mk ids p (Z.of_nat (length ids) <? limit)).
Proof.
  intros Hlimit Hp Hbox.
  destruct (query_page E (Backends.metadata_store b) q orderings ((p - 1) * limit) limit Hbox)
    as (matches & Hperm & Hsorted & Hq).
  exists matches. split; [exact Hperm|]. split; [exact Hsorted|].
  unfold query_images.
  replace (0 <? limit) with true by (symmetry; apply Z.ltb_lt; lia).
  replace (0 <? p) with true by (symmetry; apply Z.ltb_lt; lia).
  simpl. now rewrite Hq.
Qed.

(** C5.  For a page number [p] and a page size [limit] (both positive, as
    the endpoint requires) and a query that the store translates: the rows
    that match are the rows of the table that meet the filter of every field
    and lie within the box; the engine puts them in an order that respects
    the orderings, skips the first [(p - 1) * limit] of them and returns the
    references of at most [limit] of those that follow; the page is marked
    last exactly when it holds fewer than [limit] references.  When the
    number of matching rows is [k * limit], every page up to [k] is full and
    not marked last, and the page marked last, [k + 1], is empty. *)
Theorem query_images_pagination E b q orderings limit p :
  0 < limit -> 0 < p ->
  complete_box (ImageQuery.bounding_box q) ->
  let matching := List.filter (query_matches E q) (Backends.metadata_store b) in
  exists matches resp,
    matches ≡ₚ matching
    /\ Sorted (in_order E orderings) matches
    /\ query_images E b q orderings limit p = inr resp
    /\ QueryResponse.page_num resp = p
    /\ QueryResponse.image_ids resp
       = map SqlImageMetadataStore.object_ref
           (firstn (Z.to_nat limit) (skipn (Z.to_nat ((p - 1) * limit)) matches))
    /\ Z.of_nat (length (QueryResponse.image_ids resp)) <= limit
    /\ (QueryResponse.is_last_page resp = true
        <-> Z.of_nat (length (QueryResponse.image_ids resp)) < limit)
    /\ forall k, Z.of_nat (length matching) = k * limit ->
         (p <= k -> Z.of_nat (length (QueryResponse.image_ids resp)) = limit
                    /\ QueryResponse.is_last_page resp = false)
         /\ (p = k + 1 -> QueryResponse.image_ids resp = []
                          /\ QueryResponse.is_last_page resp = true).
Proof.
  intros Hlimit Hp Hbox matching.
  destruct (query_images_page E b q orderings limit p Hlimit Hp Hbox)
    as (matches & Hperm & Hsorted & Hq).
  fold matching in Hperm.
  set (ids := map SqlImageMetadataStore.object_ref _) in Hq.
  assert (Hlen : length ids
                 = Nat.min (Z.to_nat limit) (length matching - Z.to_nat ((p - 1) * limit))).
  { unfold ids. rewrite length_map, page_length. now rewrite (Permutation_length Hperm). }
  exists matches, (QueryResponse.mk ids p (Z.of_nat (length ids) <? limit)); simpl.
  repeat split; try assumption; try reflexivity.
  - lia.
  - apply Z.ltb_lt.
  - apply Z.ltb_lt.
  - assert (0 <= (p - 1) * limit) by nia.
    assert ((p - 1) * limit + limit <= k * limit) by nia. lia.
  - apply Z.ltb_ge.
    assert (0 <= (p - 1) * limit) by nia.
    assert ((p - 1) * limit + limit <= k * limit) by nia. lia.
  - subst p. replace (k + 1 - 1) with k in Hlen by lia.
    apply length_zero_iff_nil. lia.
  - subst p. replace (k + 1 - 1) with k in Hlen by lia.
    apply Z.ltb_lt. lia.
Qed.

(** ** What [LIKE] between two wildcards matches *)






Lemma list_ascii_of_string_app s t :
  list_ascii_of_string (s ++ t) = list_ascii_of_string s ++ list_ascii_of_string t.
Proof. induction s as [|c s IH]; simpl; [reflexivity | now rewrite IH]. Qed.




(** ** Text filters *)

Lemma not_substring_a_c_abc : ~ is_substring "a_c" "abc".
Proof.
  intros (before & after & H).
  destruct before as [|c1 [|c2 [|c3 [|c4 before]]]]; simpl in H; try discriminate.
Qed.

Lemma like_a_c_abc E : like E "%a_c%" "abc" = true.
Proof. unfold like; simpl. now rewrite !Engine.collate_refl. Qed.

(** Whatever the engine, the filter [a_c] on the name returns a row named
    [abc]. *)
Lemma query_a_c_abc E row :
  Image.name row = Some "abc"%string ->
  SqlImageMetadataStore.query E [row] (name_query "a_c") [] 0 500
  = inr [SqlImageMetadataStore.object_ref row].
Proof.
  intros Hname.
  destruct (query_page E [row] (name_query "a_c") [] 0 500 I) as (matches & Hperm & _ & ->).
  assert (List.filter (query_matches E (name_query "a_c")) [row] = [row]) as Hf.
  { simpl. unfold query_matches, fields_match; simpl. rewrite Hname; simpl.
    now rewrite like_a_c_abc. }
  rewrite Hf in Hperm. apply Permutation_singleton_r in Hperm as ->. reflexivity.
Qed.

(** C10.  The text filter is not a literal substring test.  The value goes
    unescaped between the two wildcards of a [LIKE] pattern, so a [_] or [%]
    in it acts as a wildcard: there are a filter value containing such a
    character (here [a_c]) and a row whose name ([abc]) does not contain the
    value as a literal substring, and the query returns that row, whatever
    the engine. *)
Theorem like_filter_not_literal :
  exists (value text : string) (row : Image.t),
    (In "_"%char (list_ascii_of_string value) \/ In "%"%char (list_ascii_of_string value))
    /\ SqlImageMetadataStore.__update_query (PyStr value) select_Image Col.name
       = inr (Select.where_ select_Image [SqlLike Col.name ("%" ++ value ++ "%")%string])
    /\ Image.name row = Some text
    /\ ~ is_substring value text
    /\ forall E,
         SqlImageMetadataStore.query E [row] (name_query value) [] 0 500
         = inr [SqlImageMetadataStore.object_ref row].
Proof.
  exists "a_c"%string, "abc"%string, (sample_row "k" "abc").
  split; [left; simpl; tauto|]. split; [reflexivity|]. split; [reflexivity|].
  split; [apply not_substring_a_c_abc|].
  intros E. now apply query_a_c_abc.
Qed.

(** ** The event loop *)

Lemma run_task_cases {A : Type} (call : store_call A) (t : task_state A) b t' b' :
  run_task call t b = (t', b') ->
  (t' = t /\ b' = b /\ t <> Pending)
  \/ (t = Pending /\ exists e, call b = inl e /\ t' = Finished (inl e) /\ b' = b)
  \/ (t = Pending /\ exists a, call b = inr (a, b') /\ t' = Finished (inr a)).
Proof.
  destruct t; simpl.
  - destruct (call b) as [e|[a b'']]; intros [= <- <-]; eauto 8.
  - intros [= <- <-]; left; repeat split; discriminate.
  - intros [= <- <-]; left; repeat split; discriminate.
Qed.

Lemma finished_unit (t : task_state unit) :
  succeeded t <> None -> t = Finished (inr tt).
Proof. destruct t as [|[e|[]]|]; simpl; congruence. Qed.

Lemma succeeded_inv {A : Type} (t : task_state A) a :
  succeeded t = Some a -> t = Finished (inr a).
Proof. destruct t as [|[]|]; simpl; congruence. Qed.

Lemma run_task_finished {A : Type} (call : store_call A) t b :
  t <> Cancelled -> finished (fst (run_task call t b)).
Proof.
  destruct t as [|r|]; simpl; [| now exists r | congruence].
  destruct (call b) as [e|[a b']]; simpl; eexists; reflexivity.
Qed.

Lemma finished_not_cancelled {A : Type} (t : task_state A) : finished t -> t <> Cancelled.
Proof. intros [r ->]; discriminate. Qed.

Lemma cancel_not_pending {A : Type} (t : task_state A) : cancel t <> Pending.
Proof. destruct t; discriminate. Qed.

Lemma cancel_finished {A : Type} (t : task_state A) r : t = Finished r -> cancel t = Finished r.
Proof. now intros ->. Qed.

(** One turn given to a task: it was not pending, or it raised, or it
    returned. *)
Ltac task_turn :=
  match goal with
  | |- context [run_task ?call ?t ?b] =>
      let H := fresh "Hrun" in
      destruct (run_task call t b) as [? ?] eqn:H;
      apply run_task_cases in H;
      destruct H as [(-> & -> & ?) | [(? & ? & ? & -> & ->) | (? & ? & ? & ->)]]
  end.

Ltac absurd_failed :=
  exfalso;
  match goal with
  | H : failed (Finished (inl ?e)) -> False |- _ => apply H; exists e; reflexivity
  end.

Ltac not_failed :=
  match goal with
  | H : failed _ |- _ => destruct H as [? H]; congruence
  end.

Ltac settle := simpl in *; intuition (try congruence); try absurd_failed; try not_failed.

(** ** [create_uav_image] *)

Section CreateInvariants.
Import CreateUavImage.
Variable _create_thumbnail : bytes -> bytes.
Variable req : request.
Variable f : faults.

(** Every turn of the loop keeps the three invariants. *)
Lemma create_frame_ok_step s ev :
  create_frame_ok req s -> create_gather_ok s ->
  create_frame_ok req (step _create_thumbnail req f s ev).
Proof.
  unfold create_frame_ok, create_gather_ok. intros Hf Hg.
  destruct ev; simpl.
  - task_turn; simpl.
    + destruct (at_ s), (gather_exception s), (object_task s) as [|[]|]; settle.
    + destruct (at_ s), (gather_exception s); settle.
    + destruct (at_ s), (gather_exception s); settle.
  - task_turn; simpl.
    + destruct (at_ s), (gather_exception s), (metadata_task s) as [|[]|]; settle.
    + destruct (at_ s), (gather_exception s); settle.
    + destruct (at_ s), (gather_exception s); settle.
  - task_turn; simpl.
    + destruct (at_ s), (gather_exception s), (thumbnail_task s) as [|[]|]; settle.
    + destruct (at_ s), (gather_exception s); settle.
    + destruct (at_ s), (gather_exception s); settle.
  - unfold resume. destruct (at_ s) eqn:Hat.
    + destruct (gather_exception s) as [[]|] eqn:Hge; simpl; rewrite ?Hge; simpl; auto.
      destruct (succeeded (object_task s)) eqn:H1; [|now rewrite Hat].
      destruct (succeeded (metadata_task s)) eqn:H2; [|now rewrite Hat].
      destruct (succeeded (thumbnail_task s)) eqn:H3; [|now rewrite Hat].
      simpl. rewrite Hge. repeat split; auto; apply finished_unit; congruence.
    + destruct Hf as (-> & Hge & Hlog). unfold rollback_step.
      destruct (delete_object _ _ _) as [e|[[] b]]; simpl; rewrite Hge, Hlog; simpl; eauto.
    + destruct Hf as (-> & Hge & Hlog). unfold rollback_step.
      destruct (delete_object _ _ _) as [e|[[] b]]; simpl; rewrite Hge, Hlog; simpl; eauto.
    + destruct Hf as (-> & Hge & Hlog). unfold rollback_step.
      destruct (metadata_delete _ _ _) as [e|[[] b]]; simpl; rewrite Hge, Hlog; simpl; eauto.
    + now rewrite Hat.
Qed.

Lemma create_gather_ok_step s ev :
  create_gather_ok s -> create_gather_ok (step _create_thumbnail req f s ev).
Proof.
  unfold create_gather_ok. intros Hg.
  destruct ev; simpl.
  - task_turn; simpl.
    + destruct (gather_exception s), (object_task s) as [|[]|]; settle.
    + destruct (gather_exception s); settle.
    + destruct (gather_exception s); settle.
  - task_turn; simpl.
    + destruct (gather_exception s), (metadata_task s) as [|[]|]; settle.
    + destruct (gather_exception s); settle.
    + destruct (gather_exception s); settle.
  - task_turn; simpl.
    + destruct (gather_exception s), (thumbnail_task s) as [|[]|]; settle.
    + destruct (gather_exception s); settle.
    + destruct (gather_exception s); settle.
  - unfold resume. destruct (at_ s); simpl; auto.
    + destruct (gather_exception s) as [[]|] eqn:Hge; simpl; rewrite ?Hge; auto.
      destruct (succeeded (object_task s)), (succeeded (metadata_task s)),
        (succeeded (thumbnail_task s)); simpl; rewrite ?Hge; auto.
    + unfold rollback_step. destruct (delete_object _ _ _) as [e|[[] b]]; simpl; auto.
    + unfold rollback_step. destruct (delete_object _ _ _) as [e|[[] b]]; simpl; auto.
    + unfold rollback_step. destruct (metadata_delete _ _ _) as [e|[[] b]]; simpl; auto.
Qed.

Lemma create_run_ok schedule s :
  create_frame_ok req s -> create_gather_ok s ->
  create_frame_ok req (run _create_thumbnail req f schedule s)
  /\ create_gather_ok (run _create_thumbnail req f schedule s).
Proof.
  revert s; induction schedule as [|ev evs IH]; intros s Hf Hg; simpl; [auto|].
  apply IH; [now apply create_frame_ok_step | now apply create_gather_ok_step].
Qed.

Lemma create_start_ok b : create_frame_ok req (start b) /\ create_gather_ok (start b).
Proof.
  unfold create_frame_ok, create_gather_ok; simpl.
  repeat split; intros [e He]; discriminate.
Qed.

End CreateInvariants.

Section CreateProgress.
Import CreateUavImage.
Variable _create_thumbnail : bytes -> bytes.
Variable req : request.
Variable f : faults.

Lemma create_step_object_task s :
  let s' := step _create_thumbnail req f s RunObjectTask in
  create_not_cancelled s ->
  finished (object_task s') /\ metadata_task s' = metadata_task s
  /\ thumbnail_task s' = thumbnail_task s /\ at_ s' = at_ s.
Proof.
  simpl. intros (H & _ & _).
  pose proof (run_task_finished
                (create_object (on_create_object f) (object_id req) (image_data req))
                _ (backends s) H) as Hfin.
  destruct (run_task _ _ _); simpl in *; auto.
Qed.

Lemma create_step_metadata_task s :
  let s' := step _create_thumbnail req f s RunMetadataTask in
  create_not_cancelled s ->
  finished (metadata_task s') /\ object_task s' = object_task s
  /\ thumbnail_task s' = thumbnail_task s /\ at_ s' = at_ s.
Proof.
  simpl. intros (_ & H & _).
  pose proof (run_task_finished (metadata_add (on_add f) (object_id req) (metadata req))
                _ (backends s) H) as Hfin.
  destruct (run_task _ _ _); simpl in *; auto.
Qed.

Lemma create_step_thumbnail_task s :
  let s' := step _create_thumbnail req f s RunThumbnailTask in
  create_not_cancelled s ->
  finished (thumbnail_task s') /\ object_task s' = object_task s
  /\ metadata_task s' = metadata_task s /\ at_ s' = at_ s.
Proof.
  simpl. intros (_ & _ & H).
  pose proof (run_task_finished (_create_and_save_thumbnail _create_thumbnail req f)
                _ (backends s) H) as Hfin.
  destruct (run_task _ _ _); simpl in *; auto.
Qed.

Lemma create_tasks_finish b :
  let s := run _create_thumbnail req f [RunObjectTask; RunMetadataTask; RunThumbnailTask]
               (start b) in
  create_all_finished s /\ at_ s = AwaitGather.
Proof.
  unfold run; cbn [fold_left].
  set (s0 := start b).
  assert (H0 : create_not_cancelled s0) by (repeat split; discriminate).
  destruct (create_step_object_task s0 H0) as (F1 & M1 & T1 & A1).
  set (s1 := step _ _ _ s0 RunObjectTask) in *.
  assert (H1 : create_not_cancelled s1).
  { repeat split; [now apply finished_not_cancelled | rewrite M1 | rewrite T1]; discriminate. }
  destruct (create_step_metadata_task s1 H1) as (F2 & O2 & T2 & A2).
  set (s2 := step _ _ _ s1 RunMetadataTask) in *.
  assert (H2 : create_not_cancelled s2).
  { repeat split; [rewrite O2 | | rewrite T2, T1];
      try (now apply finished_not_cancelled); discriminate. }
  destruct (create_step_thumbnail_task s2 H2) as (F3 & O3 & M3 & A3).
  set (s3 := step _ _ _ s2 RunThumbnailTask) in *.
  unfold create_all_finished. rewrite O3, O2, M3, A3, A2, A1. auto.
Qed.

Lemma create_resume_progress s :
  create_all_finished s -> create_gather_ok s ->
  create_all_finished (resume req f s)
  /\ (create_resumes_left (at_ (resume req f s)) < create_resumes_left (at_ s)
      \/ create_resumes_left (at_ (resume req f s)) = 0)%nat.
Proof.
  unfold create_all_finished, create_gather_ok, resume.
  intros ([r1 H1] & [r2 H2] & [r3 H3]) Hg.
  destruct (at_ s) eqn:Hat.
  - destruct (gather_exception s) as [e|].
    + destruct e; simpl; rewrite H1, H2, H3; repeat split; eauto; unfold finished; eauto.
    + rewrite H1, H2, H3 in *. destruct Hg as (G1 & G2 & G3).
      destruct r1 as [e|[]]; [exfalso; apply G1; eexists; reflexivity|].
      destruct r2 as [e|[]]; [exfalso; apply G2; eexists; reflexivity|].
      destruct r3 as [e|[]]; [exfalso; apply G3; eexists; reflexivity|].
      simpl. rewrite H1, H2, H3. repeat split; unfold finished; eauto.
  - unfold rollback_step. destruct (delete_object _ _ _) as [e|[[] b]]; simpl;
      rewrite H1, H2, H3; repeat split; unfold finished; eauto.
  - unfold rollback_step. destruct (delete_object _ _ _) as [e|[[] b]]; simpl;
      rewrite H1, H2, H3; repeat split; unfold finished; eauto.
  - unfold rollback_step. destruct (metadata_delete _ _ _) as [e|[[] b]]; simpl;
      rewrite H1, H2, H3; repeat split; unfold finished; eauto.
  - rewrite Hat, H1, H2, H3. repeat split; unfold finished; eauto.
Qed.

(** Whatever the stores and the faults, the endpoint has answered once the
    three tasks have run and it has been resumed three times. *)
Lemma create_uav_image_answers b :
  outcome (create_uav_image _create_thumbnail req f tasks_first b) <> None.
Proof.
  unfold create_uav_image, tasks_first.
  change [RunObjectTask; RunMetadataTask; RunThumbnailTask; Resume; Resume; Resume]
    with ([RunObjectTask; RunMetadataTask; RunThumbnailTask] ++ [Resume; Resume; Resume]).
  unfold run. rewrite fold_left_app.
  destruct (create_tasks_finish b) as [Hall Hat].
  destruct (create_start_ok req b) as [Hf0 Hg0].
  destruct (create_run_ok _create_thumbnail req f
              [RunObjectTask; RunMetadataTask; RunThumbnailTask] _ Hf0 Hg0) as [_ Hg].
  unfold run in *.
  set (s0 := fold_left _ [RunObjectTask; RunMetadataTask; RunThumbnailTask] (start b)) in *.
  cbn [fold_left step].
  destruct (create_resume_progress s0 Hall Hg) as [Hall1 Hd1].
  pose proof (create_gather_ok_step _create_thumbnail req f s0 Resume Hg) as Hg1.
  cbn [step] in Hg1.
  destruct (create_resume_progress _ Hall1 Hg1) as [Hall2 Hd2].
  pose proof (create_gather_ok_step _create_thumbnail req f _ Resume Hg1) as Hg2.
  cbn [step] in Hg2.
  destruct (create_resume_progress _ Hall2 Hg2) as [_ Hd3].
  rewrite Hat in Hd1. cbn [create_resumes_left] in Hd1.
  unfold outcome.
  destruct (at_ (resume req f (resume req f (resume req f s0))));
    cbn in *; try discriminate; lia.
Qed.

End CreateProgress.

Lemma create_answered _create_thumbnail req f schedule b r error :
  let s := CreateUavImage.create_uav_image _create_thumbnail req f schedule b in
  CreateUavImage.outcome s = Some r ->
  CreateUavImage.gather_exception s = Some error ->
  create_task_raised s error /\ rollback_of req error (CreateUavImage.rollback s) r.
Proof.
  intros s Hout He.
  destruct (create_start_ok req b) as [Hf0 Hg0].
  destruct (create_run_ok _create_thumbnail req f schedule _ Hf0 Hg0) as [Hf Hg].
  fold (CreateUavImage.create_uav_image _create_thumbnail req f schedule b) in Hf, Hg.
  fold s in Hf, Hg.
  unfold create_frame_ok in Hf. unfold create_gather_ok in Hg.
  unfold CreateUavImage.outcome in Hout.
  destruct (CreateUavImage.at_ s) as [| | | |r'] eqn:Hat; try discriminate.
  injection Hout as ->. rewrite He in Hf, Hg. split; assumption.
Qed.

Section CreateFirstFailure.
Import CreateUavImage.
Variable _create_thumbnail : bytes -> bytes.
Variable req : request.
Variable f : faults.

(** Resuming the endpoint leaves the tasks, and what [gather] raised, as
    they are. *)
Lemma create_resume_tasks s :
  object_task (resume req f s) = object_task s
  /\ metadata_task (resume req f s) = metadata_task s
  /\ thumbnail_task (resume req f s) = thumbnail_task s
  /\ gather_exception (resume req f s) = gather_exception s.
Proof.
  unfold resume. destruct (at_ s).
  - destruct (gather_exception s) as [[]|] eqn:Hge; simpl; rewrite ?Hge; auto.
    destruct (succeeded (object_task s)), (succeeded (metadata_task s)),
      (succeeded (thumbnail_task s)); simpl; rewrite ?Hge; auto.
  - unfold rollback_step. destruct (delete_object _ _ _) as [e|[[] b]]; simpl; auto.
  - unfold rollback_step. destruct (delete_object _ _ _) as [e|[[] b]]; simpl; auto.
  - unfold rollback_step. destruct (metadata_delete _ _ _) as [e|[[] b]]; simpl; auto.
  - auto.
Qed.

(** The exception [gather] has raised is not replaced by a later one. *)
Lemma create_gather_kept s ev e :
  gather_exception s = Some e ->
  gather_exception (step _create_thumbnail req f s ev) = Some e.
Proof.
  intros He. destruct ev; simpl.
  - destruct (run_task _ _ _) as [t b]; simpl. now rewrite He.
  - destruct (run_task _ _ _) as [t b]; simpl. now rewrite He.
  - destruct (run_task _ _ _) as [t b]; simpl. now rewrite He.
  - destruct (create_resume_tasks s) as (_ & _ & _ & ->). exact He.
Qed.

Lemma create_gather_kept_run schedule s e :
  gather_exception s = Some e ->
  gather_exception (run _create_thumbnail req f schedule s) = Some e.
Proof.
  revert s; induction schedule as [|ev evs IH]; intros s He; simpl; [exact He|].
  now apply IH, create_gather_kept.
Qed.

(** The turn at which the first sub-operation fails: its exception is the
    one [gather] raises. *)
Lemma create_first_step s ev error :
  create_gather_ok s -> create_none_failed s ->
  create_task_raised (step _create_thumbnail req f s ev) error ->
  gather_exception (step _create_thumbnail req f s ev) = Some error.
Proof.
  unfold create_gather_ok, create_none_failed, create_task_raised.
  intros Hg (N1 & N2 & N3).
  assert (gather_exception s = None) as Hnone.
  { destruct (gather_exception s) as [e|]; [|reflexivity]. exfalso.
    destruct Hg as [H | [H | H]]; [apply N1 | apply N2 | apply N3]; exists e; exact H. }
  assert (Hno : forall e, object_task s = Finished (inl e)
                          \/ metadata_task s = Finished (inl e)
                          \/ thumbnail_task s = Finished (inl e) -> False).
  { intros e [H | [H | H]]; [apply N1 | apply N2 | apply N3]; exists e; exact H. }
  destruct ev; simpl.
  - task_turn; simpl; rewrite Hnone; simpl.
    + intros Hr. exfalso. exact (Hno _ Hr).
    + intros [Hr | [Hr | Hr]]; [congruence | |]; exfalso; apply (Hno error); auto.
    + intros [Hr | [Hr | Hr]]; [discriminate | |]; exfalso; apply (Hno error); auto.
  - task_turn; simpl; rewrite Hnone; simpl.
    + intros Hr. exfalso. exact (Hno _ Hr).
    + intros [Hr | [Hr | Hr]]; [|congruence|]; exfalso; apply (Hno error); auto.
    + intros [Hr | [Hr | Hr]]; [|discriminate|]; exfalso; apply (Hno error); auto.
  - task_turn; simpl; rewrite Hnone; simpl.
    + intros Hr. exfalso. exact (Hno _ Hr).
    + intros [Hr | [Hr | Hr]]; [| |congruence]; exfalso; apply (Hno error); auto.
    + intros [Hr | [Hr | Hr]]; [| |discriminate]; exfalso; apply (Hno error); auto.
  - destruct (create_resume_tasks s) as (-> & -> & -> & _).
    intros Hr. exfalso. exact (Hno _ Hr).
Qed.

Lemma create_first_failure_gather b schedule error :
  create_first_failure _create_thumbnail req f b schedule error ->
  gather_exception (create_uav_image _create_thumbnail req f schedule b) = Some error.
Proof.
  intros (before & ev & after & -> & Hnone & Hraised).
  unfold create_uav_image, run in *. rewrite fold_left_app in *. simpl in *.
  apply create_gather_kept_run.
  destruct (create_start_ok req b) as [Hf0 Hg0].
  destruct (create_run_ok _create_thumbnail req f before _ Hf0 Hg0) as [_ Hg].
  now apply create_first_step.
Qed.

Lemma create_failed_or_not s : (exists e, create_task_raised s e) \/ create_none_failed s.
Proof.
  unfold create_task_raised, create_none_failed, failed.
  destruct (object_task s) as [|[e1|]|]; [| left; eauto | |];
    (destruct (metadata_task s) as [|[e2|]|]; [| left; eauto | |]);
    (destruct (thumbnail_task s) as [|[e3|]|]; [| left; eauto | |]);
    right; repeat split; intros [e H]; discriminate.
Qed.

(** A run in which a sub-operation has failed has a first failure. *)
Lemma create_first_failure_exists b schedule e :
  create_task_raised (create_uav_image _create_thumbnail req f schedule b) e ->
  exists error, create_first_failure _create_thumbnail req f b schedule error.
Proof.
  revert e. induction schedule as [|ev schedule IH] using rev_ind; intros e Hr.
  - destruct Hr as [H | [H | H]]; discriminate.
  - destruct (create_failed_or_not (create_uav_image _create_thumbnail req f schedule b))
      as [[e' He'] | Hnone].
    + destruct (IH _ He') as (error & before & ev0 & after & -> & H1 & H2).
      exists error, before, ev0, (after ++ [ev]).
      split; [now rewrite <- app_assoc | auto].
    + exists e, schedule, ev, []. auto.
Qed.

End CreateFirstFailure.

(** C1, as amended.  Let the endpoint have answered [r].  The handlers act
    on the first failure of the run, the failure of the sub-operation that
    fails when none has failed before; later failures are not seen.  If the
    first failure is a [MetadataOperationError], the orchestrator calls the
    deletion of the main object and then of the thumbnail object and
    re-raises the original error; if it is an [ObjectOperationError], it
    calls the deletion of the metadata record and re-raises the original
    error.  In both cases a deletion that itself raises ends the rollback:
    no further deletion is called and the caller gets the exception of the
    deletion in place of the original error.  Every run in which a
    sub-operation failed has a first failure; when none failed nothing is
    deleted and the new reference is returned.  The endpoint does answer once
    its tasks have run. *)
Theorem create_rollback _create_thumbnail req f schedule b r :
  let s := CreateUavImage.create_uav_image _create_thumbnail req f schedule b in
  CreateUavImage.outcome s = Some r ->
  (forall error,
     create_first_failure _create_thumbnail req f b schedule error ->
     rollback_of req error (CreateUavImage.rollback s) r)
  /\ (forall e,
        create_task_raised s e ->
        exists error, create_first_failure _create_thumbnail req f b schedule error)
  /\ (create_none_failed s ->
      r = inr (CreateUavImage.object_id req) /\ CreateUavImage.rollback s = [])
  /\ CreateUavImage.outcome
       (CreateUavImage.create_uav_image _create_thumbnail req f
          CreateUavImage.tasks_first b) <> None.
Proof.
  intros s Hout. split; [|split; [|split]].
  - intros error Hfirst.
    apply (create_answered _create_thumbnail req f schedule b r error Hout).
    now apply create_first_failure_gather.
  - intros e. apply create_first_failure_exists.
  - intros (N1 & N2 & N3).
    destruct (create_start_ok req b) as [Hf0 Hg0].
    destruct (create_run_ok _create_thumbnail req f schedule _ Hf0 Hg0) as [Hf Hg].
    fold (CreateUavImage.create_uav_image _create_thumbnail req f schedule b) in Hf, Hg.
    fold s in Hf, Hg.
    unfold create_frame_ok in Hf. unfold create_gather_ok in Hg.
    unfold CreateUavImage.outcome in Hout.
    destruct (CreateUavImage.at_ s) as [| | | |r']; try discriminate.
    injection Hout as ->.
    destruct (CreateUavImage.gather_exception s) as [e|].
    + exfalso. destruct Hg as [H | [H | H]]; [apply N1 | apply N2 | apply N3];
        exists e; exact H.
    + tauto.
  - apply create_uav_image_answers.
Qed.

(** When the main object write and the metadata add both fail, the object
    write first, the run is not what C1 states: the handler of the object
    failure calls the deletion of a metadata record that was never added,
    neither object is deleted although the metadata add has failed, and the
    caller gets the [KeyError] of the deletion. *)
Lemma create_rollback_not_as_stated :
  CreateUavImage.metadata_task create_two_failures = Finished (inl MetadataOperationError)
  /\ CreateUavImage.rollback create_two_failures = [(DeleteMetadata sample_id, Some KeyError)]
  /\ CreateUavImage.outcome create_two_failures = Some (inl KeyError)
  /\ ~ rollback_as_stated sample_request create_two_failures.
Proof.
  split; [reflexivity|]. split; [reflexivity|]. split; [reflexivity|].
  intros [H _].
  assert (Hm : CreateUavImage.metadata_task create_two_failures
               = Finished (inl MetadataOperationError)) by reflexivity.
  destruct (H Hm) as [_ Ho]. vm_compute in Ho. discriminate.
Qed.

Lemma create_rollback_witness :
  CreateUavImage.outcome create_two_failures = Some (inl KeyError)
  /\ create_first_failure sample_thumbnailer sample_request
       (CreateUavImage.mk_faults (Some ObjectOperationError) (Some MetadataOperationError)
          None None None None)
       empty_backends CreateUavImage.tasks_first ObjectOperationError
  /\ rollback_of sample_request ObjectOperationError
       (CreateUavImage.rollback create_two_failures) (inl KeyError).
Proof.
  assert (Ho : CreateUavImage.outcome create_two_failures = Some (inl KeyError))
    by reflexivity.
  assert (Hfirst : create_first_failure sample_thumbnailer sample_request
                     (CreateUavImage.mk_faults (Some ObjectOperationError)
                        (Some MetadataOperationError) None None None None)
                     empty_backends CreateUavImage.tasks_first ObjectOperationError).
  { exists [], CreateUavImage.RunObjectTask,
      [CreateUavImage.RunMetadataTask; CreateUavImage.RunThumbnailTask;
       CreateUavImage.Resume; CreateUavImage.Resume; CreateUavImage.Resume].
    split; [reflexivity|]. split; [|left; reflexivity].
    repeat split; intros [e He]; discriminate. }
  split; [exact Ho|]. split; [exact Hfirst|].
  exact (proj1 (create_rollback sample_thumbnailer sample_request _ _ _ _ Ho)
           ObjectOperationError Hfirst).
Defined.

(** ** [delete_image] *)

Section DeleteInvariants.
Import DeleteImage.
Variable bucket name : string.
Variable f : faults.

Lemma delete_frame_ok_step s ev :
  delete_frame_ok s -> delete_gather_ok s -> delete_frame_ok (step bucket name f s ev).
Proof.
  unfold delete_frame_ok, delete_gather_ok, delete_task_raised. intros Hf Hg.
  destruct ev; simpl.
  - task_turn; simpl.
    + destruct (at_ s), (gather_exception s), (object_task s) as [|[]|]; settle.
    + destruct (at_ s), (gather_exception s); settle.
    + destruct (at_ s), (gather_exception s); settle.
  - task_turn; simpl.
    + destruct (at_ s), (gather_exception s), (metadata_task s) as [|[]|]; settle.
    + destruct (at_ s), (gather_exception s); settle.
    + destruct (at_ s), (gather_exception s); settle.
  - unfold resume. destruct (at_ s) eqn:Hat; [|now rewrite Hat].
    destruct (gather_exception s) as [[]|] eqn:Hge; simpl; rewrite ?Hge; simpl; auto.
    destruct (succeeded (object_task s)) eqn:H1; [|now rewrite Hat].
    destruct (succeeded (metadata_task s)) eqn:H2; [|now rewrite Hat].
    simpl. rewrite Hge. repeat split; auto; apply finished_unit; congruence.
Qed.

Lemma delete_gather_ok_step s ev : delete_gather_ok s -> delete_gather_ok (step bucket name f s ev).
Proof.
  unfold delete_gather_ok, delete_task_raised. intros Hg.
  destruct ev; simpl.
  - task_turn; simpl.
    + destruct (gather_exception s), (object_task s) as [|[]|]; settle.
    + destruct (gather_exception s); settle.
    + destruct (gather_exception s); settle.
  - task_turn; simpl.
    + destruct (gather_exception s), (metadata_task s) as [|[]|]; settle.
    + destruct (gather_exception s); settle.
    + destruct (gather_exception s); settle.
  - unfold resume. destruct (at_ s); simpl; auto.
    destruct (gather_exception s) as [[]|] eqn:Hge; simpl; rewrite ?Hge; auto.
    destruct (succeeded (object_task s)), (succeeded (metadata_task s));
      simpl; rewrite ?Hge; auto.
Qed.

Lemma delete_resume_backends s :
  backends (resume s) = backends s /\ object_task (resume s) = object_task s
  /\ metadata_task (resume s) = metadata_task s.
Proof.
  unfold resume. destruct (at_ s); auto.
  destruct (gather_exception s) as [[]|]; auto.
  destruct (succeeded (object_task s)), (succeeded (metadata_task s)); auto.
Qed.

Lemma delete_stores_ok_step b s ev :
  delete_stores_ok (object_id bucket name) f b s ->
  delete_stores_ok (object_id bucket name) f b (step bucket name f s ev).
Proof.
  unfold delete_stores_ok. intros [Ho Hm].
  destruct ev; simpl.
  - task_turn; simpl; auto.
    + rewrite H in Ho. unfold delete_object, bind in H0. rewrite Ho in H0.
      destruct (ObjectStore.delete_object _ _ _) as [e|store] eqn:Hd; [|discriminate].
      injection H0 as <-. auto.
    + rewrite H in Ho. unfold delete_object, bind in H0. rewrite Ho in H0.
      destruct (ObjectStore.delete_object _ _ _) as [e|store] eqn:Hd; [discriminate|].
      injection H0 as <- <-. simpl. split; [reflexivity|].
      destruct (metadata_task s) as [|[]|]; auto.
  - task_turn; simpl; auto.
    + rewrite H in Hm. unfold metadata_delete, bind in H0. rewrite Hm in H0.
      destruct (SqlImageMetadataStore.delete _ _ _) as [e|table] eqn:Hd; [|discriminate].
      injection H0 as <-. auto.
    + rewrite H in Hm. unfold metadata_delete, bind in H0. rewrite Hm in H0.
      destruct (SqlImageMetadataStore.delete _ _ _) as [e|table] eqn:Hd; [discriminate|].
      injection H0 as <- <-. simpl. split; [|reflexivity].
      destruct (object_task s) as [|[]|]; auto.
  - destruct (delete_resume_backends s) as (-> & -> & ->). auto.
Qed.

Lemma delete_run_ok b schedule s :
  delete_frame_ok s -> delete_gather_ok s -> delete_stores_ok (object_id bucket name) f b s ->
  delete_frame_ok (run bucket name f schedule s)
  /\ delete_gather_ok (run bucket name f schedule s)
  /\ delete_stores_ok (object_id bucket name) f b (run bucket name f schedule s).
Proof.
  revert s; induction schedule as [|ev evs IH]; intros s Hf Hg Hs; simpl; [auto|].
  apply IH; [now apply delete_frame_ok_step | now apply delete_gather_ok_step | now apply delete_stores_ok_step].
Qed.

Lemma delete_start_ok b :
  delete_frame_ok (start b) /\ delete_gather_ok (start b)
  /\ delete_stores_ok (object_id bucket name) f b (start b).
Proof.
  unfold delete_frame_ok, delete_gather_ok, delete_stores_ok; simpl.
  repeat split; intros [e He]; discriminate.
Qed.

Lemma delete_image_ok schedule b :
  let s := delete_image bucket name f schedule b in
  delete_frame_ok s /\ delete_gather_ok s /\ delete_stores_ok (object_id bucket name) f b s.
Proof.
  destruct (delete_start_ok b) as (H1 & H2 & H3). now apply delete_run_ok.
Qed.

(** The endpoint has answered once both tasks have run and it is resumed. *)
Lemma delete_image_answers b :
  outcome (delete_image bucket name f tasks_first b) <> None.
Proof.
  unfold delete_image, tasks_first, run. simpl.
  destruct (delete_object (on_delete_object f) (object_id bucket name) b)
    as [e1|[[] b1]]; simpl;
    match goal with
    | |- context [metadata_delete ?a ?i ?b'] =>
        destruct (metadata_delete a i b') as [e2|[[] b2]]; simpl
    end;
    unfold resume; simpl; try discriminate;
    repeat match goal with |- context [match ?e with _ => _ end] => destruct e; simpl end;
    discriminate.
Qed.

End DeleteInvariants.

Lemma delete_object_gone fault store object_id store' :
  ObjectStore.delete_object fault store object_id = inr store' ->
  store' !! object_id = None.
Proof.
  unfold ObjectStore.delete_object, with_fault.
  destruct fault; [discriminate|].
  destruct (store !! object_id); [|discriminate].
  intros [= <-]. apply lookup_delete_eq.
Qed.

Lemma delete_object_absent store object_id :
  store !! object_id = None ->
  ObjectStore.delete_object None store object_id = inl KeyError.
Proof. unfold ObjectStore.delete_object; simpl. now intros ->. Qed.

Lemma filter_filter_negb {A : Type} (p : A -> bool) (l : list A) :
  List.filter p (List.filter (fun x => negb (p x)) l) = [].
Proof.
  induction l as [|x l IH]; simpl; [reflexivity|].
  destruct (p x) eqn:Hp; simpl; [exact IH|]. now rewrite Hp.
Qed.

Lemma metadata_delete_gone fault table object_id table' :
  SqlImageMetadataStore.delete fault table object_id = inr table' ->
  List.filter (SqlImageMetadataStore.has_id object_id) table' = [].
Proof.
  unfold SqlImageMetadataStore.delete, with_fault, bind.
  destruct fault; [discriminate|].
  destruct (SqlImageMetadataStore.__get_by_id table object_id) as [|image] eqn:Hrow;
    [discriminate|].
  intros [= <-]. unfold SqlImageMetadataStore.delete_row.
  rewrite (get_by_id_object_ref _ _ _ Hrow). apply filter_filter_negb.
Qed.

Lemma metadata_delete_absent table object_id :
  List.filter (SqlImageMetadataStore.has_id object_id) table = [] ->
  SqlImageMetadataStore.delete None table object_id = inl KeyError.
Proof.
  unfold SqlImageMetadataStore.delete, SqlImageMetadataStore.__get_by_id; simpl.
  now intros ->.
Qed.

(** A fault-free deletion of an image neither store has answers 404. *)
Lemma delete_absent_image bucket name schedule b r :
  Backends.object_store b !! DeleteImage.object_id bucket name = None ->
  List.filter (SqlImageMetadataStore.has_id (DeleteImage.object_id bucket name))
    (Backends.metadata_store b) = [] ->
  DeleteImage.outcome (DeleteImage.delete_image bucket name DeleteImage.no_faults schedule b)
  = Some r ->
  r = inl (HTTPException 404).
Proof.
  intros Ho Hm Hout.
  destruct (delete_image_ok bucket name DeleteImage.no_faults schedule b)
    as (Hf & Hg & [Hso Hsm]).
  set (s := DeleteImage.delete_image _ _ _ _ _) in *.
  apply delete_object_absent in Ho. apply metadata_delete_absent in Hm.
  cbn [DeleteImage.on_delete_object DeleteImage.on_delete_metadata DeleteImage.no_faults]
    in Hso, Hsm.
  rewrite Ho in Hso. rewrite Hm in Hsm.
  unfold delete_frame_ok in Hf. unfold DeleteImage.outcome in Hout.
  destruct (DeleteImage.at_ s) as [|r'']; [discriminate|]. injection Hout as ->.
  unfold delete_gather_ok, delete_task_raised in Hg.
  destruct (DeleteImage.gather_exception s) as [e|].
  - assert (e = KeyError) as ->.
    { destruct Hg as [H | H]; rewrite H in *; [destruct Hso as [_ Hso] | destruct Hsm as [_ Hsm]];
        congruence. }
    exact Hf.
  - destruct Hf as (_ & H & _). rewrite H in Hso. discriminate.
Qed.

Section DeleteFirstFailure.
Import DeleteImage.
Variable bucket name : string.
Variable f : faults.

Lemma delete_gather_kept s ev e :
  gather_exception s = Some e -> gather_exception (step bucket name f s ev) = Some e.
Proof.
  intros He. destruct ev; simpl.
  - destruct (run_task _ _ _) as [t b]; simpl. now rewrite He.
  - destruct (run_task _ _ _) as [t b]; simpl. now rewrite He.
  - unfold resume. destruct (at_ s); [|exact He].
    rewrite He. destruct e; simpl; exact He.
Qed.

Lemma delete_gather_kept_run schedule s e :
  gather_exception s = Some e -> gather_exception (run bucket name f schedule s) = Some e.
Proof.
  revert s; induction schedule as [|ev evs IH]; intros s He; simpl; [exact He|].
  now apply IH, delete_gather_kept.
Qed.

(** The turn at which the first deletion fails: its exception is the one
    [gather] raises. *)
Lemma delete_first_step s ev error :
  delete_gather_ok s -> delete_none_failed s ->
  delete_task_raised (step bucket name f s ev) error ->
  gather_exception (step bucket name f s ev) = Some error.
Proof.
  unfold delete_gather_ok, delete_none_failed, delete_task_raised.
  intros Hg (N1 & N2).
  assert (gather_exception s = None) as Hnone.
  { destruct (gather_exception s) as [e|]; [|reflexivity]. exfalso.
    destruct Hg as [H | H]; [apply N1 | apply N2]; exists e; exact H. }
  assert (Hno : forall e, object_task s = Finished (inl e)
                          \/ metadata_task s = Finished (inl e) -> False).
  { intros e [H | H]; [apply N1 | apply N2]; exists e; exact H. }
  destruct ev; simpl.
  - task_turn; simpl; rewrite Hnone; simpl.
    + intros Hr. exfalso. exact (Hno _ Hr).
    + intros [Hr | Hr]; [congruence|]; exfalso; apply (Hno error); auto.
    + intros [Hr | Hr]; [discriminate|]; exfalso; apply (Hno error); auto.
  - task_turn; simpl; rewrite Hnone; simpl.
    + intros Hr. exfalso. exact (Hno _ Hr).
    + intros [Hr | Hr]; [|congruence]; exfalso; apply (Hno error); auto.
    + intros [Hr | Hr]; [|discriminate]; exfalso; apply (Hno error); auto.
  - destruct (delete_resume_backends s) as (_ & -> & ->).
    intros Hr. exfalso. exact (Hno _ Hr).
Qed.

Lemma delete_first_failure_gather b schedule error :
  delete_first_failure bucket name f b schedule error ->
  gather_exception (delete_image bucket name f schedule b) = Some error.
Proof.
  intros (before & ev & after & -> & Hnone & Hraised).
  destruct (delete_image_ok bucket name f before b) as (_ & Hg & _).
  unfold delete_image, run in *. rewrite fold_left_app in *. simpl in *.
  apply delete_gather_kept_run. now apply delete_first_step.
Qed.

Lemma delete_failed_or_not s : (exists e, delete_task_raised s e) \/ delete_none_failed s.
Proof.
  unfold delete_task_raised, delete_none_failed, failed.
  destruct (object_task s) as [|[e1|]|]; [| left; eauto | |];
    (destruct (metadata_task s) as [|[e2|]|]; [| left; eauto | |]);
    right; repeat split; intros [e H]; discriminate.
Qed.

(** A run in which a deletion has failed has a first failure. *)
Lemma delete_first_failure_exists b schedule e :
  delete_task_raised (delete_image bucket name f schedule b) e ->
  exists error, delete_first_failure bucket name f b schedule error.
Proof.
  revert e. induction schedule as [|ev schedule IH] using rev_ind; intros e Hr.
  - destruct Hr as [H | H]; discriminate.
  - destruct (delete_failed_or_not (delete_image bucket name f schedule b))
      as [[e' He'] | Hnone].
    + destruct (IH _ He') as (error & before & ev0 & after & -> & H1 & H2).
      exists error, before, ev0, (after ++ [ev]).
      split; [now rewrite <- app_assoc | auto].
    + exists e, schedule, ev, []. auto.
Qed.

End DeleteFirstFailure.

(** C6, as amended.  Let the deletion have answered [r].  What the caller
    gets follows from the first failure of the run, the failure of the
    deletion that fails when neither has failed before: if it is a
    not-found, the call fails with the 404 not-found; if it is a failure
    for another reason, that error is what the caller gets, also when the
    other deletion reports not-found afterwards.  Every run in which a
    deletion failed has a first failure; in particular, when one of them
    reports not-found and none fails for another reason the call fails
    not-found.  There is no partial success: the call succeeds only when
    both deletions did, and a not-found is reported even when the other side
    was deleted.  After a successful deletion both entries are gone, and a
    second, fault-free deletion of the same reference answers 404 under
    every schedule.  The endpoint does answer once its tasks have run. *)
Theorem delete_image_not_found bucket name f schedule b r :
  let object_id := DeleteImage.object_id bucket name in
  let s := DeleteImage.delete_image bucket name f schedule b in
  DeleteImage.outcome s = Some r ->
  (forall error,
     delete_first_failure bucket name f b schedule error ->
     r = inl (if decide (error = KeyError) then HTTPException 404 else error))
  /\ (forall e,
        delete_task_raised s e ->
        exists error, delete_first_failure bucket name f b schedule error)
  /\ (delete_task_raised s KeyError ->
      (forall e, delete_task_raised s e -> e = KeyError) ->
      r = inl (HTTPException 404))
  /\ (forall e, delete_task_raised s e -> r <> inr tt)
  /\ (r = inr tt ->
      DeleteImage.object_task s = Finished (inr tt)
      /\ DeleteImage.metadata_task s = Finished (inr tt)
      /\ Backends.object_store (DeleteImage.backends s) !! object_id = None
      /\ SqlImageMetadataStore.get None (Backends.metadata_store (DeleteImage.backends s))
           object_id = inl KeyError
      /\ forall schedule' r',
           DeleteImage.outcome
             (DeleteImage.delete_image bucket name DeleteImage.no_faults schedule'
                (DeleteImage.backends s)) = Some r' ->
           r' = inl (HTTPException 404))
  /\ DeleteImage.outcome (DeleteImage.delete_image bucket name f DeleteImage.tasks_first b)
     <> None.
Proof.
  intros object_id s Hout.
  destruct (delete_image_ok bucket name f schedule b) as (Hf & Hg & [Hso Hsm]).
  fold s in Hf, Hg, Hso, Hsm. fold object_id in Hso, Hsm.
  unfold delete_frame_ok in Hf. unfold DeleteImage.outcome in Hout.
  destruct (DeleteImage.at_ s) as [|r'']; [discriminate|]. injection Hout as ->.
  unfold delete_gather_ok in Hg.
  assert (Hgather : forall error, DeleteImage.gather_exception s = Some error ->
            delete_task_raised s error
            /\ r = inl (if decide (error = KeyError) then HTTPException 404 else error)).
  { intros error He. rewrite He in Hf, Hg. split; [exact Hg|].
    destruct error; simpl; exact Hf. }
  assert (Hnone : DeleteImage.gather_exception s = None ->
            r = inr tt /\ DeleteImage.object_task s = Finished (inr tt)
            /\ DeleteImage.metadata_task s = Finished (inr tt)).
  { intros He. now rewrite He in Hf. }
  assert (Hsome : forall e, delete_task_raised s e ->
            exists error, DeleteImage.gather_exception s = Some error).
  { intros e He. destruct (DeleteImage.gather_exception s) as [error|]; [eauto|].
    exfalso. destruct Hg as [G1 G2].
    destruct He as [H | H]; [apply G1 | apply G2]; exists e; exact H. }
  split; [|split; [|split; [|split; [|split]]]].
  - intros error Hfirst. apply Hgather.
    now apply delete_first_failure_gather.
  - intros e. apply delete_first_failure_exists.
  - intros Hk Honly. destruct (Hsome _ Hk) as [error He].
    destruct (Hgather _ He) as [Hr ->].
    rewrite (Honly _ Hr). reflexivity.
  - intros e He. destruct (Hsome _ He) as [error Hge].
    destruct (Hgather _ Hge) as [_ ->]. discriminate.
  - intros ->.
    destruct (DeleteImage.gather_exception s) as [error|] eqn:Hge.
    { destruct (Hgather _ eq_refl) as [_ H]. discriminate. }
    destruct (Hnone eq_refl) as (_ & Ho & Hm).
    rewrite Ho in Hso. rewrite Hm in Hsm.
    apply delete_object_gone in Hso. apply metadata_delete_gone in Hsm.
    repeat split; auto.
    + unfold SqlImageMetadataStore.get, SqlImageMetadataStore.__get_by_id; simpl.
      now rewrite Hsm.
    + intros schedule' r'. now apply delete_absent_image.
  - apply delete_image_answers.
Qed.

(** The metadata store reports not-found, yet the caller is not told
    not-found: the object store failed first, for another reason, and
    [except KeyError] does not catch that. *)
Lemma delete_not_found_not_as_stated :
  DeleteImage.metadata_task delete_store_error_first = Finished (inl KeyError)
  /\ DeleteImage.outcome delete_store_error_first = Some (inl ObjectOperationError)
  /\ ~ delete_as_stated delete_store_error_first.
Proof.
  split; [reflexivity|]. split; [reflexivity|].
  intros H.
  assert (Hk : delete_task_raised delete_store_error_first KeyError) by (right; reflexivity).
  specialize (H Hk). vm_compute in H. discriminate.
Qed.

Lemma delete_image_not_found_witness :
  DeleteImage.outcome delete_half_present = Some (inl (HTTPException 404))
  /\ Backends.object_store (DeleteImage.backends delete_half_present) !! sample_id = None
  /\ delete_first_failure "images" "0f3a" DeleteImage.no_faults
       (Backends.mk {[ sample_id := [Byte.x89] ]} []) DeleteImage.tasks_first KeyError
  /\ @inl exn unit (HTTPException 404)
     = inl (if decide (KeyError = KeyError) then HTTPException 404 else KeyError).
Proof.
  assert (Ho : DeleteImage.outcome delete_half_present = Some (inl (HTTPException 404)))
    by reflexivity.
  assert (Hfirst : delete_first_failure "images" "0f3a" DeleteImage.no_faults
                     (Backends.mk {[ sample_id := [Byte.x89] ]} [])
                     DeleteImage.tasks_first KeyError).
  { exists [DeleteImage.RunObjectTask], DeleteImage.RunMetadataTask, [DeleteImage.Resume].
    split; [reflexivity|]. split; [|right; reflexivity].
    split; intros [e He]; vm_compute in He; discriminate. }
  split; [exact Ho|]. split; [reflexivity|]. split; [exact Hfirst|].
  exact (proj1 (delete_image_not_found "images" "0f3a" _ _ _ _ Ho) KeyError Hfirst).
Defined.

(** ** [get_image] *)

Section GetInvariants.
Import GetImage.
Variable bucket name : string.
Variable f : faults.

Lemma get_frame_ok_step s ev :
  get_frame_ok s -> get_gather_ok s -> get_frame_ok (step bucket name f s ev).
Proof.
  unfold get_frame_ok, get_gather_ok, get_task_raised, nothing_pending. intros Hf Hg.
  destruct ev; simpl.
  - task_turn; simpl.
    + destruct (at_ s), (gather_exception s), (object_task s) as [|[]|]; settle.
    + destruct (at_ s), (gather_exception s) as [[]|]; settle;
        destruct Hf as (? & ? & ? & ? & ?); congruence.
    + destruct (at_ s), (gather_exception s) as [[]|]; settle;
        destruct Hf as (? & ? & ? & ? & ?); congruence.
  - task_turn; simpl.
    + destruct (at_ s), (gather_exception s), (metadata_task s) as [|[]|]; settle.
    + destruct (at_ s), (gather_exception s) as [[]|]; settle;
        destruct Hf as (? & ? & ? & ? & ?); congruence.
    + destruct (at_ s), (gather_exception s) as [[]|]; settle;
        destruct Hf as (? & ? & ? & ? & ?); congruence.
  - unfold resume. destruct (at_ s) eqn:Hat; [|now rewrite Hat].
    destruct (gather_exception s) as [[]|] eqn:Hge; simpl; rewrite ?Hge; simpl; auto.
    + split; [reflexivity|]. split; apply cancel_not_pending.
    + destruct (succeeded (object_task s)) as [image_stream|] eqn:H1; [|now rewrite Hat].
      destruct (succeeded (metadata_task s)) as [metadata|] eqn:H2; [|now rewrite Hat].
      apply succeeded_inv in H1, H2.
      destruct (UavImageMetadata.format metadata) eqn:Hfmt; simpl; rewrite Hge;
        exists image_stream, metadata; unfold streaming_response; rewrite Hfmt; auto.
Qed.

Lemma get_gather_ok_step s ev : get_gather_ok s -> get_gather_ok (step bucket name f s ev).
Proof.
  unfold get_gather_ok, get_task_raised. intros Hg.
  destruct ev; simpl.
  - task_turn; simpl.
    + destruct (gather_exception s), (object_task s) as [|[]|]; settle.
    + destruct (gather_exception s); settle.
    + destruct (gather_exception s); settle.
  - task_turn; simpl.
    + destruct (gather_exception s), (metadata_task s) as [|[]|]; settle.
    + destruct (gather_exception s); settle.
    + destruct (gather_exception s); settle.
  - unfold resume. destruct (at_ s); simpl; auto.
    destruct (gather_exception s) as [[]|] eqn:Hge; simpl; rewrite ?Hge; auto.
    + destruct Hg as [H | H]; [left | right]; now apply cancel_finished.
    + destruct (succeeded (object_task s)), (succeeded (metadata_task s));
        simpl; rewrite ?Hge; auto.
      destruct (UavImageMetadata.format _); simpl; rewrite Hge; auto.
Qed.

Lemma get_stores_ok_step b s ev :
  get_stores_ok (object_id bucket name) f b s ->
  get_stores_ok (object_id bucket name) f b (step bucket name f s ev).
Proof.
  unfold get_stores_ok. intros (Hb & Ho & Hm).
  destruct ev; simpl.
  - task_turn; simpl; auto.
    + repeat split; auto. intros r [= <-].
      unfold get_object, bind in H0. rewrite Hb in H0.
      destruct (ObjectStore.get_object _ _ _); congruence.
    + unfold get_object, bind in H0. rewrite Hb in H0.
      destruct (ObjectStore.get_object _ _ _) eqn:Hd; [discriminate|].
      injection H0 as <- <-. repeat split; auto. now intros r [= <-].
  - task_turn; simpl; auto.
    + repeat split; auto. intros r [= <-].
      unfold metadata_get, bind in H0. rewrite Hb in H0.
      destruct (SqlImageMetadataStore.get _ _ _); congruence.
    + unfold metadata_get, bind in H0. rewrite Hb in H0.
      destruct (SqlImageMetadataStore.get _ _ _) eqn:Hd; [discriminate|].
      injection H0 as <- <-. repeat split; auto. now intros r [= <-].
  - unfold resume. destruct (at_ s); auto.
    destruct (gather_exception s) as [[]|]; auto.
    + simpl. repeat split; auto.
      * intros r Hr. apply Ho. destruct (object_task s); simpl in Hr; congruence.
      * intros r Hr. apply Hm. destruct (metadata_task s); simpl in Hr; congruence.
    + destruct (succeeded (object_task s)), (succeeded (metadata_task s)); auto.
      destruct (UavImageMetadata.format _); auto.
Qed.

Lemma get_image_ok schedule b :
  let s := get_image bucket name f schedule b in
  get_frame_ok s /\ get_gather_ok s /\ get_stores_ok (object_id bucket name) f b s.
Proof.
  unfold get_image.
  assert (H : get_frame_ok (start b) /\ get_gather_ok (start b)
              /\ get_stores_ok (object_id bucket name) f b (start b)).
  { unfold get_frame_ok, get_gather_ok, get_stores_ok; simpl.
    repeat split; try discriminate; intros [e He]; discriminate. }
  revert H. generalize (start b).
  induction schedule as [|ev evs IH]; intros s (Hf & Hg & Hs); simpl; [auto|].
  apply IH. auto using get_frame_ok_step, get_gather_ok_step, get_stores_ok_step.
Qed.


(** The endpoint has answered once both tasks have run and it is resumed. *)
Lemma get_image_answers b : outcome (get_image bucket name f tasks_first b) <> None.
Proof.
  unfold get_image, tasks_first, run. simpl.
  destruct (get_object (on_get_object f) (object_id bucket name) b)
    as [e1|[image_stream b1]]; simpl;
    match goal with
    | |- context [metadata_get ?a ?i ?b'] =>
        destruct (metadata_get a i b') as [e2|[metadata b2]]; simpl
    end;
    unfold resume; simpl; try discriminate;
    repeat match goal with |- context [match ?e with _ => _ end] => destruct e; simpl end;
    discriminate.
Qed.

End GetInvariants.

Section GetFirstFailure.
Import GetImage.
Variable bucket name : string.
Variable f : faults.











End GetFirstFailure.




(** ** Thumbnails *)

Lemma string_length_append (s t : string) :
  String.length (s ++ t) = (String.length s + String.length t)%nat.
Proof. induction s as [|c s IH]; simpl; [reflexivity | now rewrite IH]. Qed.

Lemma thumbnail_id_spec object_id :
  ObjectRef.bucket (_thumbnail_id object_id) = ObjectRef.bucket object_id
  /\ ObjectRef.name (_thumbnail_id object_id)
     = (ObjectRef.name object_id ++ ".thumbnail")%string.
Proof. split; reflexivity. Qed.

Lemma thumbnail_id_neq object_id : _thumbnail_id object_id <> object_id.
Proof.
  destruct object_id as [bucket name]. unfold _thumbnail_id; simpl. intros [= H].
  apply (f_equal String.length) in H. rewrite string_length_append in H. simpl in H. lia.
Qed.

(** [delete_image] only ever removes the entry of the image itself from the
    object store. *)
Lemma delete_image_other_objects bucket name f schedule b other :
  other <> DeleteImage.object_id bucket name ->
  Backends.object_store
    (DeleteImage.backends (DeleteImage.delete_image bucket name f schedule b)) !! other
  = Backends.object_store b !! other.
Proof.
  intros Hne.
  destruct (delete_image_ok bucket name f schedule b) as (_ & _ & [Hso _]).
  destruct (DeleteImage.object_task _) as [|[e|u]|].
  - now rewrite Hso.
  - destruct Hso as [-> _]. reflexivity.
  - unfold ObjectStore.delete_object, with_fault in Hso.
    destruct (DeleteImage.on_delete_object f); [discriminate|].
    destruct (Backends.object_store b !! _); [|discriminate].
    injection Hso as <-. now apply lookup_delete_ne.
  - contradiction.
Qed.

(** C8.  The thumbnail is not deleted with its image.  [delete_image]
    leaves the entry of the thumbnail of the image it deletes as it found
    it, whatever the schedule and the faults; in the sample run, after a
    successful create and a successful delete of the image, the image and
    its metadata are gone and the thumbnail is still stored. *)
Theorem delete_image_keeps_thumbnail :
  (forall bucket name f schedule b,
     let object_id := DeleteImage.object_id bucket name in
     Backends.object_store
       (DeleteImage.backends (DeleteImage.delete_image bucket name f schedule b))
       !! _thumbnail_id object_id
     = Backends.object_store b !! _thumbnail_id object_id)
  /\ CreateUavImage.outcome create_success = Some (inr sample_id)
  /\ DeleteImage.outcome delete_after_create = Some (inr tt)
  /\ Backends.object_store (DeleteImage.backends delete_after_create) !! sample_id = None
  /\ Backends.metadata_store (DeleteImage.backends delete_after_create) = []
  /\ Backends.object_store (DeleteImage.backends delete_after_create)
       !! _thumbnail_id sample_id
     = Some (sample_thumbnailer (CreateUavImage.image_data sample_request)).
Proof.
  split.
  - intros. apply delete_image_other_objects, thumbnail_id_neq.
  - repeat split; vm_compute; reflexivity.
Qed.

(** ** Failed creates *)

(** C2.  A failed create can leave an object behind although its
    compensation succeeded.  In the sample run the thumbnail write fails
    with [ObjectOperationError] after the two other writes succeeded: the
    handler deletes the metadata record, that deletion succeeds, the
    original error is raised, and the main object is still in the object
    store. *)
Theorem create_failure_leaves_object :
  CreateUavImage.outcome create_thumbnail_failure = Some (inl ObjectOperationError)
  /\ CreateUavImage.rollback create_thumbnail_failure = [(DeleteMetadata sample_id, None)]
  /\ Backends.metadata_store (CreateUavImage.backends create_thumbnail_failure) = []
  /\ Backends.object_store (CreateUavImage.backends create_thumbnail_failure)
       !! _thumbnail_id sample_id = None
  /\ Backends.object_store (CreateUavImage.backends create_thumbnail_failure) !! sample_id
     = Some (CreateUavImage.image_data sample_request).
Proof. repeat split; vm_compute; reflexivity. Qed.

Section CreateStores.
Import CreateUavImage.
Variable _create_thumbnail : bytes -> bytes.
Variable req : request.
Variable f : faults.

Lemma create_object_inv fault object_id data b b' :
  create_object fault object_id data b = inr (tt, b') ->
  Backends.object_store b' = <[object_id := data]> (Backends.object_store b)
  /\ Backends.metadata_store b' = Backends.metadata_store b.
Proof.
  unfold create_object, ObjectStore.create_object, with_fault, bind.
  destruct fault; [discriminate|]. intros [= <-]. auto.
Qed.

Lemma delete_object_inv fault object_id b b' :
  delete_object fault object_id b = inr (tt, b') ->
  Backends.object_store b' = delete object_id (Backends.object_store b)
  /\ Backends.metadata_store b' = Backends.metadata_store b.
Proof.
  unfold delete_object, ObjectStore.delete_object, with_fault, bind.
  destruct fault; [discriminate|].
  destruct (Backends.object_store b !! object_id); [|discriminate].
  intros [= <-]. auto.
Qed.

Lemma metadata_add_inv fault object_id metadata b b' :
  metadata_add fault object_id metadata b = inr (tt, b') ->
  Backends.object_store b' = Backends.object_store b
  /\ SqlImageMetadataStore.get None (Backends.metadata_store b') object_id = inr metadata.
Proof.
  unfold metadata_add, bind.
  destruct (SqlImageMetadataStore.add _ _ _ _) as [e|table] eqn:Hadd; [discriminate|].
  intros [= <-]. split; [reflexivity|]. simpl.
  exact (get_returns_added _ _ _ _ _ Hadd).
Qed.

Lemma metadata_delete_inv fault object_id b b' :
  metadata_delete fault object_id b = inr (tt, b') ->
  Backends.object_store b' = Backends.object_store b.
Proof.
  unfold metadata_delete, bind.
  destruct (SqlImageMetadataStore.delete _ _ _); [discriminate|]. now intros [= <-].
Qed.

Lemma create_stores_ok_step s ev :
  create_stores_ok _create_thumbnail req s ->
  create_stores_ok _create_thumbnail req (step _create_thumbnail req f s ev).
Proof.
  unfold create_stores_ok. intros (Ho & Ht & Hm).
  pose proof (thumbnail_id_neq (object_id req)) as Hne.
  fold (thumbnail_object_id req) in Hne.
  destruct ev; simpl.
  - task_turn; simpl; auto.
    + repeat split; auto; discriminate.
    + destruct x. apply create_object_inv in H0 as [-> ->].
      repeat split; auto; intros.
      * apply lookup_insert_eq.
      * rewrite lookup_insert_ne by congruence. auto.
  - task_turn; simpl; auto.
    + repeat split; auto; discriminate.
    + destruct x. apply metadata_add_inv in H0 as [-> Hget].
      repeat split; auto.
  - task_turn; simpl; auto.
    + repeat split; auto; discriminate.
    + destruct x. unfold _create_and_save_thumbnail in H0.
      apply create_object_inv in H0 as [-> ->].
      repeat split; auto; intros.
      * rewrite lookup_insert_ne by congruence. auto.
      * apply lookup_insert_eq.
  - unfold resume. destruct (at_ s) eqn:Hat.
    + destruct (gather_exception s) as [[]|]; simpl; auto.
      destruct (succeeded (object_task s)), (succeeded (metadata_task s)),
        (succeeded (thumbnail_task s)); simpl; auto.
    + unfold rollback_step.
      destruct (delete_object _ _ _) as [e|[[] b']] eqn:Hd; simpl.
      * repeat split; intros Hin; [apply Ho | apply Ht | apply Hm];
          intros Hin'; apply Hin, in_or_app; now left.
      * apply delete_object_inv in Hd as [-> ->].
        repeat split; intros Hin.
        -- exfalso. apply Hin, in_or_app. right; now left.
        -- intros. rewrite lookup_delete_ne by congruence.
           apply Ht; auto. intros Hin'; apply Hin, in_or_app; now left.
        -- apply Hm. intros Hin'; apply Hin, in_or_app; now left.
    + unfold rollback_step.
      destruct (delete_object _ _ _) as [e|[[] b']] eqn:Hd; simpl.
      * repeat split; intros Hin; [apply Ho | apply Ht | apply Hm];
          intros Hin'; apply Hin, in_or_app; now left.
      * apply delete_object_inv in Hd as [-> ->].
        repeat split; intros Hin.
        -- intros. rewrite lookup_delete_ne by congruence.
           apply Ho; auto. intros Hin'; apply Hin, in_or_app; now left.
        -- exfalso. apply Hin, in_or_app. right; now left.
        -- apply Hm. intros Hin'; apply Hin, in_or_app; now left.
    + unfold rollback_step.
      destruct (metadata_delete _ _ _) as [e|[[] b']] eqn:Hd; simpl.
      * repeat split; intros Hin; [apply Ho | apply Ht | apply Hm];
          intros Hin'; apply Hin, in_or_app; now left.
      * apply metadata_delete_inv in Hd as ->.
        repeat split; intros Hin.
        -- apply Ho. intros Hin'; apply Hin, in_or_app; now left.
        -- apply Ht. intros Hin'; apply Hin, in_or_app; now left.
        -- exfalso. apply Hin, in_or_app. right; now left.
    + auto.
Qed.

Lemma create_uav_image_stores_ok schedule b :
  create_stores_ok _create_thumbnail req (create_uav_image _create_thumbnail req f schedule b).
Proof.
  unfold create_uav_image.
  assert (H : create_stores_ok _create_thumbnail req (start b))
    by (unfold create_stores_ok; simpl; repeat split; discriminate).
  revert H. generalize (start b).
  induction schedule as [|ev evs IH]; intros s Hs; simpl; [exact Hs|].
  apply IH, create_stores_ok_step, Hs.
Qed.

End CreateStores.

(** A create that returns has stored the object, its thumbnail under the
    derived reference, and the metadata record. *)
Lemma create_uav_image_success _create_thumbnail req f schedule b object_id :
  let s := CreateUavImage.create_uav_image _create_thumbnail req f schedule b in
  CreateUavImage.outcome s = Some (inr object_id) ->
  object_id = CreateUavImage.object_id req
  /\ Backends.object_store (CreateUavImage.backends s) !! object_id
     = Some (CreateUavImage.image_data req)
  /\ Backends.object_store (CreateUavImage.backends s) !! _thumbnail_id object_id
     = Some (_create_thumbnail (CreateUavImage.image_data req))
  /\ SqlImageMetadataStore.get None (Backends.metadata_store (CreateUavImage.backends s))
       object_id = inr (CreateUavImage.metadata req).
Proof.
  intros s Hout.
  destruct (create_start_ok req b) as [Hf0 Hg0].
  destruct (create_run_ok _create_thumbnail req f schedule _ Hf0 Hg0) as [Hf _].
  pose proof (create_uav_image_stores_ok _create_thumbnail req f schedule b)
    as (Ho & Ht & Hm).
  fold (CreateUavImage.create_uav_image _create_thumbnail req f schedule b) in Hf.
  fold s in Hf, Ho, Ht, Hm.
  unfold create_frame_ok in Hf. unfold CreateUavImage.outcome in Hout.
  destruct (CreateUavImage.at_ s) as [| | | |r]; try discriminate.
  injection Hout as ->.
  destruct (CreateUavImage.gather_exception s) as [error|].
  - exfalso. unfold rollback_of in Hf.
    destruct error; simpl in Hf;
      repeat match goal with
             | H : _ \/ _ |- _ => destruct H
             | H : _ /\ _ |- _ => destruct H
             | H : exists _, _ |- _ => destruct H
             end; discriminate.
  - destruct Hf as (Hr & Hlog & H1 & H2 & H3). injection Hr as ->.
    rewrite Hlog in Ho, Ht, Hm. simpl in Ho, Ht, Hm.
    repeat split; auto.
Qed.

(** When the handler of [ObjectOperationError] has run, nothing was deleted
    from the object store: an object or thumbnail that was written stays. *)
Lemma object_failure_keeps_objects _create_thumbnail req f schedule b r :
  let s := CreateUavImage.create_uav_image _create_thumbnail req f schedule b in
  CreateUavImage.outcome s = Some r ->
  CreateUavImage.gather_exception s = Some ObjectOperationError ->
  (CreateUavImage.object_task s = Finished (inr tt) ->
   Backends.object_store (CreateUavImage.backends s) !! CreateUavImage.object_id req
   = Some (CreateUavImage.image_data req))
  /\ (CreateUavImage.thumbnail_task s = Finished (inr tt) ->
      Backends.object_store (CreateUavImage.backends s)
        !! CreateUavImage.thumbnail_object_id req
      = Some (_create_thumbnail (CreateUavImage.image_data req))).
Proof.
  intros s Hout Hge.
  destruct (create_answered _create_thumbnail req f schedule b r _ Hout Hge) as [_ Hlog].
  fold s in Hlog.
  pose proof (create_uav_image_stores_ok _create_thumbnail req f schedule b)
    as (Ho & Ht & _).
  fold s in Ho, Ht.
  assert (Hnone : forall x, ~ In (DeleteObject x, None) (CreateUavImage.rollback s)).
  { intros x Hin. simpl in Hlog.
    destruct Hlog as [[Hl _] | [e [Hl _]]]; rewrite Hl in Hin; simpl in Hin;
      destruct Hin as [Hin | []]; discriminate. }
  split; [apply Ho | apply Ht]; apply Hnone.
Qed.

(** ** Sample applications *)

Lemma get_after_add_witness :
  SqlImageMetadataStore.add None [] sample_id (sample_metadata "field")
  = inr [sample_row "0f3a" "field"]
  /\ SqlImageMetadataStore.get None [sample_row "0f3a" "field"] sample_id
     = inr (sample_metadata "field").
Proof.
  split; [reflexivity|].
  exact (proj1 (get_after_add None [] sample_id (sample_metadata "field") _ eq_refl)).
Defined.

Lemma bounding_box_query_witness :
  ImageQuery.bounding_box box_query = Some sample_box
  /\ Z.of_nat (length sample_table) <= 500
  /\ exists rows,
       SqlImageMetadataStore.query nocase_engine sample_table box_query [] 0 500
       = inr (map SqlImageMetadataStore.object_ref rows)
       /\ (forall row lat lon,
            Image.location_lat row = Some lat ->
            Image.location_lon row = Some lon ->
            In row rows <->
            In row sample_table
            /\ ((30 # 1) <= lat /\ lat <= (40 # 1)
                /\ - (90 # 1) <= lon /\ lon <= - (80 # 1))%Q
            /\ fields_match nocase_engine box_query row = true)
       /\ forall row,
            In row rows ->
            Image.location_lat row <> None /\ Image.location_lon row <> None.
Proof.
  split; [reflexivity|]. split; [simpl; lia|].
  apply (bounding_box_query nocase_engine sample_table box_query [] 500);
    [reflexivity | simpl; lia].
Defined.

Lemma query_images_pagination_witness :
  0 < 2 /\ 0 < 3
  /\ complete_box (ImageQuery.bounding_box ImageQuery.empty)
  /\ exists resp,
       query_images nocase_engine (Backends.mk ∅ sample_table) ImageQuery.empty [] 2 3
       = inr resp
       /\ QueryResponse.image_ids resp = []
       /\ QueryResponse.is_last_page resp = true.
Proof.
  split; [lia|]. split; [lia|]. split; [exact I|].
  destruct (query_images_pagination nocase_engine (Backends.mk ∅ sample_table)
              ImageQuery.empty [] 2 3)
    as (matches & resp & _ & _ & Hq & _ & _ & _ & _ & Hk); [lia | lia | exact I |].
  exists resp. split; [exact Hq|].
  apply (Hk 2); reflexivity.
Defined.

(** * Further properties *)

(** ** Thumbnail references *)

Lemma string_app_inv_tail (s t suffix : string) :
  (s ++ suffix)%string = (t ++ suffix)%string -> s = t.
Proof.
  intros H. apply (f_equal list_ascii_of_string) in H.
  rewrite !list_ascii_of_string_app in H. apply app_inv_tail in H.
  rewrite <- (string_of_list_ascii_of_string s), H.
  apply string_of_list_ascii_of_string.
Qed.

(** X1.  Thumbnail references never clash: two different images have
    different thumbnail references, and the thumbnail of an image is never
    stored under the reference of the image itself. *)
Theorem thumbnail_id_injective a b :
  (_thumbnail_id a = _thumbnail_id b -> a = b) /\ _thumbnail_id a <> a.
Proof.
  split; [|apply thumbnail_id_neq].
  destruct a as [ba na], b as [bb nb]. unfold _thumbnail_id; simpl.
  intros [= -> H]. f_equal. exact (string_app_inv_tail _ _ _ H).
Qed.

(** ** Records of the metadata store, one by one *)

Lemma has_id_iff object_id row :
  SqlImageMetadataStore.has_id object_id row = true
  <-> SqlImageMetadataStore.object_ref row = object_id.
Proof.
  split; [apply has_id_object_ref|].
  intros <-. unfold SqlImageMetadataStore.has_id, SqlImageMetadataStore.object_ref; simpl.
  now rewrite !String.eqb_refl.
Qed.

Lemma has_id_other object_id other row :
  other <> object_id ->
  SqlImageMetadataStore.has_id object_id row = true ->
  SqlImageMetadataStore.has_id other row = false.
Proof.
  intros Hne H. apply has_id_iff in H.
  destruct (SqlImageMetadataStore.has_id other row) eqn:Ho; [|reflexivity].
  apply has_id_iff in Ho. congruence.
Qed.

Lemma filter_other_after_delete_row object_id other table image :
  other <> object_id ->
  SqlImageMetadataStore.object_ref image = object_id ->
  List.filter (SqlImageMetadataStore.has_id other)
    (SqlImageMetadataStore.delete_row table image)
  = List.filter (SqlImageMetadataStore.has_id other) table.
Proof.
  intros Hne Hid. unfold SqlImageMetadataStore.delete_row. rewrite Hid.
  induction table as [|row table IH]; simpl; [reflexivity|].
  destruct (SqlImageMetadataStore.has_id object_id row) eqn:Hrow; simpl.
  - now rewrite (has_id_other _ _ _ Hne Hrow).
  - now rewrite IH.
Qed.

Lemma delete_inv fault table object_id table' :
  SqlImageMetadataStore.delete fault table object_id = inr table' ->
  fault = None
  /\ exists image,
       SqlImageMetadataStore.__get_by_id table object_id = inr image
       /\ table' = SqlImageMetadataStore.delete_row table image.
Proof.
  unfold SqlImageMetadataStore.delete, with_fault, bind.
  destruct fault; [discriminate|].
  destruct (SqlImageMetadataStore.__get_by_id table object_id) as [|image]; [discriminate|].
  intros [= <-]. eauto.
Qed.

Lemma get_by_id_other_after_add fault table object_id m table' other :
  SqlImageMetadataStore.add fault table object_id m = inr table' ->
  other <> object_id ->
  SqlImageMetadataStore.__get_by_id table' other
  = SqlImageMetadataStore.__get_by_id table other.
Proof.
  intros Hadd Hne. apply add_inv in Hadd as (_ & _ & ->).
  unfold SqlImageMetadataStore.__get_by_id. rewrite List.filter_app. simpl.
  rewrite (has_id_other object_id other _ Hne (has_id_pydantic_to_orm_image _ _)).
  now rewrite app_nil_r.
Qed.

Lemma get_by_id_other_after_delete fault table object_id table' other :
  SqlImageMetadataStore.delete fault table object_id = inr table' ->
  other <> object_id ->
  SqlImageMetadataStore.__get_by_id table' other
  = SqlImageMetadataStore.__get_by_id table other.
Proof.
  intros Hdel Hne. apply delete_inv in Hdel as (_ & image & Hrow & ->).
  unfold SqlImageMetadataStore.__get_by_id.
  now rewrite (filter_other_after_delete_row object_id other table image Hne
                 (get_by_id_object_ref _ _ _ Hrow)).
Qed.

(** X2.  [add] and [delete] only touch the record of their own reference:
    after either, [get] of any other reference answers what it answered
    before. *)
Theorem store_keeps_other_records fault table object_id table' other :
  other <> object_id ->
  (forall m, SqlImageMetadataStore.add fault table object_id m = inr table' ->
     SqlImageMetadataStore.get None table' other = SqlImageMetadataStore.get None table other)
  /\ (SqlImageMetadataStore.delete fault table object_id = inr table' ->
      SqlImageMetadataStore.get None table' other = SqlImageMetadataStore.get None table other).
Proof.
  intros Hne. unfold SqlImageMetadataStore.get, with_fault. split.
  - intros m H. now rewrite (get_by_id_other_after_add _ _ _ _ _ _ H Hne).
  - intros H. now rewrite (get_by_id_other_after_delete _ _ _ _ _ H Hne).
Qed.

Lemma filter_negb_fresh {A : Type} (p : A -> bool) (l : list A) :
  existsb p l = false -> List.filter (fun x => negb (p x)) l = l.
Proof.
  induction l as [|x l IH]; simpl; [reflexivity|].
  destruct (p x); simpl; [discriminate|]. intros H. now rewrite IH.
Qed.

(** X3.  [delete] undoes [add]: deleting the reference that was just added
    gives back the table as it was, row for row. *)
Theorem delete_after_add fault table object_id m table' :
  SqlImageMetadataStore.add fault table object_id m = inr table' ->
  SqlImageMetadataStore.delete None table' object_id = inr table.
Proof.
  intros Hadd. pose proof (get_by_id_after_add _ _ _ _ _ Hadd) as Hrow.
  apply add_inv in Hadd as (_ & Hfresh & ->).
  unfold SqlImageMetadataStore.delete, with_fault, bind. rewrite Hrow. f_equal.
  unfold SqlImageMetadataStore.delete_row.
  rewrite object_ref_pydantic_to_orm_image, List.filter_app; simpl.
  rewrite has_id_pydantic_to_orm_image; simpl.
  now rewrite (filter_negb_fresh _ _ Hfresh), app_nil_r.
Qed.

(** X4.  Once [delete] has removed a record, the reference is unknown to
    the store: [get] raises [KeyError], and so does a second [delete]. *)
Theorem get_after_delete fault table object_id table' :
  SqlImageMetadataStore.delete fault table object_id = inr table' ->
  SqlImageMetadataStore.get None table' object_id = inl KeyError
  /\ SqlImageMetadataStore.delete None table' object_id = inl KeyError.
Proof.
  intros H. apply metadata_delete_gone in H.
  split; [|now apply metadata_delete_absent].
  unfold SqlImageMetadataStore.get, SqlImageMetadataStore.__get_by_id; simpl.
  now rewrite H.
Qed.

(** ** Values [__update_query] has no implementation for *)

(** X5.  The translation is all or nothing.  If one of the filter values
    has a type without a registered implementation, [_apply_query_updates]
    raises [NotImplementedError] and no query comes out; if none has, it
    returns the query with its clauses added. *)
Theorem apply_query_updates_unregistered updates query :
  (Exists unregistered updates ->
   SqlImageMetadataStore._apply_query_updates updates query = inl NotImplementedError)
  /\ (~ Exists unregistered updates ->
      SqlImageMetadataStore._apply_query_updates updates query
      = inr (Select.where_ query (flat_map field_clauses updates))).
Proof.
  split.
  - intros H; revert query; induction H as [[v c] us [z Hz] | [v c] us _ IH];
      intros query; simpl in *.
    + now subst v.
    + destruct v; simpl; auto.
  - intros H. apply apply_query_updates_clauses.
    apply Forall_forall. intros [v c] Hin Hnone; simpl in Hnone.
    apply H, Exists_exists. exists (v, c). split; [exact Hin|].
    destruct v; try discriminate. now exists z.
Qed.

(** ** What a query returns *)

(** X6.  A query has no false positive, whatever its orderings, its window
    and the engine.  It returns unless its bounding box lacks a coordinate
    (it then raises before it reaches the engine), and every reference it
    returns is the one of a row of the table whose attributes meet the
    filter of every field of the query and which lies within the box. *)
Theorem query_no_false_positive E table q orderings skip_first max_num_results :
  (complete_box (ImageQuery.bounding_box q) ->
   exists ids,
     SqlImageMetadataStore.query E table q orderings skip_first max_num_results = inr ids)
  /\ (~ complete_box (ImageQuery.bounding_box q) ->
      SqlImageMetadataStore.query E table q orderings skip_first max_num_results
      = inl ArgumentError)
  /\ forall ids id,
       SqlImageMetadataStore.query E table q orderings skip_first max_num_results = inr ids ->
       In id ids ->
       exists row,
         In row table
         /\ SqlImageMetadataStore.object_ref row = id
         /\ fields_match E q row = true
         /\ within_box (ImageQuery.bounding_box q) row = true.
Proof.
  split; [|split].
  - intros Hbox.
    destruct (query_page E table q orderings skip_first max_num_results Hbox)
      as (matches & _ & _ & Hq).
    eauto.
  - apply query_incomplete.
  - intros ids id Hq Hid.
    pose proof (query_returns _ _ _ _ _ _ _ Hq) as Hbox.
    destruct (query_page E table q orderings skip_first max_num_results Hbox)
      as (matches & Hperm & _ & Hq').
    rewrite Hq' in Hq. injection Hq as <-.
    apply in_map_iff in Hid as (row & <- & Hrow).
    apply in_window in Hrow. apply (in_matches _ _ _ _ row Hperm) in Hrow as [Hin Hm].
    unfold query_matches in Hm. apply andb_true_iff in Hm as [? ?]. eauto.
Qed.

Lemma query_whole E table q orderings max_num_results :
  complete_box (ImageQuery.bounding_box q) ->
  Z.of_nat (length table) <= max_num_results ->
  exists matches,
    matches ≡ₚ List.filter (query_matches E q) table
    /\ SqlImageMetadataStore.query E table q orderings 0 max_num_results
       = inr (map SqlImageMetadataStore.object_ref matches).
Proof.
  intros Hbox Hn.
  destruct (query_page E table q orderings 0 max_num_results Hbox)
    as (matches & Hperm & _ & Hq).
  exists matches. split; [exact Hperm|]. rewrite Hq. do 2 f_equal. simpl.
  apply firstn_all2. pose proof (matches_length _ _ _ _ Hperm). lia.
Qed.

Lemma filter_true {A : Type} (p : A -> bool) (l : list A) :
  (forall x, In x l -> p x = true) -> List.filter p l = l.
Proof.
  induction l as [|x l IH]; intros H; simpl; [reflexivity|].
  rewrite (H x (or_introl eq_refl)), IH; [reflexivity|].
  intros y Hy. apply H. now right.
Qed.

Lemma empty_query_whole E table orderings max_num_results :
  Z.of_nat (length table) <= max_num_results ->
  exists ids,
    SqlImageMetadataStore.query E table ImageQuery.empty orderings 0 max_num_results
    = inr ids
    /\ ids ≡ₚ map SqlImageMetadataStore.object_ref table.
Proof.
  intros Hn.
  destruct (query_whole E table ImageQuery.empty orderings max_num_results I Hn)
    as (matches & Hperm & Hq).
  eexists; split; [exact Hq|].
  apply Permutation_map. rewrite Hperm.
  rewrite filter_true; [reflexivity | intros row _; reflexivity].
Qed.

(** X7.  A query that specifies nothing selects everything: with no row
    skipped and a limit not below the size of the table, the references
    returned are those of all the rows of the table, each once. *)
Theorem empty_query_returns_all E table orderings max_num_results :
  Z.of_nat (length table) <= max_num_results ->
  exists ids,
    SqlImageMetadataStore.query E table ImageQuery.empty orderings 0 max_num_results
    = inr ids
    /\ ids ≡ₚ map SqlImageMetadataStore.object_ref table.
Proof. apply empty_query_whole. Qed.

Lemma fields_match_session E q r row :
  ImageQuery.session_numbers q = Some r ->
  fields_match E q row = true ->
  exists z, Image.session_number row = Some z
            /\ Range.min_value r <= z <= Range.max_value r.
Proof.
  intros Hr Hm. unfold fields_match in Hm. rewrite Hr in Hm.
  repeat (apply andb_true_iff in Hm as [Hm ?]).
  match goal with
  | H : between Z.leb (Some r) (Image.session_number row) = true |- _ => rename H into Hs
  end.
  unfold between in Hs.
  destruct (Image.session_number row) as [z|]; [|discriminate].
  apply andb_true_iff in Hs as [Hlo Hhi]. apply Z.leb_le in Hlo, Hhi. eauto.
Qed.

Lemma fields_match_session_query E lo hi row z :
  Image.session_number row = Some z -> lo <= z <= hi ->
  query_matches E (session_query lo hi) row = true.
Proof.
  intros Hz [H1 H2]. unfold query_matches, fields_match, session_query; simpl.
  rewrite Hz. apply Z.leb_le in H1, H2. now rewrite H1, H2.
Qed.

(** X8.  A range on the session number is inclusive at both ends and fails
    closed.  A query carrying the range returns unless its bounding box
    lacks a coordinate; whatever its other filters, its window and the
    engine, every reference it returns is the one of a row whose session
    number is set and lies between the two bounds, so a range whose maximum
    is below its minimum returns nothing.  When the range is the only filter
    and the window is the whole table, every row in the range is
    returned. *)
Theorem session_range_filter E table q r orderings skip_first max_num_results :
  ImageQuery.session_numbers q = Some r ->
  (complete_box (ImageQuery.bounding_box q) ->
   exists ids,
     SqlImageMetadataStore.query E table q orderings skip_first max_num_results = inr ids)
  /\ forall ids,
       SqlImageMetadataStore.query E table q orderings skip_first max_num_results = inr ids ->
       (forall id, In id ids ->
          exists row z,
            In row table /\ SqlImageMetadataStore.object_ref row = id
            /\ Image.session_number row = Some z
            /\ Range.min_value r <= z <= Range.max_value r)
       /\ (Range.max_value r < Range.min_value r -> ids = [])
       /\ (q = session_query (Range.min_value r) (Range.max_value r) ->
           skip_first = 0 -> Z.of_nat (length table) <= max_num_results ->
           forall row z,
             In row table -> Image.session_number row = Some z ->
             Range.min_value r <= z <= Range.max_value r ->
             In (SqlImageMetadataStore.object_ref row) ids).
Proof.
  intros Hr. split.
  - intros Hbox.
    destruct (query_page E table q orderings skip_first max_num_results Hbox)
      as (matches & _ & _ & Hq).
    eauto.
  - intros ids Hq.
    pose proof (query_returns _ _ _ _ _ _ _ Hq) as Hbox.
    destruct (query_page E table q orderings skip_first max_num_results Hbox)
      as (matches & Hperm & _ & Hq').
    assert (Hsound : forall row, In row matches ->
              In row table
              /\ exists z, Image.session_number row = Some z
                           /\ Range.min_value r <= z <= Range.max_value r).
    { intros row Hrow. apply (in_matches _ _ _ _ row Hperm) in Hrow as [Hin Hm].
      split; [exact Hin|].
      unfold query_matches in Hm. apply andb_true_iff in Hm as [Hm _].
      exact (fields_match_session _ _ _ _ Hr Hm). }
    rewrite Hq' in Hq. injection Hq as <-. split; [|split].
    + intros id Hid. apply in_map_iff in Hid as (row & <- & Hrow).
      apply in_window in Hrow. destruct (Hsound _ Hrow) as (? & z & ? & ?). eauto 8.
    + intros Hinv.
      destruct (firstn _ (skipn _ matches)) as [|row rest] eqn:Hw; [reflexivity|].
      exfalso.
      assert (In row matches) as Hrow
        by (apply (in_window _ _ (Z.to_nat skip_first) (Z.to_nat max_num_results));
            rewrite Hw; now left).
      destruct (Hsound _ Hrow) as (_ & z & _ & ?). lia.
    + intros -> -> Hn row z Hrow Hz Hrange.
      destruct (query_whole E table _ orderings max_num_results Hbox Hn)
        as (matches' & Hperm' & Hq'').
      rewrite Hq'' in Hq'. injection Hq' as <-.
      apply in_map. apply (in_matches _ _ _ _ row Hperm'). split; [exact Hrow|].
      now apply (fields_match_session_query E _ _ row z).
Qed.




(** ** Pages *)

(** X11.  The last page is final.  Once a page is marked last, every later
    page is empty and marked last too; and a page that is not marked last is
    full. *)
Theorem nothing_after_last_page E b q orderings limit p page :
  0 < limit -> 0 < p ->
  query_images E b q orderings limit p = inr page ->
  (QueryResponse.is_last_page page = true ->
   forall p', p < p' ->
     exists page',
       query_images E b q orderings limit p' = inr page'
       /\ QueryResponse.image_ids page' = []
       /\ QueryResponse.is_last_page page' = true)
  /\ (QueryResponse.is_last_page page = false ->
      Z.of_nat (length (QueryResponse.image_ids page)) = limit).
Proof.
  intros Hlimit Hp Hpage.
  assert (Hbox : complete_box (ImageQuery.bounding_box q)).
  { destruct (complete_box_dec (ImageQuery.bounding_box q)) as [H | H]; [exact H|].
    exfalso. unfold query_images in Hpage.
    replace (0 <? limit) with true in Hpage by (symmetry; apply Z.ltb_lt; lia).
    replace (0 <? p) with true in Hpage by (symmetry; apply Z.ltb_lt; lia).
    simpl in Hpage. rewrite (query_incomplete _ _ _ _ _ _ H) in Hpage. discriminate. }
  destruct (query_images_page E b q orderings limit p Hlimit Hp Hbox)
    as (matches & Hperm & _ & Hq).
  rewrite Hq in Hpage.
  injection Hpage as <-. cbn [QueryResponse.is_last_page QueryResponse.image_ids].
  rewrite length_map, page_length, (Permutation_length Hperm).
  set (n := length (List.filter (query_matches E q) (Backends.metadata_store b))).
  assert (0 <= (p - 1) * limit) by nia.
  split.
  - intros Hlast p' Hp'. apply Z.ltb_lt in Hlast.
    destruct (query_images_page E b q orderings limit p' Hlimit ltac:(lia) Hbox)
      as (matches' & Hperm' & _ & Hq').
    eexists; split; [exact Hq'|].
    cbn [QueryResponse.is_last_page QueryResponse.image_ids].
    assert ((p - 1) * limit + limit <= (p' - 1) * limit) by nia.
    assert (length matches' = n) as Hn by (now rewrite (Permutation_length Hperm')).
    rewrite skipn_all2 by lia. rewrite firstn_nil. simpl.
    split; [reflexivity|]. apply Z.ltb_lt. lia.
  - intros Hfull. apply Z.ltb_ge in Hfull. lia.
Qed.

(** Two lists of the matching rows in the order of orderings that leave no
    tie are the same list. *)
Lemma sorted_matches_unique E orderings (matching l1 l2 : list Image.t) :
  no_tie E orderings matching ->
  l1 ≡ₚ matching -> l2 ≡ₚ matching ->
  Sorted (in_order E orderings) l1 -> Sorted (in_order E orderings) l2 ->
  l1 = l2.
Proof.
  intros Htie H1 H2 S1 S2.
  apply (@Sorted_unique_strong _ (in_order E orderings) (in_order_trans E orderings));
    [|exact S1 | exact S2 | now rewrite H1, H2].
  intros x1 x2 Hx1 Hx2. apply Htie; apply list_elem_of_In.
  - now rewrite <- H1.
  - now rewrite <- H2.
Qed.

(** X10.  With orderings that leave no tie among the matching rows, the
    pages of a query tile its result, whatever the engine: there is one list
    of the matching rows in the order of the orderings, and pages 1 to [n],
    put one after the other, are its first [n * limit] rows, without gap or
    overlap; with enough pages, they are all the matching rows. *)
Theorem pages_tile_the_matches E b q orderings limit n :
  0 < limit ->
  complete_box (ImageQuery.bounding_box q) ->
  let matching := List.filter (query_matches E q) (Backends.metadata_store b) in
  no_tie E orderings matching ->
  exists matches,
    matches ≡ₚ matching
    /\ Sorted (in_order E orderings) matches
    /\ pages_upto E b q orderings limit n
       = inr (map SqlImageMetadataStore.object_ref
                (firstn (n * Z.to_nat limit) matches))
    /\ ((length matching <= n * Z.to_nat limit)%nat ->
        pages_upto E b q orderings limit n
        = inr (map SqlImageMetadataStore.object_ref matches)).
Proof.
  intros Hlimit Hbox matching Htie.
  destruct (query_images_page E b q orderings limit 1 Hlimit ltac:(lia) Hbox)
    as (matches & Hperm & Hsorted & _).
  fold matching in Hperm.
  exists matches. split; [exact Hperm|]. split; [exact Hsorted|].
  assert (Hpages : forall k, pages_upto E b q orderings limit k
            = inr (map SqlImageMetadataStore.object_ref
                     (firstn (k * Z.to_nat limit) matches))).
  { induction k as [|k IH]; [reflexivity|].
    cbn [pages_upto]. rewrite IH. unfold bind at 1.
    destruct (query_images_page E b q orderings limit (Z.of_nat (S k)) Hlimit
                ltac:(lia) Hbox) as (matches' & Hperm' & Hsorted' & ->).
    fold matching in Hperm'.
    rewrite (sorted_matches_unique E orderings matching matches' matches
               Htie Hperm' Hperm Hsorted' Hsorted).
    unfold bind. cbn [QueryResponse.image_ids]. f_equal.
    rewrite <- map_app. f_equal.
    replace (Z.to_nat ((Z.of_nat (S k) - 1) * limit)) with (k * Z.to_nat limit)%nat by nia.
    replace (S k * Z.to_nat limit)%nat with (k * Z.to_nat limit + Z.to_nat limit)%nat by lia.
    apply take_take_drop. }
  split; [apply Hpages|].
  intros Hall. rewrite Hpages. rewrite firstn_all2; [reflexivity|].
  now rewrite (Permutation_length Hperm).
Qed.

(** ** Orderings *)

Lemma Sorted_skipn {A : Type} (R : A -> A -> Prop) (k : nat) (l : list A) :
  Sorted R l -> Sorted R (skipn k l).
Proof.
  revert l; induction k as [|k IH]; intros l Hl; [exact Hl|].
  destruct l as [|x l]; [exact Hl|]. simpl. apply IH.
  now inversion Hl.
Qed.

Lemma Sorted_firstn {A : Type} (R : A -> A -> Prop) (n : nat) (l : list A) :
  Sorted R l -> Sorted R (firstn n l).
Proof.
  intros Hl; revert n; induction Hl as [|x l _ IH Hd]; intros n.
  - rewrite firstn_nil. constructor.
  - destruct n as [|n]; simpl; [constructor|].
    constructor; [apply IH|].
    destruct Hd as [|y l Hxy]; [rewrite firstn_nil; constructor|].
    destruct n; simpl; constructor; exact Hxy.
Qed.

Lemma Sorted_window {A : Type} (R : A -> A -> Prop) (skip limit : nat) (l : list A) :
  Sorted R l -> Sorted R (firstn limit (skipn skip l)).
Proof. intros Hl. now apply Sorted_firstn, Sorted_skipn. Qed.

(** X12.  The rows a query returns come in an order that respects the
    orderings, in their listed sequence, whatever the engine: of any two
    rows returned, the one returned first has, at the first ordering whose
    attribute tells them apart, the smaller attribute when the ordering is
    ascending and the larger one when it is not.  Ordering neither drops nor
    repeats a matching row: with the whole table as window the references
    returned are those of the matching rows, each once. *)
Theorem query_respects_orderings E table q orderings skip_first max_num_results ids :
  SqlImageMetadataStore.query E table q orderings skip_first max_num_results = inr ids ->
  exists rows,
    ids = map SqlImageMetadataStore.object_ref rows
    /\ StronglySorted (in_order E orderings) rows
    /\ (forall row, In row rows -> In row table /\ query_matches E q row = true)
    /\ (skip_first = 0 -> Z.of_nat (length table) <= max_num_results ->
        rows ≡ₚ List.filter (query_matches E q) table).
Proof.
  intros Hq.
  pose proof (query_returns _ _ _ _ _ _ _ Hq) as Hbox.
  destruct (query_page E table q orderings skip_first max_num_results Hbox)
    as (matches & Hperm & Hsorted & Hq').
  rewrite Hq' in Hq. injection Hq as <-.
  eexists; split; [reflexivity|]. split; [|split].
  - apply (@Sorted_StronglySorted _ (in_order E orderings) (in_order_trans E orderings)).
    apply Sorted_window. exact Hsorted.
  - intros row Hrow. apply in_window in Hrow.
    now apply (in_matches _ _ _ _ row Hperm).
  - intros -> Hn. change (Z.to_nat 0) with 0%nat.
    rewrite skipn_O, firstn_all2; [exact Hperm|].
    pose proof (matches_length _ _ _ _ Hperm). lia.
Qed.

(** ** Reading what was created *)

Lemma get_by_id_of_get table object_id metadata :
  SqlImageMetadataStore.get None table object_id = inr metadata ->
  exists image,
    SqlImageMetadataStore.__get_by_id table object_id = inr image
    /\ In image table
    /\ SqlImageMetadataStore.object_ref image = object_id.
Proof.
  unfold SqlImageMetadataStore.get, with_fault, bind.
  destruct (SqlImageMetadataStore.__get_by_id table object_id) as [|image] eqn:Hrow;
    [discriminate|].
  intros _. exists image. split; [reflexivity|].
  split; [|exact (get_by_id_object_ref _ _ _ Hrow)].
  unfold SqlImageMetadataStore.__get_by_id in Hrow.
  destruct (List.filter _ table) as [|row [|? ?]] eqn:Hf; try discriminate.
  injection Hrow as <-.
  assert (In row (List.filter (SqlImageMetadataStore.has_id object_id) table)) as Hin
    by (rewrite Hf; now left).
  now apply List.filter_In in Hin.
Qed.

(** X13.  The thumbnail can be read back: after a create that returned,
    [get_thumbnail] of the new reference streams what the thumbnail
    generator made of the uploaded bytes, as [image/jpeg].  For a reference
    without a stored thumbnail it answers 404. *)
Theorem get_thumbnail_after_create _create_thumbnail req f schedule b object_id :
  let s := CreateUavImage.create_uav_image _create_thumbnail req f schedule b in
  CreateUavImage.outcome s = Some (inr object_id) ->
  get_thumbnail None (ObjectRef.bucket object_id) (ObjectRef.name object_id)
    (CreateUavImage.backends s)
  = inr (StreamingResponse.mk (_create_thumbnail (CreateUavImage.image_data req))
           "image/jpeg")
  /\ forall bucket name b',
       Backends.object_store b' !! _thumbnail_id (ObjectRef.mk bucket name) = None ->
       get_thumbnail None bucket name b' = inl (HTTPException 404).
Proof.
  intros s Hout.
  destruct (create_uav_image_success _ _ _ _ _ _ Hout) as (-> & _ & Ht & _).
  fold s in Ht. split.
  - unfold get_thumbnail, get_object, ObjectStore.get_object, with_fault, bind.
    cbn [CreateUavImage.object_id ObjectRef.bucket ObjectRef.name].
    fold (CreateUavImage.object_id req). now rewrite Ht.
  - intros bucket name b' Habs.
    unfold get_thumbnail, get_object, ObjectStore.get_object, with_fault, bind.
    now rewrite Habs.
Qed.

(** X14.  The metadata can be read back: after a create that returned,
    [get_image_metadata] of the new reference returns the metadata that was
    uploaded.  For a reference without a record it answers 404. *)
Theorem get_image_metadata_after_create _create_thumbnail req f schedule b object_id :
  let s := CreateUavImage.create_uav_image _create_thumbnail req f schedule b in
  CreateUavImage.outcome s = Some (inr object_id) ->
  get_image_metadata None (ObjectRef.bucket object_id) (ObjectRef.name object_id)
    (CreateUavImage.backends s)
  = inr (CreateUavImage.metadata req)
  /\ forall bucket name b',
       SqlImageMetadataStore.get None (Backends.metadata_store b') (ObjectRef.mk bucket name)
       = inl KeyError ->
       get_image_metadata None bucket name b' = inl (HTTPException 404).
Proof.
  intros s Hout.
  destruct (create_uav_image_success _ _ _ _ _ _ Hout) as (-> & _ & _ & Hm).
  fold s in Hm. split.
  - unfold get_image_metadata, metadata_get, bind.
    cbn [CreateUavImage.object_id ObjectRef.bucket ObjectRef.name].
    fold (CreateUavImage.object_id req). now rewrite Hm.
  - intros bucket name b' Habs.
    unfold get_image_metadata, metadata_get, bind. now rewrite Habs.
Qed.

(** A fault-free read of an image both stores hold answers with the
    stored bytes and the media type of the stored format. *)
Lemma get_image_present bucket name schedule b data metadata r :
  Backends.object_store b !! GetImage.object_id bucket name = Some data ->
  SqlImageMetadataStore.get None (Backends.metadata_store b) (GetImage.object_id bucket name)
  = inr metadata ->
  GetImage.outcome (GetImage.get_image bucket name GetImage.no_faults schedule b) = Some r ->
  r = streaming_response data metadata.
Proof.
  intros Ho Hm Hout.
  destruct (get_image_ok bucket name GetImage.no_faults schedule b)
    as (Hf & Hg & _ & Hso & Hsm).
  set (s := GetImage.get_image _ _ _ _ _) in *.
  cbn [GetImage.on_get_object GetImage.on_get_metadata GetImage.no_faults] in Hso, Hsm.
  rewrite Hm in Hsm.
  unfold ObjectStore.get_object, with_fault in Hso. rewrite Ho in Hso.
  unfold get_frame_ok in Hf. unfold GetImage.outcome in Hout.
  destruct (GetImage.at_ s) as [|r']; [discriminate|]. injection Hout as ->.
  unfold get_gather_ok, get_task_raised in Hg.
  destruct (GetImage.gather_exception s) as [e|].
  - exfalso. destruct Hg as [H | H]; [apply Hso in H | apply Hsm in H]; discriminate.
  - destruct Hf as (stream & md & H1 & H2 & ->).
    apply Hso in H1. apply Hsm in H2. congruence.
Qed.

(** A fault-free read of an image neither store holds answers 404. *)
Lemma get_image_absent bucket name schedule b r :
  Backends.object_store b !! GetImage.object_id bucket name = None ->
  SqlImageMetadataStore.get None (Backends.metadata_store b) (GetImage.object_id bucket name)
  = inl KeyError ->
  GetImage.outcome (GetImage.get_image bucket name GetImage.no_faults schedule b) = Some r ->
  r = inl (HTTPException 404).
Proof.
  intros Ho Hm Hout.
  destruct (get_image_ok bucket name GetImage.no_faults schedule b)
    as (Hf & Hg & _ & Hso & Hsm).
  set (s := GetImage.get_image _ _ _ _ _) in *.
  cbn [GetImage.on_get_object GetImage.on_get_metadata GetImage.no_faults] in Hso, Hsm.
  rewrite Hm in Hsm.
  unfold ObjectStore.get_object, with_fault in Hso. rewrite Ho in Hso.
  unfold get_frame_ok in Hf. unfold GetImage.outcome in Hout.
  destruct (GetImage.at_ s) as [|r']; [discriminate|]. injection Hout as ->.
  unfold get_gather_ok, get_task_raised in Hg.
  destruct (GetImage.gather_exception s) as [e|].
  - assert (e = KeyError) as ->
        by (destruct Hg as [H | H]; [apply Hso in H | apply Hsm in H]; congruence).
    exact (proj1 Hf).
  - destruct Hf as (stream & md & H1 & _). apply Hso in H1. discriminate.
Qed.

(** X15.  The image can be read back: after a create that returned, a
    read of the new reference during which no backend fails answers, under
    every schedule of its two fetches, with the uploaded bytes and the MIME
    type of the uploaded format; and it does answer once both fetches have
    run. *)
Theorem get_image_after_create _create_thumbnail req f schedule b object_id fmt :
  let s := CreateUavImage.create_uav_image _create_thumbnail req f schedule b in
  let read schedule' :=
    GetImage.outcome
      (GetImage.get_image (ObjectRef.bucket object_id) (ObjectRef.name object_id)
         GetImage.no_faults schedule' (CreateUavImage.backends s)) in
  let response :=
    StreamingResponse.mk (CreateUavImage.image_data req) (_IMAGE_FORMAT_TO_MIME_TYPES fmt) in
  CreateUavImage.outcome s = Some (inr object_id) ->
  UavImageMetadata.format (CreateUavImage.metadata req) = Some fmt ->
  (forall schedule' r, read schedule' = Some r -> r = inr response)
  /\ read GetImage.tasks_first = Some (inr response).
Proof.
  intros s read response Hout Hfmt.
  destruct (create_uav_image_success _ _ _ _ _ _ Hout) as (-> & Ho & _ & Hm).
  fold s in Ho, Hm.
  assert (Hall : forall schedule' r, read schedule' = Some r -> r = inr response).
  { intros schedule' r Hr.
    rewrite (get_image_present _ _ _ _ _ _ _ Ho Hm Hr).
    unfold streaming_response. now rewrite Hfmt. }
  split; [exact Hall|].
  destruct (read GetImage.tasks_first) as [r|] eqn:Hr.
  - now rewrite (Hall _ _ Hr).
  - exfalso. exact (get_image_answers _ _ _ _ Hr).
Qed.

(** ** Listing and deleting what was created *)

(** X16.  A created image is listed: after a create that returned, the
    unfiltered query over the whole table returns the new reference,
    whatever the engine. *)
Theorem created_image_is_listed E _create_thumbnail req f schedule b object_id
    orderings max_num_results :
  let s := CreateUavImage.create_uav_image _create_thumbnail req f schedule b in
  let table := Backends.metadata_store (CreateUavImage.backends s) in
  CreateUavImage.outcome s = Some (inr object_id) ->
  Z.of_nat (length table) <= max_num_results ->
  exists ids,
    SqlImageMetadataStore.query E table ImageQuery.empty orderings 0 max_num_results
    = inr ids
    /\ In object_id ids.
Proof.
  intros s table Hout Hn.
  destruct (create_uav_image_success _ _ _ _ _ _ Hout) as (_ & _ & _ & Hm).
  fold s in Hm. fold table in Hm.
  destruct (get_by_id_of_get _ _ _ Hm) as (image & _ & Hin & Hid).
  destruct (empty_query_whole E table orderings max_num_results Hn) as (ids & Hq & Hperm).
  exists ids. split; [exact Hq|].
  apply list_elem_of_In. rewrite Hperm. apply list_elem_of_In.
  rewrite <- Hid. now apply in_map.
Qed.

(** After a deletion that succeeded neither store holds the image. *)
Lemma delete_image_success bucket name f schedule b :
  let s := DeleteImage.delete_image bucket name f schedule b in
  DeleteImage.outcome s = Some (inr tt) ->
  Backends.object_store (DeleteImage.backends s) !! DeleteImage.object_id bucket name = None
  /\ List.filter (SqlImageMetadataStore.has_id (DeleteImage.object_id bucket name))
       (Backends.metadata_store (DeleteImage.backends s)) = [].
Proof.
  intros s Hout.
  destruct (delete_image_ok bucket name f schedule b) as (Hf & Hg & [Hso Hsm]).
  fold s in Hf, Hg, Hso, Hsm.
  unfold delete_frame_ok in Hf. unfold DeleteImage.outcome in Hout.
  destruct (DeleteImage.at_ s) as [|r]; [discriminate|]. injection Hout as ->.
  destruct (DeleteImage.gather_exception s) as [[]|]; try discriminate.
  destruct Hf as (_ & Ho & Hm). rewrite Ho in Hso. rewrite Hm in Hsm.
  split; [exact (delete_object_gone _ _ _ _ Hso) | exact (metadata_delete_gone _ _ _ _ Hsm)].
Qed.

Lemma get_absent table object_id :
  List.filter (SqlImageMetadataStore.has_id object_id) table = [] ->
  SqlImageMetadataStore.get None table object_id = inl KeyError.
Proof.
  intros H. unfold SqlImageMetadataStore.get, SqlImageMetadataStore.__get_by_id; simpl.
  now rewrite H.
Qed.

Lemma filter_nil_not_in {A : Type} (p : A -> bool) (l : list A) x :
  List.filter p l = [] -> In x l -> p x = false.
Proof.
  intros Hf Hin. destruct (p x) eqn:Hp; [|reflexivity].
  assert (In x (List.filter p l)) as H by (apply List.filter_In; auto).
  rewrite Hf in H. contradiction.
Qed.

(** X17.  A deleted image is gone for every reader: after a deletion that
    succeeded, a fault-free read of the reference answers 404 under every
    schedule, its metadata answers 404, and no query, whatever its filter,
    orderings and window, returns the reference. *)
Theorem deleted_image_is_gone bucket name f schedule b :
  let object_id := DeleteImage.object_id bucket name in
  let s := DeleteImage.delete_image bucket name f schedule b in
  DeleteImage.outcome s = Some (inr tt) ->
  (forall schedule' r,
     GetImage.outcome
       (GetImage.get_image bucket name GetImage.no_faults schedule' (DeleteImage.backends s))
     = Some r -> r = inl (HTTPException 404))
  /\ get_image_metadata None bucket name (DeleteImage.backends s) = inl (HTTPException 404)
  /\ forall E q orderings skip_first max_num_results ids,
       SqlImageMetadataStore.query E (Backends.metadata_store (DeleteImage.backends s))
         q orderings skip_first max_num_results = inr ids ->
       ~ In object_id ids.
Proof.
  intros object_id s Hout.
  destruct (delete_image_success bucket name f schedule b Hout) as [Ho Hm].
  fold s in Ho, Hm. fold object_id in Ho, Hm.
  pose proof (get_absent _ _ Hm) as Hget.
  split; [|split].
  - intros schedule' r. now apply get_image_absent.
  - unfold get_image_metadata, metadata_get, bind.
    change (ObjectRef.mk bucket name) with object_id. now rewrite Hget.
  - intros E q orderings skip_first max_num_results ids Hq Hin.
    pose proof (query_returns _ _ _ _ _ _ _ Hq) as Hbox.
    destruct (query_page E (Backends.metadata_store (DeleteImage.backends s))
                q orderings skip_first max_num_results Hbox) as (matches & Hperm & _ & Hq').
    rewrite Hq' in Hq. injection Hq as <-.
    apply in_map_iff in Hin as (row & Hid & Hrow).
    apply in_window in Hrow. apply (in_matches _ _ _ _ row Hperm) in Hrow as (Hrow & _).
    pose proof (filter_nil_not_in _ _ _ Hm Hrow) as Hno.
    apply has_id_iff in Hid. congruence.
Qed.

(** X18.  Deleting an image that is there succeeds: when the object store
    holds the object and the metadata store holds its record, a deletion
    during which no backend fails answers success under every schedule of
    its two deletions, and it does answer once both have run. *)
Theorem delete_image_of_present bucket name b data metadata :
  let object_id := DeleteImage.object_id bucket name in
  let delete schedule :=
    DeleteImage.outcome
      (DeleteImage.delete_image bucket name DeleteImage.no_faults schedule b) in
  Backends.object_store b !! object_id = Some data ->
  SqlImageMetadataStore.get None (Backends.metadata_store b) object_id = inr metadata ->
  (forall schedule r, delete schedule = Some r -> r = inr tt)
  /\ delete DeleteImage.tasks_first = Some (inr tt).
Proof.
  intros object_id delete Ho Hm.
  destruct (get_by_id_of_get _ _ _ Hm) as (image & Hrow & _ & _).
  assert (Hall : forall schedule r, delete schedule = Some r -> r = inr tt).
  { intros schedule r Hout.
    destruct (delete_image_ok bucket name DeleteImage.no_faults schedule b)
      as (Hf & Hg & [Hso Hsm]).
    set (s := DeleteImage.delete_image _ _ _ _ _) in *.
    cbn [DeleteImage.on_delete_object DeleteImage.on_delete_metadata DeleteImage.no_faults]
      in Hso, Hsm.
    fold object_id in Hso, Hsm.
    unfold ObjectStore.delete_object, with_fault in Hso. rewrite Ho in Hso.
    unfold SqlImageMetadataStore.delete, with_fault, bind in Hsm. rewrite Hrow in Hsm.
    unfold delete_frame_ok in Hf. unfold delete, DeleteImage.outcome in Hout. fold s in Hout.
    destruct (DeleteImage.at_ s) as [|r']; [discriminate|]. injection Hout as ->.
    unfold delete_gather_ok, delete_task_raised in Hg.
    destruct (DeleteImage.gather_exception s) as [e|].
    - exfalso. destruct Hg as [H | H]; rewrite H in *;
        [destruct Hso as [_ Hso] | destruct Hsm as [_ Hsm]]; discriminate.
    - exact (proj1 Hf). }
  split; [exact Hall|].
  destruct (delete DeleteImage.tasks_first) as [r|] eqn:Hr.
  - now rewrite (Hall _ _ Hr).
  - exfalso. exact (delete_image_answers _ _ _ _ Hr).
Qed.

(** X19.  [delete_image] leaves every other image alone: under every
    schedule and whatever fails, an object stored under another reference
    and the metadata of another reference are as they were. *)
Theorem delete_image_keeps_others bucket name f schedule b other :
  let s := DeleteImage.delete_image bucket name f schedule b in
  other <> DeleteImage.object_id bucket name ->
  Backends.object_store (DeleteImage.backends s) !! other = Backends.object_store b !! other
  /\ SqlImageMetadataStore.get None (Backends.metadata_store (DeleteImage.backends s)) other
     = SqlImageMetadataStore.get None (Backends.metadata_store b) other.
Proof.
  intros s Hne. split; [now apply delete_image_other_objects|].
  destruct (delete_image_ok bucket name f schedule b) as (_ & _ & [_ Hsm]).
  fold s in Hsm.
  unfold SqlImageMetadataStore.get, with_fault.
  destruct (DeleteImage.metadata_task s) as [|[e|u]|].
  - now rewrite Hsm.
  - destruct Hsm as [-> _]. reflexivity.
  - now rewrite (get_by_id_other_after_delete _ _ _ _ _ Hsm Hne).
  - contradiction.
Qed.

(** ** The bucket of the day *)

(** X20.  [use_bucket] makes sure the bucket of the day exists and touches
    nothing else: when it returns, the name is the date followed by
    [-images], that bucket exists, and the buckets are the former ones plus
    at most that one.  It creates the bucket only when it is missing, so a
    second call changes nothing and cannot fail on the creation. *)
Theorem use_bucket_ensures exists_fault create_fault today buckets bucket_name buckets' :
  use_bucket exists_fault create_fault today buckets = inr (bucket_name, buckets') ->
  bucket_name = (today ++ "-images")%string
  /\ bucket_name ∈ buckets'
  /\ buckets' = {[bucket_name]} ∪ buckets
  /\ forall create_fault',
       use_bucket None create_fault' today buckets' = inr (bucket_name, buckets').
Proof.
  unfold use_bucket, Buckets.bucket_exists, Buckets.create_bucket, with_fault, bind.
  destruct exists_fault; [discriminate|].
  set (name := (today ++ "-images")%string).
  destruct (bool_decide (name ∈ buckets)) eqn:Hex; simpl.
  - intros [= <- <-]. split; [reflexivity|].
    pose proof Hex as Hin. apply bool_decide_eq_true in Hin.
    split; [exact Hin|].
    split; [symmetry; now apply subseteq_union_1_L, singleton_subseteq_l|].
    intros create_fault'. now rewrite Hex.
  - destruct create_fault; [discriminate|]. intros [= <- <-].
    assert (Hin : name ∈ ({[name]} ∪ buckets : gset string))
      by (apply elem_of_union_l, elem_of_singleton; reflexivity).
    split; [reflexivity|]. split; [exact Hin|]. split; [reflexivity|].
    { intros create_fault'.
      assert (bool_decide (name ∈ {[name]} ∪ buckets) = true) as ->
          by (now apply bool_decide_eq_true).
      reflexivity. }
Qed.

(** ** What a create does to the stores *)

Lemma metadata_add_table fault object_id metadata b u b' :
  metadata_add fault object_id metadata b = inr (u, b') ->
  Backends.object_store b' = Backends.object_store b
  /\ SqlImageMetadataStore.add fault (Backends.metadata_store b) object_id metadata
     = inr (Backends.metadata_store b').
Proof.
  unfold metadata_add, bind.
  destruct (SqlImageMetadataStore.add _ _ _ _) as [e|table]; [discriminate|].
  intros [= <- <-]. auto.
Qed.

Lemma metadata_delete_table fault object_id b u b' :
  metadata_delete fault object_id b = inr (u, b') ->
  Backends.object_store b' = Backends.object_store b
  /\ SqlImageMetadataStore.delete fault (Backends.metadata_store b) object_id
     = inr (Backends.metadata_store b').
Proof.
  unfold metadata_delete, bind.
  destruct (SqlImageMetadataStore.delete _ _ _) as [e|table]; [discriminate|].
  intros [= <- <-]. auto.
Qed.

Section CreateOthers.
Import CreateUavImage.
Variable _create_thumbnail : bytes -> bytes.
Variable req : request.
Variable f : faults.
Variable b : Backends.t.

Lemma create_others_ok_step s ev :
  create_others_ok b req s -> create_others_ok b req (step _create_thumbnail req f s ev).
Proof.
  unfold create_others_ok. intros [Ho Hm].
  destruct ev; simpl.
  - task_turn; simpl; auto.
    destruct x. apply create_object_inv in H0 as [-> ->].
    split; [|exact Hm]. intros other H1 H2.
    rewrite lookup_insert_ne by congruence. auto.
  - task_turn; simpl; auto.
    apply metadata_add_table in H0 as [-> Hadd].
    split; [exact Ho|]. intros other H1.
    rewrite (get_by_id_other_after_add _ _ _ _ _ _ Hadd H1). auto.
  - task_turn; simpl; auto.
    destruct x. unfold _create_and_save_thumbnail in H0.
    apply create_object_inv in H0 as [-> ->].
    split; [|exact Hm]. intros other H1 H2.
    rewrite lookup_insert_ne by congruence. auto.
  - unfold resume. destruct (at_ s).
    + destruct (gather_exception s) as [[]|]; simpl; auto.
      destruct (succeeded (object_task s)), (succeeded (metadata_task s)),
        (succeeded (thumbnail_task s)); simpl; auto.
    + unfold rollback_step.
      destruct (delete_object _ _ _) as [e|[[] b']] eqn:Hd; simpl; auto.
      apply delete_object_inv in Hd as [-> ->].
      split; [|exact Hm]. intros other H1 H2.
      rewrite lookup_delete_ne by congruence. auto.
    + unfold rollback_step.
      destruct (delete_object _ _ _) as [e|[[] b']] eqn:Hd; simpl; auto.
      apply delete_object_inv in Hd as [-> ->].
      split; [|exact Hm]. intros other H1 H2.
      rewrite lookup_delete_ne by congruence. auto.
    + unfold rollback_step.
      destruct (metadata_delete _ _ _) as [e|[[] b']] eqn:Hd; simpl; auto.
      apply metadata_delete_table in Hd as [-> Hdel].
      split; [exact Ho|]. intros other H1.
      rewrite (get_by_id_other_after_delete _ _ _ _ _ Hdel H1). auto.
    + auto.
Qed.

Lemma create_uav_image_others_ok schedule :
  create_others_ok b req (create_uav_image _create_thumbnail req f schedule b).
Proof.
  unfold create_uav_image.
  assert (H : create_others_ok b req (start b)) by (split; reflexivity).
  revert H. generalize (start b).
  induction schedule as [|ev evs IH]; intros s Hs; simpl; [exact Hs|].
  apply IH, create_others_ok_step, Hs.
Qed.

End CreateOthers.

(** X21.  [create_uav_image] leaves every other image alone: under every
    schedule and whatever fails, rollback included, an object stored under a
    reference other than the new one and its thumbnail, and the metadata of
    any other reference, are as they were. *)
Theorem create_uav_image_keeps_others _create_thumbnail req f schedule b :
  let s := CreateUavImage.create_uav_image _create_thumbnail req f schedule b in
  (forall other,
     other <> CreateUavImage.object_id req ->
     other <> CreateUavImage.thumbnail_object_id req ->
     Backends.object_store (CreateUavImage.backends s) !! other
     = Backends.object_store b !! other)
  /\ (forall other,
        other <> CreateUavImage.object_id req ->
        SqlImageMetadataStore.get None (Backends.metadata_store (CreateUavImage.backends s))
          other
        = SqlImageMetadataStore.get None (Backends.metadata_store b) other).
Proof.
  intros s.
  destruct (create_uav_image_others_ok _create_thumbnail req f b schedule) as [Ho Hm].
  split; [exact Ho|].
  intros other Hne. unfold SqlImageMetadataStore.get, with_fault. now rewrite Hm.
Qed.

Section CreateWritten.
Import CreateUavImage.
Variable _create_thumbnail : bytes -> bytes.
Variable req : request.
Variable f : faults.

Lemma unit_task_cases (t : task_state unit) :
  t = Finished (inr tt) \/ t <> Finished (inr tt).
Proof. destruct t as [|[e|[]]|]; auto; right; discriminate. Qed.

Lemma in_log_snoc (log : call_log) what e x :
  In (x, None) (log ++ [(what, Some e)]) <-> In (x, None) log.
Proof.
  rewrite in_app_iff. simpl. split; [|tauto].
  intros [H | [H | []]]; [exact H | discriminate].
Qed.

Lemma in_log_snoc_ok (log : call_log) what x :
  In (x, None) (log ++ [(what, None)]) <-> In (x, None) log \/ x = what.
Proof.
  rewrite in_app_iff. simpl. split.
  - intros [H | [[= ->] | []]]; auto.
  - intros [H | ->]; auto.
Qed.

Lemma add_filter_nil_inv fault table object_id m table' :
  SqlImageMetadataStore.add fault table object_id m = inr table' ->
  List.filter (SqlImageMetadataStore.has_id object_id) table = [].
Proof.
  intros H. apply add_inv in H as (_ & Hfresh & _).
  now apply filter_nil_of_existsb.
Qed.

Lemma delete_filter_not_nil fault table object_id table' :
  SqlImageMetadataStore.delete fault table object_id = inr table' ->
  List.filter (SqlImageMetadataStore.has_id object_id) table <> [].
Proof.
  intros H Hnil. apply delete_inv in H as (_ & image & Hrow & _).
  unfold SqlImageMetadataStore.__get_by_id in Hrow. now rewrite Hnil in Hrow.
Qed.

Lemma delete_object_was_there fault object_id b u b' :
  delete_object fault object_id b = inr (u, b') ->
  Backends.object_store b !! object_id <> None.
Proof.
  unfold delete_object, ObjectStore.delete_object, with_fault, bind.
  destruct fault; [discriminate|].
  destruct (Backends.object_store b !! object_id); [discriminate | discriminate].
Qed.

Ltac settle_written :=
  repeat split; intros;
  rewrite ?lookup_insert_eq, ?lookup_delete_eq;
  rewrite ?lookup_insert_ne, ?lookup_delete_ne by congruence;
  try solve [intuition congruence].

Lemma create_written_ok_step s ev :
  create_written_ok req s -> create_written_ok req (step _create_thumbnail req f s ev).
Proof.
  unfold create_written_ok. intros (A1 & A2 & B1 & B2 & C1 & C2).
  pose proof (thumbnail_id_neq (object_id req)) as Hne.
  fold (thumbnail_object_id req) in Hne.
  destruct ev; simpl.
  - task_turn; simpl.
    + settle_written.
    + settle_written.
    + destruct x. apply create_object_inv in H0 as [-> ->]. settle_written.
  - task_turn; simpl.
    + settle_written.
    + settle_written.
    + destruct x. apply metadata_add_table in H0 as [-> Hadd]. settle_written.
  - task_turn; simpl.
    + settle_written.
    + settle_written.
    + destruct x. unfold _create_and_save_thumbnail in H0.
      apply create_object_inv in H0 as [-> ->]. settle_written.
  - unfold resume. destruct (at_ s).
    + destruct (gather_exception s) as [[]|]; simpl; try solve [settle_written].
      destruct (succeeded (object_task s)), (succeeded (metadata_task s)),
        (succeeded (thumbnail_task s)); simpl; settle_written.
    + unfold rollback_step.
      destruct (delete_object _ _ _) as [e|[[] b']] eqn:Hd; simpl.
      * rewrite !in_log_snoc. settle_written.
      * pose proof (delete_object_was_there _ _ _ _ _ Hd) as Hwas.
        apply delete_object_inv in Hd as [-> ->].
        rewrite !in_log_snoc_ok.
        assert (object_task s = Finished (inr tt)) as Hdone.
        { destruct (unit_task_cases (object_task s)) as [H | H]; [exact H|].
          exfalso. apply Hwas, A1. now left. }
        settle_written.
    + unfold rollback_step.
      destruct (delete_object _ _ _) as [e|[[] b']] eqn:Hd; simpl.
      * rewrite !in_log_snoc. settle_written.
      * pose proof (delete_object_was_there _ _ _ _ _ Hd) as Hwas.
        apply delete_object_inv in Hd as [-> ->].
        rewrite !in_log_snoc_ok.
        assert (thumbnail_task s = Finished (inr tt)) as Hdone.
        { destruct (unit_task_cases (thumbnail_task s)) as [H | H]; [exact H|].
          exfalso. apply Hwas, B1. now left. }
        settle_written.
    + unfold rollback_step.
      destruct (metadata_delete _ _ _) as [e|[[] b']] eqn:Hd; simpl.
      * rewrite !in_log_snoc. settle_written.
      * apply metadata_delete_table in Hd as [-> Hdel].
        rewrite !in_log_snoc_ok.
        assert (metadata_task s = Finished (inr tt)) as Hdone.
        { destruct (unit_task_cases (metadata_task s)) as [H | H]; [exact H|].
          exfalso. apply (delete_filter_not_nil _ _ _ _ Hdel), C1. now left. }
        pose proof (metadata_delete_gone _ _ _ _ Hdel) as Hgone.
        settle_written.
    + settle_written.
Qed.

Lemma create_uav_image_written_ok schedule b :
  create_fresh req b ->
  create_written_ok req (create_uav_image _create_thumbnail req f schedule b).
Proof.
  intros (F1 & F2 & F3). unfold create_uav_image.
  assert (H : create_written_ok req (start b)).
  { unfold create_written_ok; simpl. repeat split; auto; contradiction. }
  revert H. generalize (start b).
  induction schedule as [|ev evs IH]; intros s Hs; simpl; [exact Hs|].
  apply IH, create_written_ok_step, Hs.
Qed.

End CreateWritten.

(** X22.  What a rollback has undone stays undone.  For a reference new
    to both stores, under every schedule, also when the sibling tasks finish
    after the endpoint has raised: when the metadata add failed and the two
    deletions of the handler succeeded, neither the object nor the
    thumbnail nor a metadata record is left; when the deletion of the
    metadata record succeeded, no record is left, and an object whose write
    failed is not there. *)
Theorem create_rollback_leaves_nothing _create_thumbnail req f schedule b :
  let object_id := CreateUavImage.object_id req in
  let thumbnail_object_id := CreateUavImage.thumbnail_object_id req in
  let s := CreateUavImage.create_uav_image _create_thumbnail req f schedule b in
  let stored := Backends.object_store (CreateUavImage.backends s) in
  let table := Backends.metadata_store (CreateUavImage.backends s) in
  create_fresh req b ->
  (CreateUavImage.rollback s
   = [(DeleteObject object_id, None); (DeleteObject thumbnail_object_id, None)] ->
   CreateUavImage.metadata_task s = Finished (inl MetadataOperationError) ->
   stored !! object_id = None
   /\ stored !! thumbnail_object_id = None
   /\ SqlImageMetadataStore.get None table object_id = inl KeyError)
  /\ (CreateUavImage.rollback s = [(DeleteMetadata object_id, None)] ->
      SqlImageMetadataStore.get None table object_id = inl KeyError
      /\ (forall e, CreateUavImage.object_task s = Finished (inl e) ->
            stored !! object_id = None)
      /\ (forall e, CreateUavImage.thumbnail_task s = Finished (inl e) ->
            stored !! thumbnail_object_id = None)).
Proof.
  intros object_id thumbnail_object_id s stored table Hfresh.
  pose proof (create_uav_image_written_ok _create_thumbnail req f schedule b Hfresh)
    as (A1 & _ & B1 & _ & C1 & _).
  fold s in A1, B1, C1. fold object_id in A1, C1. fold thumbnail_object_id in B1.
  fold stored in A1, B1. fold table in C1.
  split.
  - intros Hlog Hm. rewrite Hlog in A1, B1. split; [|split].
    + apply A1. right. now left.
    + apply B1. right. right. now left.
    + apply get_absent, C1. left. rewrite Hm. discriminate.
  - intros Hlog. rewrite Hlog in C1. split; [|split].
    + apply get_absent, C1. right. now left.
    + intros e He. apply A1. left. rewrite He. discriminate.
    + intros e He. apply B1. left. rewrite He. discriminate.
Qed.

(** ** Further sample applications *)

Lemma store_keeps_other_records_witness :
  other_id <> sample_id
  /\ SqlImageMetadataStore.get None
       ([sample_row "b" "pond"] ++ [sample_row "0f3a" "field"]) other_id
     = SqlImageMetadataStore.get None [sample_row "b" "pond"] other_id.
Proof.
  assert (Hne : other_id <> sample_id) by discriminate.
  split; [exact Hne|].
  exact (proj1 (store_keeps_other_records None [sample_row "b" "pond"] sample_id _
                  other_id Hne) (sample_metadata "field") eq_refl).
Defined.

Lemma delete_after_add_witness :
  SqlImageMetadataStore.add None [sample_row "b" "pond"] sample_id (sample_metadata "field")
  = inr [sample_row "b" "pond"; sample_row "0f3a" "field"]
  /\ SqlImageMetadataStore.delete None [sample_row "b" "pond"; sample_row "0f3a" "field"]
       sample_id
     = inr [sample_row "b" "pond"].
Proof.
  split; [reflexivity|].
  exact (delete_after_add None [sample_row "b" "pond"] sample_id (sample_metadata "field")
           _ eq_refl).
Defined.

Lemma get_after_delete_witness :
  SqlImageMetadataStore.delete None [sample_row "b" "pond"; sample_row "0f3a" "field"]
    sample_id
  = inr [sample_row "b" "pond"]
  /\ SqlImageMetadataStore.get None [sample_row "b" "pond"] sample_id = inl KeyError.
Proof.
  split; [reflexivity|].
  exact (proj1 (get_after_delete None [sample_row "b" "pond"; sample_row "0f3a" "field"]
                  sample_id _ eq_refl)).
Defined.

Lemma empty_query_returns_all_witness :
  Z.of_nat (length sample_table) <= 500
  /\ exists ids,
       SqlImageMetadataStore.query exact_engine sample_table ImageQuery.empty [] 0 500
       = inr ids
       /\ ids ≡ₚ map SqlImageMetadataStore.object_ref sample_table.
Proof.
  split; [simpl; lia|].
  apply (empty_query_returns_all exact_engine sample_table [] 500). simpl; lia.
Defined.

Lemma session_range_filter_witness :
  ImageQuery.session_numbers (session_query 1 2) = Some (Range.mk 1 2)
  /\ SqlImageMetadataStore.query nocase_engine sample_table (session_query 1 2) [] 0 500
     = inr (map SqlImageMetadataStore.object_ref sample_table)
  /\ forall id, In id (map SqlImageMetadataStore.object_ref sample_table) ->
       exists row z,
         In row sample_table /\ SqlImageMetadataStore.object_ref row = id
         /\ Image.session_number row = Some z /\ 1 <= z <= 2.
Proof.
  assert (Hq : SqlImageMetadataStore.query nocase_engine sample_table (session_query 1 2)
                 [] 0 500
               = inr (map SqlImageMetadataStore.object_ref sample_table)) by reflexivity.
  split; [reflexivity|]. split; [exact Hq|].
  exact (proj1 (proj2 (session_range_filter nocase_engine sample_table (session_query 1 2)
                         (Range.mk 1 2) [] 0 500 eq_refl) _ Hq)).
Defined.



Lemma no_tie_sample_names :
  no_tie exact_engine [Ordering.mk Ordering.NAME true]
    (List.filter (query_matches exact_engine ImageQuery.empty) sample_table).
Proof.
  intros r1 r2 H1 H2 Ha Hb. simpl in H1, H2.
  repeat destruct H1 as [<- | H1]; try contradiction;
    repeat destruct H2 as [<- | H2]; try contradiction;
    try reflexivity; vm_compute in Ha, Hb; discriminate.
Qed.

Lemma pages_tile_the_matches_witness :
  0 < 2
  /\ complete_box (ImageQuery.bounding_box ImageQuery.empty)
  /\ pages_upto exact_engine sample_backends ImageQuery.empty
       [Ordering.mk Ordering.NAME true] 2 2
     = inr [ObjectRef.mk "images" "a"; ObjectRef.mk "images" "c"; ObjectRef.mk "images" "d";
            ObjectRef.mk "images" "b"]
  /\ exists matches,
       matches ≡ₚ List.filter (query_matches exact_engine ImageQuery.empty) sample_table
       /\ pages_upto exact_engine sample_backends ImageQuery.empty
            [Ordering.mk Ordering.NAME true] 2 2
          = inr (map SqlImageMetadataStore.object_ref (firstn (2 * Z.to_nat 2) matches)).
Proof.
  split; [lia|]. split; [exact I|]. split; [reflexivity|].
  destruct (pages_tile_the_matches exact_engine sample_backends ImageQuery.empty
              [Ordering.mk Ordering.NAME true] 2 2 ltac:(lia) I no_tie_sample_names)
    as (matches & Hperm & _ & Hp & _).
  exists matches. split; [exact Hperm | exact Hp].
Defined.

Lemma nothing_after_last_page_witness :
  0 < 2 /\ 0 < 3
  /\ query_images nocase_engine sample_backends ImageQuery.empty [] 2 3
     = inr (QueryResponse.mk [] 3 true)
  /\ forall p', 3 < p' ->
       exists page',
         query_images nocase_engine sample_backends ImageQuery.empty [] 2 p' = inr page'
         /\ QueryResponse.image_ids page' = []
         /\ QueryResponse.is_last_page page' = true.
Proof.
  assert (Hq : query_images nocase_engine sample_backends ImageQuery.empty [] 2 3
               = inr (QueryResponse.mk [] 3 true)) by reflexivity.
  split; [lia|]. split; [lia|]. split; [exact Hq|].
  exact (proj1 (nothing_after_last_page nocase_engine sample_backends ImageQuery.empty []
                  2 3 _ ltac:(lia) ltac:(lia) Hq) eq_refl).
Defined.

Lemma query_respects_orderings_witness :
  SqlImageMetadataStore.query exact_engine sample_table ImageQuery.empty
    [Ordering.mk Ordering.NAME false] 0 500
  = inr [ObjectRef.mk "images" "b"; ObjectRef.mk "images" "d"; ObjectRef.mk "images" "c";
         ObjectRef.mk "images" "a"]
  /\ exists rows,
       [ObjectRef.mk "images" "b"; ObjectRef.mk "images" "d"; ObjectRef.mk "images" "c";
        ObjectRef.mk "images" "a"]
       = map SqlImageMetadataStore.object_ref rows
       /\ StronglySorted (in_order exact_engine [Ordering.mk Ordering.NAME false]) rows.
Proof.
  assert (Hq : SqlImageMetadataStore.query exact_engine sample_table ImageQuery.empty
                 [Ordering.mk Ordering.NAME false] 0 500
               = inr [ObjectRef.mk "images" "b"; ObjectRef.mk "images" "d";
                      ObjectRef.mk "images" "c"; ObjectRef.mk "images" "a"])
    by reflexivity.
  split; [exact Hq|].
  destruct (query_respects_orderings exact_engine sample_table ImageQuery.empty
              [Ordering.mk Ordering.NAME false] 0 500 _ Hq) as (rows & Hids & Hsorted & _).
  exists rows. split; [exact Hids | exact Hsorted].
Defined.

Lemma get_thumbnail_after_create_witness :
  CreateUavImage.outcome create_success = Some (inr sample_id)
  /\ get_thumbnail None "images" "0f3a" (CreateUavImage.backends create_success)
     = inr (StreamingResponse.mk
              (sample_thumbnailer (CreateUavImage.image_data sample_request)) "image/jpeg").
Proof.
  assert (Ho : CreateUavImage.outcome create_success = Some (inr sample_id)) by reflexivity.
  split; [exact Ho|].
  exact (proj1 (get_thumbnail_after_create sample_thumbnailer sample_request _ _ _ _ Ho)).
Defined.

Lemma get_image_metadata_after_create_witness :
  CreateUavImage.outcome create_success = Some (inr sample_id)
  /\ get_image_metadata None "images" "0f3a" (CreateUavImage.backends create_success)
     = inr (sample_metadata "field").
Proof.
  assert (Ho : CreateUavImage.outcome create_success = Some (inr sample_id)) by reflexivity.
  split; [exact Ho|].
  exact (proj1 (get_image_metadata_after_create sample_thumbnailer sample_request _ _ _ _ Ho)).
Defined.

Lemma get_image_after_create_witness :
  CreateUavImage.outcome create_success = Some (inr sample_id)
  /\ UavImageMetadata.format (CreateUavImage.metadata sample_request) = Some JPEG
  /\ GetImage.outcome
       (GetImage.get_image "images" "0f3a" GetImage.no_faults GetImage.tasks_first
          (CreateUavImage.backends create_success))
     = Some (inr (StreamingResponse.mk (CreateUavImage.image_data sample_request)
                    "image/jpeg")).
Proof.
  assert (Ho : CreateUavImage.outcome create_success = Some (inr sample_id)) by reflexivity.
  split; [exact Ho|]. split; [reflexivity|].
  exact (proj2 (get_image_after_create sample_thumbnailer sample_request _ _ _ _ JPEG
                  Ho eq_refl)).
Defined.

Lemma created_image_is_listed_witness :
  CreateUavImage.outcome create_success = Some (inr sample_id)
  /\ exists ids,
       SqlImageMetadataStore.query nocase_engine
         (Backends.metadata_store (CreateUavImage.backends create_success))
         ImageQuery.empty [] 0 500 = inr ids
       /\ In sample_id ids.
Proof.
  assert (Ho : CreateUavImage.outcome create_success = Some (inr sample_id)) by reflexivity.
  split; [exact Ho|].
  apply (created_image_is_listed nocase_engine sample_thumbnailer sample_request _ _ _ _
           [] 500 Ho).
  vm_compute. discriminate.
Defined.

Lemma deleted_image_is_gone_witness :
  DeleteImage.outcome delete_after_create = Some (inr tt)
  /\ get_image_metadata None "images" "0f3a" (DeleteImage.backends delete_after_create)
     = inl (HTTPException 404).
Proof.
  assert (Ho : DeleteImage.outcome delete_after_create = Some (inr tt)) by reflexivity.
  split; [exact Ho|].
  exact (proj1 (proj2 (deleted_image_is_gone "images" "0f3a" _ _ _ Ho))).
Defined.

Lemma delete_image_of_present_witness :
  Backends.object_store (CreateUavImage.backends create_success) !! sample_id
  = Some (CreateUavImage.image_data sample_request)
  /\ SqlImageMetadataStore.get None
       (Backends.metadata_store (CreateUavImage.backends create_success)) sample_id
     = inr (sample_metadata "field")
  /\ DeleteImage.outcome delete_after_create = Some (inr tt).
Proof.
  assert (H1 : Backends.object_store (CreateUavImage.backends create_success) !! sample_id
               = Some (CreateUavImage.image_data sample_request)) by reflexivity.
  assert (H2 : SqlImageMetadataStore.get None
                 (Backends.metadata_store (CreateUavImage.backends create_success)) sample_id
               = inr (sample_metadata "field")) by reflexivity.
  split; [exact H1|]. split; [exact H2|].
  exact (proj2 (delete_image_of_present "images" "0f3a" _ _ _ H1 H2)).
Defined.

Lemma delete_image_keeps_others_witness :
  _thumbnail_id sample_id <> sample_id
  /\ Backends.object_store (DeleteImage.backends delete_after_create)
       !! _thumbnail_id sample_id
     = Backends.object_store (CreateUavImage.backends create_success)
         !! _thumbnail_id sample_id.
Proof.
  assert (Hne : _thumbnail_id sample_id <> sample_id) by discriminate.
  split; [exact Hne|].
  exact (proj1 (delete_image_keeps_others "images" "0f3a" DeleteImage.no_faults
                  DeleteImage.tasks_first _ _ Hne)).
Defined.

Lemma use_bucket_ensures_witness :
  use_bucket None None "2021-03-04" ∅
  = inr ("2021-03-04-images", {["2021-03-04-images"]} ∪ ∅)
  /\ "2021-03-04-images" ∈ ({["2021-03-04-images"]} ∪ ∅ : gset string).
Proof.
  assert (H : use_bucket None None "2021-03-04" ∅
              = inr ("2021-03-04-images", {["2021-03-04-images"]} ∪ ∅)) by reflexivity.
  split; [exact H|].
  exact (proj1 (proj2 (use_bucket_ensures _ _ _ _ _ _ H))).
Defined.

Lemma create_rollback_leaves_nothing_witness :
  create_fresh sample_request empty_backends
  /\ CreateUavImage.outcome create_metadata_failure = Some (inl MetadataOperationError)
  /\ Backends.object_store (CreateUavImage.backends create_metadata_failure) !! sample_id
     = None
  /\ Backends.object_store (CreateUavImage.backends create_metadata_failure)
       !! _thumbnail_id sample_id = None
  /\ SqlImageMetadataStore.get None
       (Backends.metadata_store (CreateUavImage.backends create_metadata_failure)) sample_id
     = inl KeyError.
Proof.
  assert (Hfresh : create_fresh sample_request empty_backends)
    by (repeat split; reflexivity).
  split; [exact Hfresh|]. split; [reflexivity|].
  exact (proj1 (create_rollback_leaves_nothing sample_thumbnailer sample_request
                  (CreateUavImage.mk_faults None (Some MetadataOperationError)
                     None None None None)
                  [CreateUavImage.RunObjectTask; CreateUavImage.RunThumbnailTask;
                   CreateUavImage.RunMetadataTask; CreateUavImage.Resume;
                   CreateUavImage.Resume; CreateUavImage.Resume]
                  empty_backends Hfresh)
           eq_refl eq_refl).
Defined.
